(** * NvFuser: the fusion container and the IR utilities, embedded in Rocq

    The development follows [Fusion] (the container that owns every value
    and expression of a fusion), and the free functions of
    [nvfuser::ir_utils] that query and rewrite the graph: single-value
    substitution, whole-graph replacement, the domain comparator, the
    cycle detector and the recursive-definition check.

    Pointers are identities (numbers); the objects they point to live in
    the container's stores, so that two holders of the same pointer see the
    same object.  A failed [NVF_CHECK] / [NVF_ERROR] throws in the source:
    here the operation returns [Err] with the message of the check. *)

From Stdlib Require Import Lia String.
From stdpp Require Import base option list relations gmap sets sorting.

Local Open Scope string_scope.
Local Open Scope list_scope.
#[local] Set Warnings "-clear-no-such-hyp".

(** ** Failing computations *)

(** Modelled from the spec: the check macros [NVF_CHECK] and [NVF_ERROR],
    whose definitions are not among the sources.  A failed check is a hard
    failure with a message, raised at the point of the check and never
    recovered at this layer (section 7): the operation ends with [Err] and
    the message. *)
Inductive Result (A : Type) : Type :=
  | Ok (a : A)
  | Err (msg : string).
Arguments Ok {A} a.
Arguments Err {A} msg.

#[global] Instance Result_ret : MRet Result := λ A a, Ok a.
#[global] Instance Result_bind : MBind Result := λ A B k m,
  match m with Ok a => k a | Err msg => Err msg end.

Definition NVF_CHECK (cond : bool) (msg : string) : Result unit :=
  if cond then Ok tt else Err msg.

Definition is_Ok {A} (r : Result A) : bool :=
  match r with Ok _ => true | Err _ => false end.

(** A loop whose body may throw: the state is threaded from one iteration
    to the next and the first failure ends the loop. *)
Fixpoint forM {S A : Type} (body : A → S → Result S) (l : list A) (s : S)
    : Result S :=
  match l with
  | [] => Ok s
  | a :: l' => s' ← body a s; forM body l' s'
  end.

(** ** Data model *)

(** Modelled from the spec: the enumerations and the classes of values,
    expressions, alias records and containers (section 3), whose
    declarations are not among the sources.  The constructors and the
    fields are those the functions below name. *)
Inductive ValType : Type :=
  | TensorDomain | IterDomain | TensorView | PipelineVal | Others.

Inductive MemoryType : Type := Local | Shared | Global.

Inductive IterType : Type :=
  | Iteration | Reduction | Broadcast | Symbolic.

Inductive AliasType : Type := NoAlias | InplaceUpdate | PointerArithmetic.

#[global] Instance ValType_eq_dec : EqDecision ValType.
Proof. solve_decision. Defined.
#[global] Instance MemoryType_eq_dec : EqDecision MemoryType.
Proof. solve_decision. Defined.
#[global] Instance IterType_eq_dec : EqDecision IterType.
Proof. solve_decision. Defined.
#[global] Instance AliasType_eq_dec : EqDecision AliasType.
Proof. solve_decision. Defined.

(** Modelled from the spec: a value object, with its category, its
    constant-ness, the two fusion flags, the back-reference to its
    definition and its use list.  [definition_] and [uses_] point to
    expressions, [memoryType] is read only on tensor views and [iterType]
    only on iteration domains. *)
Record Val : Type := mkVal {
  vtype : ValType;
  isConst : bool;
  is_fusion_input_ : bool;
  is_fusion_output_ : bool;
  definition_ : option nat;
  uses_ : list nat;
  memoryType : MemoryType;
  iterType : IterType;
}.

(** Modelled from the spec: an expression object, with its ordered inputs
    and outputs and the container it claims to belong to ([fusion()], null
    before it is registered). *)
Record Expr : Type := mkExpr {
  inputs : list nat;
  outputs : list nat;
  fusion : option nat;
}.

(** Modelled from the spec: the alias record of an output, with the three
    fields [aliasOutputToInput] fills. *)
Record AliasInfo : Type := mkAliasInfo {
  type : AliasType;
  aliased_io : option nat;
  hide_output : bool;
}.

(** Modelled from the spec: the container.  [vals_] and [exprs_] are the
    statements it owns (a statement is in the container exactly when its
    identity is a key), [inputs_], [outputs_], [io_alias_] and
    [all_tv_uses_valid_] are the members of [Fusion] the source names, and
    [isKernel] tells the lowered kernel container, the only one that is not
    in single-assignment form, from the others. *)
Record Fusion : Type := mkFusion {
  self : nat;
  isKernel : bool;
  vals_ : gmap nat Val;
  exprs_ : gmap nat Expr;
  inputs_ : list nat;
  outputs_ : list nat;
  io_alias_ : gmap nat AliasInfo;
  all_tv_uses_valid_ : bool;
}.

(** Field updates *)

Definition val_setDefinition (d : option nat) (x : Val) : Val :=
  mkVal (vtype x) (isConst x) (is_fusion_input_ x) (is_fusion_output_ x)
        d (uses_ x) (memoryType x) (iterType x).
Definition val_setUses (u : list nat) (x : Val) : Val :=
  mkVal (vtype x) (isConst x) (is_fusion_input_ x) (is_fusion_output_ x)
        (definition_ x) u (memoryType x) (iterType x).
Definition val_setIsFusionInput (b : bool) (x : Val) : Val :=
  mkVal (vtype x) (isConst x) b (is_fusion_output_ x)
        (definition_ x) (uses_ x) (memoryType x) (iterType x).
Definition val_setIsFusionOutput (b : bool) (x : Val) : Val :=
  mkVal (vtype x) (isConst x) (is_fusion_input_ x) b
        (definition_ x) (uses_ x) (memoryType x) (iterType x).
Definition val_setMemoryType (m : MemoryType) (x : Val) : Val :=
  mkVal (vtype x) (isConst x) (is_fusion_input_ x) (is_fusion_output_ x)
        (definition_ x) (uses_ x) m (iterType x).

Definition with_vals (g : gmap nat Val → gmap nat Val) (f : Fusion) : Fusion :=
  mkFusion (self f) (isKernel f) (g (vals_ f)) (exprs_ f) (inputs_ f)
           (outputs_ f) (io_alias_ f) (all_tv_uses_valid_ f).
Definition with_exprs (g : gmap nat Expr → gmap nat Expr) (f : Fusion) : Fusion :=
  mkFusion (self f) (isKernel f) (vals_ f) (g (exprs_ f)) (inputs_ f)
           (outputs_ f) (io_alias_ f) (all_tv_uses_valid_ f).
Definition with_inputs (g : list nat → list nat) (f : Fusion) : Fusion :=
  mkFusion (self f) (isKernel f) (vals_ f) (exprs_ f) (g (inputs_ f))
           (outputs_ f) (io_alias_ f) (all_tv_uses_valid_ f).
Definition with_outputs (g : list nat → list nat) (f : Fusion) : Fusion :=
  mkFusion (self f) (isKernel f) (vals_ f) (exprs_ f) (inputs_ f)
           (g (outputs_ f)) (io_alias_ f) (all_tv_uses_valid_ f).
Definition with_io_alias (g : gmap nat AliasInfo → gmap nat AliasInfo)
    (f : Fusion) : Fusion :=
  mkFusion (self f) (isKernel f) (vals_ f) (exprs_ f) (inputs_ f)
           (outputs_ f) (g (io_alias_ f)) (all_tv_uses_valid_ f).

(** Modelled from the spec: [Fusion::invalidateTvUses], declared in the
    class header, which is not among the sources.  It invalidates the
    cached use-list validity flag, so that the use lists of tensor views
    are rebuilt by [resetTvUses] when next read. *)
Definition invalidateTvUses (f : Fusion) : Fusion :=
  mkFusion (self f) (isKernel f) (vals_ f) (exprs_ f) (inputs_ f)
           (outputs_ f) (io_alias_ f) false.

(** ** Reading through a pointer

    The accessors take the container and the identity.  Reading through a
    pointer to an object the container does not own has no defined
    behaviour in the source; the accessors answer with the neutral value
    and the operations below assert membership where the source does. *)

Definition isTensorView (f : Fusion) (v : nat) : bool :=
  match vals_ f !! v with
  | Some x => bool_decide (vtype x = TensorView)
  | None => false
  end.

Definition isFusionInput (f : Fusion) (v : nat) : bool :=
  from_option is_fusion_input_ false (vals_ f !! v).

Definition isFusionOutput (f : Fusion) (v : nat) : bool :=
  from_option is_fusion_output_ false (vals_ f !! v).

(** Modelled from the spec: [Val::definition()] of the value class, which
    is not among the sources.  A value that is a leaf or an input has no
    definition: as [Fusion::resetTvUses] notes, registered inputs return
    null as their definition, whatever the [definition_] field holds, and
    this bounds the definition-based traversals by the inputs. *)
Definition definition (f : Fusion) (v : nat) : option nat :=
  match vals_ f !! v with
  | Some x => if is_fusion_input_ x then None else definition_ x
  | None => None
  end.

Definition definition_field (f : Fusion) (v : nat) : option nat :=
  x ← vals_ f !! v; definition_ x.

Definition uses_field (f : Fusion) (v : nat) : list nat :=
  from_option uses_ [] (vals_ f !! v).

Definition memoryType_of (f : Fusion) (v : nat) : option MemoryType :=
  memoryType <$> vals_ f !! v.

Definition expr_inputs (f : Fusion) (e : nat) : list nat :=
  from_option inputs [] (exprs_ f !! e).

Definition expr_outputs (f : Fusion) (e : nat) : list nat :=
  from_option outputs [] (exprs_ f !! e).

Definition inContainer_val (f : Fusion) (v : nat) : bool :=
  bool_decide (is_Some (vals_ f !! v)).

Definition inContainer_expr (f : Fusion) (e : nat) : bool :=
  bool_decide (is_Some (exprs_ f !! e)).

Definition assertInContainer_val (f : Fusion) (v : nat) (msg : string)
    : Result unit :=
  NVF_CHECK (inContainer_val f v) msg.

Definition assertInContainer_expr (f : Fusion) (e : nat) (msg : string)
    : Result unit :=
  NVF_CHECK (inContainer_expr f e) msg.

(** ** Writing through a pointer *)

(** Modelled from the spec: the setters of the value class, which is not
    among the sources; each writes one attribute of the object. *)

Definition setDefinition (v : nat) (d : option nat) (f : Fusion) : Fusion :=
  with_vals (alter (val_setDefinition d) v) f.

Definition setIsFusionInput (v : nat) (b : bool) (f : Fusion) : Fusion :=
  with_vals (alter (val_setIsFusionInput b) v) f.

Definition setIsFusionOutput (v : nat) (b : bool) (f : Fusion) : Fusion :=
  with_vals (alter (val_setIsFusionOutput b) v) f.

Definition setMemoryType (v : nat) (m : MemoryType) (f : Fusion) : Fusion :=
  with_vals (alter (val_setMemoryType m) v) f.

(** [std::vector::erase] at the position [std::find] returns. *)
Fixpoint erase_first (e : nat) (l : list nat) : list nat :=
  match l with
  | [] => []
  | x :: l' => if decide (x = e) then l' else x :: erase_first e l'
  end.

(** Modelled from the spec: [Val::addUse] of the value class, which is not
    among the sources.  The use list is the list of expressions that
    consume the value: the expression is appended unless the list has it
    already. *)
Definition addUse (v e : nat) (f : Fusion) : Fusion :=
  with_vals (alter (λ x,
    if decide (e ∈ uses_ x) then x else val_setUses (uses_ x ++ [e]) x) v) f.

(** Modelled from the spec: [Val::removeUse] of the value class, which is
    not among the sources.  The expression is detached from the use list;
    [Fusion::removeExpr] notes that on a tensor view this may call
    [invalidateTvUses], which it does when the list held the expression. *)
Definition removeUse (v e : nat) (f : Fusion) : Fusion :=
  match vals_ f !! v with
  | Some x =>
      if decide (e ∈ uses_ x) then
        let f' := with_vals (<[v := val_setUses (erase_first e (uses_ x)) x]>) f in
        if bool_decide (vtype x = TensorView) then invalidateTvUses f' else f'
      else f
  | None => f
  end.

(** Modelled from the spec: the base container [IrContainer], which is not
    among the sources, owns the statements: registering adds the statement
    to the owned set, removing fails on a statement that is not owned and
    otherwise erases it. *)
Definition IrContainer_registerExpr (e : nat) (ex : Expr) (f : Fusion) : Fusion :=
  with_exprs (<[e := ex]>) f.

Definition IrContainer_removeExpr (e : nat) (f : Fusion) : Result Fusion :=
  NVF_CHECK (inContainer_expr f e)
    "Wanted to remove an expression but it doesn't exist in this container.";;
  Ok (with_exprs (delete e) f).

Definition IrContainer_removeVal (v : nat) (f : Fusion) : Result Fusion :=
  NVF_CHECK (inContainer_val f v)
    "Wanted to remove a value but it doesn't exist in this container.";;
  Ok (with_vals (delete v) f).

(** ** The fusion container ([Fusion]) *)

(** [Fusion::removeExpr] *)
Definition removeExpr (e : nat) (f : Fusion) : Result Fusion :=
  assertInContainer_expr f e "Cannot remove expr ";;
  let f1 := foldl (λ g out, setDefinition out None g) f (expr_outputs f e) in
  let f2 := foldl (λ g inp, removeUse inp e g) f1 (expr_inputs f e) in
  IrContainer_removeExpr e f2.

(** The registered expressions that have [v] among their inputs, in the
    order the loop over [exprs_] meets them.  Every key of [exprs_] is in
    the container, so the [inContainer] guard of the loop never skips. *)
Definition exprs_using (f : Fusion) (v : nat) : list nat :=
  (filter (λ p, v ∈ inputs p.2) (map_to_list (exprs_ f))).*1.

(** [Fusion::removeVal] *)
Definition removeVal (v : nat) (f : Fusion) : Result Fusion :=
  assertInContainer_val f v "Cannot remove val ";;
  NVF_CHECK (negb (isFusionInput f v))
    "Cannot remove val as it is an input of the fusion.";;
  NVF_CHECK (negb (isFusionOutput f v))
    "Cannot remove val as it is an output of the fusion.";;
  f1 ← match definition f v with
       | Some orig => removeExpr orig f
       | None => Ok f
       end;
  let exprs_to_remove := exprs_using f1 v in
  f2 ← forM removeExpr exprs_to_remove f1;
  IrContainer_removeVal v f2.

(** [Fusion::addInput] *)
Definition addInput (input : nat) (f : Fusion) : Result Fusion :=
  assertInContainer_val f input "Cannot register input ";;
  f1 ← match vtype <$> vals_ f !! input with
       | Some TensorView => Ok (setMemoryType input Global f)
       | Some Others =>
           NVF_CHECK (negb (from_option isConst false (vals_ f !! input)))
             "Immediate scalar value cannot be added as an input. It is not necessary to pass it as an input.";;
           Ok f
       | _ => Ok f
       end;
  NVF_CHECK (negb (isFusionInput f1 input))
    "Val is already registered as input, duplicated inputs is not allowed";;
  let f2 := with_inputs (λ l, l ++ [input]) f1 in
  let f3 := setIsFusionInput input true f2 in
  Ok (invalidateTvUses f3).

(** [Fusion::addOutput].  [wraps_tv] answers, for a pipeline value,
    whether the value it wraps is a tensor view. *)
Definition addOutput (wraps_tv : nat → bool) (output : nat) (f : Fusion)
    : Result Fusion :=
  assertInContainer_val f output "Cannot register output ";;
  f1 ← (if isTensorView f output then Ok (setMemoryType output Global f)
        else
          NVF_CHECK
            (bool_decide (vtype <$> vals_ f !! output = Some PipelineVal)
             && wraps_tv output)
            "Non-TensorView outputs are not supported at this point: ";;
          Ok f);
  let f2 := with_outputs (λ l, l ++ [output]) f1 in
  let f3 := setIsFusionOutput output true f2 in
  Ok (invalidateTvUses f3).

(** [Fusion::removeInput], [Fusion::removeOutput] *)
Definition removeInput (input : nat) (f : Fusion) : Fusion :=
  invalidateTvUses
    (setIsFusionInput input false (with_inputs (erase_first input) f)).

Definition removeOutput (output : nat) (f : Fusion) : Fusion :=
  invalidateTvUses
    (setIsFusionOutput output false (with_outputs (erase_first output) f)).

(** [std::replace_if] with the predicate [v == output]. *)
Definition replace_val (output replacement : nat) (l : list nat) : list nat :=
  (λ v, if decide (v = output) then replacement else v) <$> l.

(** [Fusion::replaceOutput].  After the check the guard
    [find_output != outputs_.end()] of the source always holds. *)
Definition replaceOutput (output replacement : nat) (f : Fusion)
    : Result Fusion :=
  NVF_CHECK (bool_decide (output ∈ outputs_ f))
    "Unable to find output in Fusion";;
  let f1 := with_outputs (replace_val output replacement) f in
  let f2 := if isTensorView f1 replacement
            then setMemoryType replacement Global
                   (setIsFusionOutput replacement true f1)
            else f1 in
  let f3 := if isTensorView f2 output
            then setMemoryType output Local
                   (setIsFusionOutput output false f2)
            else f2 in
  let f4 := invalidateTvUses f3 in
  Ok (match io_alias_ f4 !! output with
      | Some input =>
          with_io_alias (λ m, <[replacement := input]> (delete output m)) f4
      | None => f4
      end).

(** [Fusion::getOutputAlias] *)
Definition no_alias_info : AliasInfo := mkAliasInfo NoAlias None false.

Definition getOutputAlias (f : Fusion) (output : nat) : AliasInfo :=
  match io_alias_ f !! output with
  | Some info => info
  | None => no_alias_info
  end.

(** [Fusion::registerExpr].  The expression object [ex] with identity [e]
    was built by the caller and is not owned by any container yet. *)
Definition registerExpr_input (e : nat) (input : nat) (f : Fusion)
    : Result Fusion :=
  assertInContainer_val f input "Input to expr is invalid, ";;
  Ok (if isTensorView f input then invalidateTvUses f else addUse input e f).

Definition registerExpr_output (is_ssa : bool) (e : nat) (output : nat)
    (f : Fusion) : Result Fusion :=
  assertInContainer_val f output "Output to expr is invalid, ";;
  f1 ← match definition f output with
       | Some d => if is_ssa then removeExpr d f else Ok f
       | None => Ok f
       end;
  if is_ssa || (negb is_ssa && bool_decide (definition f1 output = None))
  then
    let f2 := setDefinition output (Some e) f1 in
    Ok (if isTensorView f2 output then invalidateTvUses f2 else f2)
  else Ok f1.

Definition registerExpr (e : nat) (ex : Expr) (f : Fusion) : Result Fusion :=
  if inContainer_expr f e then Ok f
  else
    NVF_CHECK (match fusion ex with
               | Some c => bool_decide (c = self f)
               | None => true
               end) "expr was not found in the active fusion.";;
    let f0 := IrContainer_registerExpr e ex f in
    f1 ← forM (registerExpr_input e) (inputs ex) f0;
    let is_ssa := negb (isKernel f) in
    forM (registerExpr_output is_ssa e) (outputs ex) f1.

(** ** Single-value substitution ([ValReplacement::SubstituteInExpr]) *)

(** The state of a mutator: the registered mutations and, for
    [SubstituteInExpr], the expression its [registerNewExpr] recorded. *)
Record Mutator : Type := mkMutator {
  mutations_ : gmap nat nat;
  expr_ : option nat;
}.

Definition maybeMutated (m : Mutator) (v : nat) : nat :=
  default v (mutations_ m !! v).

(** The identities of expressions the container owns or some value of it
    points to as its definition: a newly created expression is none of them. *)
Definition referenced_exprs (f : Fusion) : gset nat :=
  dom (exprs_ f)
  ∪ list_to_set (omap (λ p, definition_ p.2) (map_to_list (vals_ f))).

(** Modelled from the spec: [OptOutMutator::mutate] on an expression, whose source is
    not among the sources.  The mutator produces a new expression identical
    to the given one except that every mutated operand is replaced; when no
    operand matches a registered mutation it leaves the expression alone.
    The new expression is a new object (an identity nothing in the
    container refers to), created in the container the old one lives in and registered
    there by [registerExpr]; [removeExpr_hook] and [registerNewExpr_hook]
    are the two virtual functions a derived mutator overrides. *)
Definition OptOutMutator_mutate
    (removeExpr_hook : nat → Fusion → Result Fusion)
    (registerNewExpr_hook : nat → Mutator → Mutator)
    (e : nat) (st : Fusion * Mutator) : Result (Fusion * Mutator) :=
  let '(f, m) := st in
  match exprs_ f !! e with
  | None => Err "expression is not in the container"
  | Some ex =>
      if bool_decide (Exists (λ v, is_Some (mutations_ m !! v)) (inputs ex))
      then
        let e' := fresh (referenced_exprs f) in
        f1 ← removeExpr_hook e f;
        f2 ← registerExpr e'
               (mkExpr (maybeMutated m <$> inputs ex) (outputs ex)
                  (Some (self f))) f1;
        Ok (f2, registerNewExpr_hook e' m)
      else Ok (f, m)
  end.

(** [SubstituteInExpr::subsitute]; a null argument is [None].  The mutator
    overrides [removeExpr] with a function that does nothing and
    [registerNewExpr] with one that records the new expression. *)
Definition subsitute (expr reference substitute : option nat) (f : Fusion)
    : Result (Fusion * nat) :=
  match expr, reference, substitute with
  | Some e, Some r, Some s =>
      let sie := mkMutator {[ r := s ]} None in
      '(f', sie') ← OptOutMutator_mutate
                      (λ _ g, Ok g)
                      (λ e' m, mkMutator (mutations_ m) (Some e'))
                      e (f, sie);
      Ok (f', match expr_ sie' with None => e | Some e' => e' end)
  | _, _, _ => Err "Nullptr arg found."
  end.

(** [replaceValInExprInputs] *)
Definition replaceValInExprInputs (expr reference substitute : nat)
    (f : Fusion) : Result (Fusion * nat) :=
  subsitute (Some expr) (Some reference) (Some substitute) f.

(** ** Whole-graph replacement ([ValReplacementMutator]) *)

(** The constructor of [ValReplacementMutator].  [dispatchMutate_stmts]
    stands for its first part, the dispatch of the mutator over the sorted
    statements ([StmtSort] and the dispatch of [OptOutMutator] are not among
    the sources); [replacement_map] lists the entries of the unordered map
    in the order the final loop meets them. *)
Definition replace_mapped_output (p : nat * nat) (g : Fusion) : Result Fusion :=
  if isFusionOutput g p.1 then replaceOutput p.1 p.2 g else Ok g.

Definition ValReplacementMutator
    (dispatchMutate_stmts : list (nat * nat) → Fusion → Result Fusion)
    (replacement_map : list (nat * nat)) (f : Fusion) : Result Fusion :=
  f1 ← dispatchMutate_stmts replacement_map f;
  forM replace_mapped_output replacement_map f1.

Definition replaceValue
    (dispatchMutate_stmts : list (nat * nat) → Fusion → Result Fusion)
    (replacement_map : list (nat * nat)) (f : Fusion) : Result Fusion :=
  ValReplacementMutator dispatchMutate_stmts replacement_map f.

(** ** Statements and the cycle detector ([checkCycle]) *)

Inductive Statement : Type :=
  | StmtVal (v : nat)
  | StmtExpr (e : nat).

#[global] Instance Statement_eq_dec : EqDecision Statement.
Proof. solve_decision. Defined.

#[global] Instance Statement_countable : Countable Statement.
Proof.
  refine (inj_countable'
    (λ s, match s with StmtVal v => inl v | StmtExpr e => inr e end)
    (λ x, match x with inl v => StmtVal v | inr e => StmtExpr e end) _).
  by intros [].
Defined.

(** [next]: a value leads to its definition, an expression to its inputs. *)
Definition next (f : Fusion) (stmt : Statement) : list Statement :=
  match stmt with
  | StmtVal v =>
      match definition f v with
      | Some d => [StmtExpr d]
      | None => []
      end
  | StmtExpr e => StmtVal <$> expr_inputs f e
  end.

(** The loop over [next_stmts] inside [checkCycle]: either a statement of
    the path is met and the path is returned (in the order the unordered
    set yields it), or every statement is pushed at the front of the
    queue. *)
Fixpoint checkCycle_push (path : gset Statement) (next_stmts : list Statement)
    (queue : list Statement) : list Statement + list Statement :=
  match next_stmts with
  | [] => inr queue
  | stmt :: rest =>
      if decide (stmt ∈ path) then inl (elements path)
      else checkCycle_push path rest (stmt :: queue)
  end.

(** One iteration of the [while] loop of [checkCycle], on a queue that is
    not empty: the loop returns ([CycleFound]) or goes on with a new queue,
    path and visited set. *)
Inductive CycleStep : Type :=
  | CycleFound (ret : list Statement)
  | CycleNext (queue : list Statement) (path visited : gset Statement).

Definition checkCycle_step (f : Fusion) (from : gset Statement)
    (val : Statement) (rest : list Statement) (path visited : gset Statement)
    : CycleStep :=
  if decide (val ∈ from ∨ val ∈ visited) then CycleNext rest path visited
  else
    let next_stmts := next f val in
    if decide (next_stmts = []) then CycleNext rest path ({[val]} ∪ visited)
    else if decide (val ∈ path)
    then CycleNext rest (path ∖ {[val]}) ({[val]} ∪ visited)
    else
      match checkCycle_push ({[val]} ∪ path) next_stmts (val :: rest) with
      | inl ret => CycleFound ret
      | inr queue' => CycleNext queue' ({[val]} ∪ path) visited
      end.

(** The [while] loop of [checkCycle]; [None] when the fuel runs out. *)
Fixpoint checkCycle_loop (fuel : nat) (f : Fusion) (from : gset Statement)
    (queue : list Statement) (path visited : gset Statement)
    : option (list Statement) :=
  match fuel with
  | 0 => None
  | S fuel' =>
      match queue with
      | [] => Some []
      | val :: rest =>
          match checkCycle_step f from val rest path visited with
          | CycleFound ret => Some ret
          | CycleNext queue' path' visited' =>
              checkCycle_loop fuel' f from queue' path' visited'
          end
      end
  end.

(** Every statement the container owns. *)
Definition all_stmts (f : Fusion) : list Statement :=
  (StmtVal <$> (map_to_list (vals_ f)).*1)
  ++ (StmtExpr <$> (map_to_list (exprs_ f)).*1).

(** What is left to do: one step to put a statement on the path and one
    step for each statement it pushes, as long as the statement is neither
    on the path nor visited. *)
Definition checkCycle_weight (f : Fusion) (done : gset Statement)
    (l : list Statement) : nat :=
  sum_list ((λ s, if decide (s ∈ done) then 0 else S (length (next f s))) <$> l).

Definition checkCycle_fuel (f : Fusion) (to : list nat) : nat :=
  S (checkCycle_weight f ∅ (all_stmts f) + length to).

(** [checkCycle(fusion, from, to)] *)
Definition checkCycle (f : Fusion) (from : gset Statement) (to : list nat)
    : option (list Statement) :=
  checkCycle_loop (checkCycle_fuel f to) f from (StmtVal <$> to) ∅ ∅.

(** [checkCycle(fusion)] *)
Definition checkCycle_fusion (f : Fusion) : option (list Statement) :=
  checkCycle f ∅ (outputs_ f).

(** ** The recursive-definition check ([isRecursivelyDefined]) *)

(** The loop over the inputs of the definition: [inl tt] when the value
    itself is met, otherwise the queue with the unvisited inputs pushed at
    its back. *)
Fixpoint isRecursivelyDefined_inputs (val : nat) (visited_vals : gset nat)
    (inps : list nat) (vals_to_visit : list nat) : unit + list nat :=
  match inps with
  | [] => inr vals_to_visit
  | inp :: rest =>
      if decide (inp = val) then inl tt
      else if decide (inp ∈ visited_vals)
      then isRecursivelyDefined_inputs val visited_vals rest vals_to_visit
      else isRecursivelyDefined_inputs val visited_vals rest
             (vals_to_visit ++ [inp])
  end.

(** One iteration of the [while] loop of [isRecursivelyDefined]: [inl tt]
    when the loop returns true, otherwise the new queue; the value taken
    from the queue is visited in both cases. *)
Definition isRecursivelyDefined_step (f : Fusion) (val : nat) (v : nat)
    (rest : list nat) (visited_vals : gset nat) : unit + list nat :=
  match definition f v with
  | None => inr rest
  | Some v_def =>
      isRecursivelyDefined_inputs val ({[v]} ∪ visited_vals)
        (expr_inputs f v_def) rest
  end.

Fixpoint isRecursivelyDefined_loop (fuel : nat) (f : Fusion) (val : nat)
    (vals_to_visit : list nat) (visited_vals : gset nat) : option bool :=
  match fuel with
  | 0 => None
  | S fuel' =>
      match vals_to_visit with
      | [] => Some false
      | v :: rest =>
          match isRecursivelyDefined_step f val v rest visited_vals with
          | inl _ => Some true
          | inr q =>
              isRecursivelyDefined_loop fuel' f val q ({[v]} ∪ visited_vals)
          end
      end
  end.

(** [isRecursivelyDefined(val)] run with the given fuel. *)
Definition isRecursivelyDefined (fuel : nat) (f : Fusion) (val : nat)
    : option bool :=
  isRecursivelyDefined_loop fuel f val [val] ∅.

(** ** The domain comparator ([compareDomains]) *)

Inductive Direction : Type := Forward | Backward.

#[global] Instance Direction_eq_dec : EqDecision Direction.
Proof. solve_decision. Defined.

Record CompareDomainResult : Type := mkCompareDomainResult {
  dom0_has_unreachable_ids : bool;
  dom1_has_unreachable_ids : bool;
}.

(** The traversal service [IRBFS] the comparator calls; its source is not
    among the sources, so the comparator takes it as a parameter.
    [getExprsBetween f from to] is the path of expressions, each with the
    direction it is taken in, and [getReachableValsFrom f from vals] the
    values of [vals] the traversal reaches from [from]. *)
Record IRBFS : Type := mkIRBFS {
  getExprsBetween : Fusion → list nat → list nat → list (nat * Direction);
  getReachableValsFrom : Fusion → list nat → list nat → list nat;
}.

Definition isIterDomain (f : Fusion) (v : nat) : bool :=
  bool_decide (vtype <$> vals_ f !! v = Some IterDomain).

Definition isBroadcast (f : Fusion) (v : nat) : bool :=
  bool_decide (iterType <$> vals_ f !! v = Some Broadcast).

Definition is_symb (f : Fusion) (v : nat) : bool :=
  bool_decide (iterType <$> vals_ f !! v = Some Symbolic).

Definition msg_output_twice : string :=
  "Invalid derived domain due to dependent expr: . Output should just show up once: ".

Definition msg_input_unseen : string :=
  "Invalid derived domain due to dependent expr: . Input not seen before: ".

Definition step_from (f : Fusion) (expr : nat) (direction : Direction)
    : list nat :=
  match direction with
  | Forward => expr_inputs f expr
  | Backward => expr_outputs f expr
  end.

Definition step_to (f : Fusion) (expr : nat) (direction : Direction)
    : list nat :=
  match direction with
  | Forward => expr_outputs f expr
  | Backward => expr_inputs f expr
  end.

(** The loop over [to]: a node outside additional-ids is inserted in the
    frontier and must not have been there. *)
Definition insert_to (additional_ids_set : gset nat) (v : nat)
    (frontier : gset nat) : Result (gset nat) :=
  if decide (v ∈ additional_ids_set) then Ok frontier
  else
    NVF_CHECK (bool_decide (v ∉ frontier)) msg_output_twice;;
    Ok ({[v]} ∪ frontier).

Definition ignorable (f : Fusion) (ignore_broadcast : bool)
    (additional_ids_set : gset nat) (v : nat) : bool :=
  (ignore_broadcast && isBroadcast f v) || bool_decide (v ∈ additional_ids_set).

(** The loop over [from]: the node is erased from the frontier, and must
    have been there unless it is ignorable. *)
Definition erase_from (f : Fusion) (ignore_broadcast : bool)
    (additional_ids_set : gset nat) (v : nat) (frontier : gset nat)
    : Result (gset nat) :=
  NVF_CHECK (bool_decide (v ∈ frontier)
             || ignorable f ignore_broadcast additional_ids_set v)
    msg_input_unseen;;
  Ok (frontier ∖ {[v]}).

(** The body of the loop over the traversed expressions; the state is the
    frontier and the additional-ids set. *)
Definition compareDomains_step (f : Fusion) (ignore_broadcast : bool)
    (ed : nat * Direction) (st : gset nat * gset nat)
    : Result (gset nat * gset nat) :=
  let '(expr, direction) := ed in
  let '(frontier, additional_ids_set) := st in
  NVF_CHECK (forallb (isIterDomain f) (expr_inputs f expr))
    "Expected IterDomain inputs";;
  NVF_CHECK (forallb (isIterDomain f) (expr_outputs f expr))
    "Expected IterDomain outputs";;
  let from := step_from f expr direction in
  let to := step_to f expr direction in
  if forallb (λ v, bool_decide (v ∈ additional_ids_set)) from
  then Ok (frontier, additional_ids_set ∪ list_to_set to)
  else
    frontier1 ← forM (insert_to additional_ids_set) to frontier;
    frontier2 ← forM (erase_from f ignore_broadcast additional_ids_set)
                  from frontier1;
    Ok (frontier2, additional_ids_set).

(** The lambda [check_ids]: [true] when some checked id is not in the
    target set; an id that is missing but reachable from the target is
    redundant, which is an error. *)
Fixpoint check_ids (bfs : IRBFS) (f : Fusion) (ignore_broadcast : bool)
    (ids_to_check : list nat) (target_set : gset nat) (unreachable : bool)
    : Result bool :=
  match ids_to_check with
  | [] => Ok unreachable
  | id :: rest =>
      if is_symb f id || (ignore_broadcast && isBroadcast f id)
      then check_ids bfs f ignore_broadcast rest target_set unreachable
      else if decide (id ∈ target_set)
      then check_ids bfs f ignore_broadcast rest target_set unreachable
      else
        NVF_CHECK
          (bool_decide
             (getReachableValsFrom bfs f (elements target_set) [id] = []))
          "id is redundant in the target set";;
        check_ids bfs f ignore_broadcast rest target_set true
  end.

(** The loop of [compareDomains] over the traversed expressions. *)
Definition compareDomains_traverse (f : Fusion) (ignore_broadcast : bool)
    (exprs : list (nat * Direction)) (st : gset nat * gset nat)
    : Result (gset nat * gset nat) :=
  forM (compareDomains_step f ignore_broadcast) exprs st.

(** The end of [compareDomains], from the frontier the traversal leaves:
    the symbolic ids that are in the frontier and in [dom1] are dropped on
    both sides, then each side is checked against the other unless the
    other side still has a symbolic id. *)
Definition compareDomains_report (bfs : IRBFS) (f : Fusion)
    (ignore_broadcast : bool) (dom1 : list nat) (frontier dom1_set : gset nat)
    : Result CompareDomainResult :=
  let ids_to_remove : gset nat :=
    filter (λ id, is_symb f id = true ∧ id ∈ dom1_set) frontier in
  let frontier := frontier ∖ ids_to_remove in
  let dom1_set := dom1_set ∖ ids_to_remove in
  let frontier_has_symbolic := existsb (is_symb f) (elements frontier) in
  let dom1_has_symbolic := existsb (is_symb f) (elements dom1_set) in
  r1 ← (if negb frontier_has_symbolic
        then check_ids bfs f ignore_broadcast dom1 frontier false
        else Ok false);
  r0 ← (if negb dom1_has_symbolic
        then check_ids bfs f ignore_broadcast (elements frontier) dom1_set false
        else Ok false);
  Ok (mkCompareDomainResult r0 r1).

(** [compareDomains] *)
Definition compareDomains (bfs : IRBFS) (f : Fusion)
    (dom0 dom1 additional_ids : list nat) (ignore_broadcast : bool)
    : Result CompareDomainResult :=
  let dom0_set : gset nat := list_to_set dom0 in
  let dom1_set : gset nat := list_to_set dom1 in
  let additional_ids_set : gset nat := list_to_set additional_ids in
  if bool_decide (dom0 = []) && bool_decide (dom1 = [])
  then Ok (mkCompareDomainResult false false)
  else
    NVF_CHECK (bool_decide (length dom0 = size dom0_set))
      "Duplicated entry is detected in dom0: ";;
    NVF_CHECK (bool_decide (length dom1 = size dom1_set))
      "Duplicated entry is detected in dom1: ";;
    let dom0' := dom0 ++ additional_ids in
    let exprs := getExprsBetween bfs f dom0' dom1 in
    let frontier : gset nat := list_to_set dom0' in
    st ← compareDomains_traverse f ignore_broadcast exprs
           (frontier, additional_ids_set);
    compareDomains_report bfs f ignore_broadcast dom1 st.1 dom1_set.

(** Modelled from the spec: a traversal service for the comparator, whose
    source [IRBFS] is not among the sources.  It is the bidirectional
    traversal of the transform expressions between two node sets: an
    expression is taken forward once all its inputs are visited and
    backward once all its outputs are, its other side becomes visited, and
    the traversal ends when every target node is visited or nothing more
    can be taken. *)
Definition bfs_ready (visited : gset nat) (taken : gset nat)
    (p : nat * Expr) : option (nat * Direction * list nat) :=
  if decide (p.1 ∈ taken) then None
  else if bool_decide (inputs p.2 ≠ [])
          && forallb (λ v, bool_decide (v ∈ visited)) (inputs p.2)
  then Some (p.1, Forward, outputs p.2)
  else if bool_decide (outputs p.2 ≠ [])
          && forallb (λ v, bool_decide (v ∈ visited)) (outputs p.2)
  then Some (p.1, Backward, inputs p.2)
  else None.

Fixpoint bfs_traverse (fuel : nat) (exprs : list (nat * Expr))
    (to : list nat) (visited taken : gset nat)
    (path : list (nat * Direction)) : list (nat * Direction) * gset nat :=
  match fuel with
  | 0 => (path, visited)
  | S fuel' =>
      if forallb (λ v, bool_decide (v ∈ visited)) to then (path, visited)
      else
        match list_find (λ p, is_Some (bfs_ready visited taken p)) exprs with
        | Some (_, p) =>
            match bfs_ready visited taken p with
            | Some (e, d, new) =>
                bfs_traverse fuel' exprs to (visited ∪ list_to_set new)
                  ({[e]} ∪ taken) (path ++ [(e, d)])
            | None => (path, visited)
            end
        | None => (path, visited)
        end
  end.

Definition bfs_model : IRBFS :=
  mkIRBFS
    (λ f from to,
       (bfs_traverse (size (dom (exprs_ f))) (map_to_list (exprs_ f))
          to (list_to_set from) ∅ []).1)
    (λ f from vals,
       let visited :=
         (bfs_traverse (size (dom (exprs_ f))) (map_to_list (exprs_ f))
            vals (list_to_set from) ∅ []).2 in
       filter (λ v, v ∈ visited) vals).

(** ** Axis permutations ([normalizeNew2Old], [normalizeOld2New])

    Axis positions are [int64_t] in the source and integers here.  A
    negative position has the number of dimensions added to it once; with
    a number of dimensions that is not negative, as the length of a vector
    is, that addition cannot overflow. *)

Section axes.
Local Open Scope Z_scope.

(** The lambda both functions wrap a position with:
    [entry < 0 ? entry + ndims : entry]. *)
Definition wrap_dim (ndims entry : Z) : Z :=
  if decide (entry < 0) then entry + ndims else entry.

(** [normalizeNew2Old] *)
Definition normalizeNew2Old (new2old_in : list Z) (ndims : Z)
    : Result (list Z) :=
  NVF_CHECK (bool_decide (Z.of_nat (length new2old_in) = ndims))
    "There must be a transpose mapping for each dimension in domain";;
  let new2old := wrap_dim ndims <$> new2old_in in
  NVF_CHECK
    (negb (existsb (λ entry, bool_decide (entry < 0 ∨ entry >= ndims)) new2old))
    "New2Old axes are not within the number of dimensions of the provided domain.";;
  let old_pos_set : gset Z := list_to_set new2old in
  NVF_CHECK
    (bool_decide (Z.of_nat (length new2old) = ndims)
     && bool_decide (size old_pos_set = length new2old))
    "Duplicate entries in transformation map.";;
  Ok new2old.

(** The first [std::transform] of [normalizeOld2New] inserts the wrapped
    entries in the map [old2new], in the order the input map yields them;
    an insertion into an [unordered_map] does nothing when the key is
    there already. *)
Definition old2new_insert (ndims : Z) (old2new : gmap Z Z) (entry : Z * Z)
    : gmap Z Z :=
  let k := wrap_dim ndims entry.1 in
  match old2new !! k with
  | Some _ => old2new
  | None => <[k := wrap_dim ndims entry.2]> old2new
  end.

(** [std::vector<int64_t>::max_size()]: the largest number of 8-byte
    elements a vector holds, [PTRDIFF_MAX / sizeof(int64_t)]. *)
Definition vector_max_size : Z := 2 ^ 60 - 1.

(** [std::vector<int64_t>(n, x)]: the constructor takes the size as an
    unsigned number and throws when it is above [max_size()], which a
    negative [n] is once converted.  Running out of memory below that bound
    is not modelled. *)
Definition vector_of_size (n : Z) (x : Z) : Result (list Z) :=
  if decide (n < 0 ∨ vector_max_size < n) then Err "std::length_error"
  else Ok (replicate (Z.to_nat n) x).

(** The last [std::transform] of [normalizeOld2New]: every position still
    at [-1] takes the next of the positions left, [*it++].  Reading past
    the end of [positions_left] has no defined behaviour in the source; it
    is an error here. *)
Fixpoint fill_unspecified (new2old : list Z) (it : list Z) : Result (list Z) :=
  match new2old with
  | [] => Ok []
  | i :: rest =>
      if decide (i = -1) then
        match it with
        | [] => Err "positions_left is exhausted"
        | p :: it' => r ← fill_unspecified rest it'; Ok (p :: r)
        end
      else r ← fill_unspecified rest it; Ok (i :: r)
  end.

(** [normalizeOld2New].  [old2new_in] lists the entries of the unordered
    map in the order its iteration yields them.  The loops over the map
    [old2new] take its entries in the order of the keys; once the checks
    have passed, the new positions are distinct and their order does not
    matter.  The [std::set] of the positions left is read in increasing
    order. *)
Definition normalizeOld2New (old2new_in : list (Z * Z)) (ndims : Z)
    : Result (list Z) :=
  let old2new : gmap Z Z := foldl (old2new_insert ndims) ∅ old2new_in in
  NVF_CHECK
    (negb (existsb
       (λ entry : Z * Z,
          bool_decide (entry.1 < 0 ∨ entry.1 >= ndims ∨
                       entry.2 < 0 ∨ entry.2 >= ndims))
       (map_to_list old2new)))
    "Reorder axes are not within the number of dimensions of the provided domain.";;
  let old_pos_set : gset Z := list_to_set (map_to_list old2new).*1 in
  let new_pos_set : gset Z := list_to_set (map_to_list old2new).*2 in
  NVF_CHECK
    (bool_decide (size old_pos_set = size old2new)
     && bool_decide (size new_pos_set = size old2new))
    "Duplicate entries in transformation map sent to TensorView reorder.";;
  new2old ← vector_of_size ndims (-1);
  let new2old :=
    foldl (λ v (elem : Z * Z), <[Z.to_nat elem.2 := elem.1]> v) new2old
      (map_to_list old2new) in
  let old_positions : gset Z := list_to_set new2old ∖ {[-1]} in
  let all_positions := seqZ 0 ndims in
  let positions_left := filter (λ p, p ∉ old_positions) all_positions in
  fill_unspecified new2old positions_left.

End axes.

(** ** Counting operations ([getOperationCount]) *)

(** The [while] loop of [getOperationCount]; [None] when the fuel runs out.
    The counter only grows by one at a time from zero. *)
Fixpoint getOperationCount_loop (fuel : nat) (f : Fusion) (vals : list nat)
    (num_ops : Z) : option Z :=
  match fuel with
  | 0 => None
  | S fuel' =>
      match vals with
      | [] => Some num_ops
      | v :: rest =>
          match definition f v with
          | None => getOperationCount_loop fuel' f rest num_ops
          | Some def =>
              getOperationCount_loop fuel' f (rest ++ expr_inputs f def)
                (num_ops + 1)%Z
          end
      end
  end.

(** [getOperationCount(val)] run with the given fuel. *)
Definition getOperationCount (fuel : nat) (f : Fusion) (val : nat)
    : option Z :=
  getOperationCount_loop fuel f [val] 0%Z.

(** ** Terminating outputs ([Fusion::getTerminatingOutputs])

    The function reads the use lists through [Val::uses()], which is not
    among the sources; [uses] stands for it: the use list of each value as
    the call sees it. *)

(** The values pushed for [val]: the outputs of its uses, in the order of
    the two nested loops. *)
Definition consumers_of (uses : nat → list nat) (f : Fusion) (val : nat)
    : list nat :=
  mjoin (expr_outputs f <$> uses val).

(** The [while] loop of the lambda [is_reachable_to_output]; [None] when
    the fuel runs out.  The deque is pushed and popped at its back only:
    the list has the back of the deque at its head. *)
Fixpoint is_reachable_to_output_loop (fuel : nat) (uses : nat → list nat)
    (f : Fusion) (consumers : list nat) (visited : gset nat) : option bool :=
  match fuel with
  | 0 => None
  | S fuel' =>
      match consumers with
      | [] => Some false
      | consumer :: rest =>
          if isFusionOutput f consumer then Some true
          else if decide (consumer ∈ visited)
          then is_reachable_to_output_loop fuel' uses f rest visited
          else
            is_reachable_to_output_loop fuel' uses f
              (reverse (consumers_of uses f consumer) ++ rest)
              ({[consumer]} ∪ visited)
      end
  end.

Definition is_reachable_to_output (fuel : nat) (uses : nat → list nat)
    (f : Fusion) (val : nat) : option bool :=
  is_reachable_to_output_loop fuel uses f
    (reverse (consumers_of uses f val)) ∅.

(** The loop over the outputs: an output that reaches an output is
    skipped, the others are kept in their order. *)
Fixpoint terminating_outputs (fuel : nat) (uses : nat → list nat) (f : Fusion)
    (outs : list nat) : option (list nat) :=
  match outs with
  | [] => Some []
  | out :: rest =>
      b ← is_reachable_to_output fuel uses f out;
      l ← terminating_outputs fuel uses f rest;
      Some (if b : bool then l else out :: l)
  end.

(** [Fusion::getTerminatingOutputs] run with the given fuel. *)
Definition getTerminatingOutputs (fuel : nat) (uses : nat → list nat)
    (f : Fusion) : option (list nat) :=
  terminating_outputs fuel uses f (outputs_ f).

(** * Properties *)

(** ** Failing computations and loops *)

Lemma bind_Ok {A B} (m : Result A) (k : A → Result B) (b : B) :
  (m ≫= k) = Ok b ↔ ∃ a, m = Ok a ∧ k a = Ok b.
Proof.
  destruct m as [a|msg]; simpl; split.
  - intros H. by exists a.
  - by intros (a' & [= ->] & H).
  - intros [=].
  - by intros (a' & [=] & _).
Qed.

Lemma NVF_CHECK_Ok (c : bool) (msg : string) (u : unit) :
  NVF_CHECK c msg = Ok u ↔ c = true.
Proof. destruct c, u; simpl; split; congruence. Qed.

Lemma NVF_CHECK_bind_Ok {B} (c : bool) (msg : string) (k : unit → Result B)
    (b : B) :
  (NVF_CHECK c msg ≫= k) = Ok b ↔ c = true ∧ k tt = Ok b.
Proof.
  destruct c; simpl; split; try done.
  - by intros [_ H].
  - by intros [[=] _].
Qed.

Lemma forM_cons {S A} (body : A → S → Result S) (a : A) (l : list A) (s : S) :
  forM body (a :: l) s = (body a s ≫= forM body l).
Proof. reflexivity. Qed.

Lemma forM_app {S A} (body : A → S → Result S) (l1 l2 : list A) (s : S) :
  forM body (l1 ++ l2) s = (forM body l1 s ≫= forM body l2).
Proof.
  revert s. induction l1 as [|a l1 IH]; intros s; simpl; [done|].
  destruct (body a s); simpl; auto.
Qed.

(** An invariant of the body is an invariant of the loop. *)
Lemma forM_invariant {S A} (P : S → Prop) (body : A → S → Result S)
    (l : list A) (s s' : S) :
  (∀ a t t', a ∈ l → P t → body a t = Ok t' → P t') →
  P s → forM body l s = Ok s' → P s'.
Proof.
  revert s. induction l as [|a l IH]; intros s Hstep Hs.
  - by intros [= <-].
  - rewrite forM_cons. intros (t & Ha & Hrest)%bind_Ok.
    apply (IH t); [|eapply Hstep; [left|done..]|done].
    intros b u u' Hb. apply Hstep. by right.
Qed.

(** ** Reading after writing *)

Lemma isTensorView_vtype (f : Fusion) (v : nat) :
  isTensorView f v = true ↔ vtype <$> vals_ f !! v = Some TensorView.
Proof.
  unfold isTensorView. destruct (vals_ f !! v) as [x|]; simpl; [|done].
  rewrite bool_decide_eq_true. split; [by intros ->|by intros [= ->]].
Qed.

(** ** C9: registering an input *)

Lemma addInput_Ok (f f' : Fusion) (v : nat) :
  addInput v f = Ok f' →
  ∃ x, vals_ f !! v = Some x ∧ is_fusion_input_ x = false ∧
       f' = invalidateTvUses (setIsFusionInput v true
              (with_inputs (λ l, l ++ [v])
                 (if bool_decide (vtype x = TensorView)
                  then setMemoryType v Global f else f))).
Proof.
  unfold addInput, assertInContainer_val, inContainer_val, isFusionInput.
  destruct (vals_ f !! v) as [x|] eqn:Hx; simpl; [|done].
  intros Hok. exists x.
  destruct x as [vt c fi fo d u m it]; simpl in *.
  destruct vt, fi, c; simpl in *; rewrite ?lookup_alter_eq, ?Hx in Hok;
    simpl in *; try done; repeat split; congruence.
Qed.

(** C9.  [addInput v] fails on a value whose fusion-input flag is set, so a
    second [addInput v] after a successful one fails; a successful call
    appends [v] to the input list, sets the flag, invalidates the use-list
    cache and marks a tensor view as global memory. *)
Theorem addInput_registers (f : Fusion) (v : nat) :
  (isFusionInput f v = true → is_Ok (addInput v f) = false) ∧
  (∀ f', addInput v f = Ok f' →
     inputs_ f' = inputs_ f ++ [v] ∧
     isFusionInput f' v = true ∧
     all_tv_uses_valid_ f' = false ∧
     (isTensorView f v = true → memoryType_of f' v = Some Global) ∧
     is_Ok (addInput v f') = false).
Proof.
  assert (Hfail : ∀ g, isFusionInput g v = true → is_Ok (addInput v g) = false).
  { intros g Hin. destruct (addInput v g) as [g'|] eqn:Hg; [|done].
    apply addInput_Ok in Hg as (x & Hx & Hfi & _).
    unfold isFusionInput in Hin. rewrite Hx in Hin. simpl in Hin. congruence. }
  split; [apply Hfail|].
  intros f' (x & Hx & Hfi & ->)%addInput_Ok.
  assert (Hin : isFusionInput (invalidateTvUses (setIsFusionInput v true
              (with_inputs (λ l, l ++ [v])
                 (if bool_decide (vtype x = TensorView)
                  then setMemoryType v Global f else f)))) v = true).
  { unfold isFusionInput; simpl. rewrite lookup_alter_eq.
    destruct (bool_decide (vtype x = TensorView)); simpl;
      rewrite ?lookup_alter_eq, Hx; done. }
  split_and!; [|done| | |by apply Hfail].
  - by destruct (bool_decide (vtype x = TensorView)).
  - done.
  - unfold isTensorView, memoryType_of. rewrite Hx. intros ->. simpl.
    by rewrite !lookup_alter_eq, Hx.
Qed.

(** A tensor view and a scalar, unregistered and without definition. *)
Definition a_tensor : Val := mkVal TensorView false false false None [] Local Iteration.
Definition a_scalar : Val := mkVal Others false false false None [] Local Iteration.
Definition a_pipeline_val : Val :=
  mkVal PipelineVal false false false None [] Local Iteration.

Definition fusion_of (kernel : bool) (vals : list (nat * Val)) : Fusion :=
  mkFusion 0 kernel (list_to_map vals) ∅ [] [] ∅ true.

Example addInput_twice :
  (addInput 0 (fusion_of false [(0, a_tensor)]) ≫= addInput 0)
  = Err "Val is already registered as input, duplicated inputs is not allowed".
Proof. vm_compute. reflexivity. Qed.

Lemma isTensorView_alter (g : Val → Val) (k : nat) (f : Fusion) (v : nat) :
  (∀ x, vtype (g x) = vtype x) →
  isTensorView (with_vals (alter g k) f) v = isTensorView f v.
Proof.
  intros Hg. unfold isTensorView; simpl.
  destruct (decide (k = v)) as [->|Hne].
  - rewrite lookup_alter_eq. destruct (vals_ f !! v); simpl; [|done].
    by rewrite Hg.
  - by rewrite lookup_alter_ne.
Qed.

(** ** C6: replacing an output *)

Lemma replace_val_spec (o n v : nat) (l : list nat) :
  v ∈ replace_val o n l ↔ (v = n ∧ o ∈ l) ∨ (v ≠ o ∧ v ∈ l).
Proof.
  unfold replace_val. rewrite list_elem_of_fmap. split.
  - intros (y & -> & Hy). destruct (decide (y = o)) as [->|]; [left|right]; done.
  - intros [[-> Ho]|[Hne Hv]].
    + exists o. by rewrite decide_True.
    + exists v. by rewrite decide_False.
Qed.

Lemma replaceOutput_Ok (f f' : Fusion) (o n : nat) :
  replaceOutput o n f = Ok f' →
  o ∈ outputs_ f ∧
  outputs_ f' = replace_val o n (outputs_ f) ∧
  all_tv_uses_valid_ f' = false ∧
  io_alias_ f' = match io_alias_ f !! o with
                 | Some input => <[n := input]> (delete o (io_alias_ f))
                 | None => io_alias_ f
                 end ∧
  exprs_ f' = exprs_ f ∧
  (∀ v, isTensorView f' v = isTensorView f v) ∧
  (∀ v, isFusionOutput f' v =
        if bool_decide (v = o) && isTensorView f o then false
        else if bool_decide (v = n) && isTensorView f n then true
        else isFusionOutput f v) ∧
  (∀ v, memoryType_of f' v =
        if bool_decide (v = o) && isTensorView f o then Some Local
        else if bool_decide (v = n) && isTensorView f n then Some Global
        else memoryType_of f v).
Proof.
  unfold replaceOutput. intros [Hin Hf]%NVF_CHECK_bind_Ok.
  apply bool_decide_eq_true in Hin. split; [done|].
  cbv zeta in Hf. injection Hf as <-.
  set (f1 := with_outputs (replace_val o n) f).
  assert (Htv1 : ∀ v, isTensorView f1 v = isTensorView f v) by done.
  rewrite Htv1.
  set (f2 := if isTensorView f n then _ else f1).
  assert (Htv2 : ∀ v, isTensorView f2 v = isTensorView f v).
  { intros v. unfold f2. destruct (isTensorView f n); [|done].
    unfold setMemoryType, setIsFusionOutput. by rewrite !isTensorView_alter. }
  rewrite Htv2.
  set (f3 := if isTensorView f o then _ else f2).
  assert (Hal : io_alias_ f3 = io_alias_ f).
  { unfold f3, f2. by destruct (isTensorView f o), (isTensorView f n). }
  rewrite Hal.
  split_and!.
  - unfold f3, f2. by destruct (io_alias_ f !! o), (isTensorView f o), (isTensorView f n).
  - destruct (io_alias_ f !! o); reflexivity.
  - destruct (io_alias_ f !! o); simpl; by rewrite ?Hal.
  - unfold f3, f2. by destruct (io_alias_ f !! o), (isTensorView f o), (isTensorView f n).
  - intros v. transitivity (isTensorView f3 v); [by destruct (io_alias_ f !! o)|].
    unfold f3. destruct (isTensorView f o); [|done].
    unfold setMemoryType, setIsFusionOutput. by rewrite !isTensorView_alter.
  - intros v. transitivity (isFusionOutput f3 v); [by destruct (io_alias_ f !! o)|].
    unfold f3, f2, f1, isFusionOutput, isTensorView, setMemoryType, setIsFusionOutput.
    destruct (vals_ f !! o) as [xo|] eqn:Ho, (vals_ f !! n) as [xn|] eqn:Hn; simpl;
      repeat case_bool_decide; simpl; rewrite ?lookup_alter;
      repeat case_decide; subst; rewrite ?Ho, ?Hn; simpl; try done; try congruence.
  - intros v. transitivity (memoryType_of f3 v); [by destruct (io_alias_ f !! o)|].
    unfold f3, f2, f1, memoryType_of, isTensorView, setMemoryType, setIsFusionOutput.
    destruct (vals_ f !! o) as [xo|] eqn:Ho, (vals_ f !! n) as [xn|] eqn:Hn; simpl;
      repeat case_bool_decide; simpl; rewrite ?lookup_alter;
      repeat case_decide; subst; rewrite ?Ho, ?Hn; simpl; try done; try congruence.
Qed.

(** What a successful [replaceOutput old new] leaves behind. *)
Definition replaceOutput_post (f : Fusion) (old new : nat) : Prop :=
  (old ∉ outputs_ f →
     replaceOutput old new f = Err "Unable to find output in Fusion") ∧
  (old ∈ outputs_ f → is_Ok (replaceOutput old new f) = true) ∧
  (∀ f', replaceOutput old new f = Ok f' →
     new ∈ outputs_ f' ∧ (old ∉ outputs_ f') ∧
     (∀ info, io_alias_ f !! old = Some info →
        getOutputAlias f' new = info ∧ getOutputAlias f' old = no_alias_info) ∧
     (io_alias_ f !! old = None →
        ∀ v, getOutputAlias f' v = getOutputAlias f v) ∧
     (isTensorView f new = true → memoryType_of f' new = Some Global) ∧
     (isTensorView f old = true → memoryType_of f' old = Some Local) ∧
     all_tv_uses_valid_ f' = false).

(** C6.  For distinct values, [replaceOutput old new] fails when [old] is
    not in the output list; when it succeeds the output list holds [new] and
    no longer [old], an alias entry of [old] has moved to [new], a tensor
    view [new] is global memory and a tensor view [old] local memory, and
    the use-list cache is invalid. *)
Theorem replaceOutput_migrates (f : Fusion) (old new : nat) :
  old ≠ new → replaceOutput_post f old new.
Proof.
  intros Hne. split_and!.
  - intros Hnin. unfold replaceOutput.
    by rewrite bool_decide_eq_false_2.
  - intros Hin. unfold replaceOutput.
    by rewrite bool_decide_eq_true_2.
  - intros f' (Hin & Hout & Hinv & Hal & _ & _ & _ & Hmem)%replaceOutput_Ok.
    split_and!.
    + rewrite Hout. apply replace_val_spec. by left.
    + rewrite Hout, replace_val_spec. intros [[? _]|[? _]]; congruence.
    + intros info Hinfo. unfold getOutputAlias. rewrite Hal, Hinfo.
      rewrite lookup_insert_eq, lookup_insert_ne, lookup_delete_eq by done.
      done.
    + intros Hnone v. unfold getOutputAlias. by rewrite Hal, Hnone.
    + intros Hn. rewrite Hmem, Hn.
      rewrite (bool_decide_eq_false_2 (new = old)) by done.
      by rewrite bool_decide_eq_true_2.
    + intros Ho. rewrite Hmem, Ho. by rewrite bool_decide_eq_true_2.
    + done.
Qed.

Definition two_outputs : Fusion :=
  mkFusion 0 false
    (list_to_map [(0, val_setIsFusionOutput true a_tensor); (1, a_tensor)])
    ∅ [] [0] {[ 0 := mkAliasInfo InplaceUpdate (Some 7) false ]} true.

Lemma replaceOutput_migrates_witness : replaceOutput_post two_outputs 0 1.
Proof. apply replaceOutput_migrates. lia. Defined.

Example replaceOutput_run :
  (λ f, (outputs_ f, getOutputAlias f 1, getOutputAlias f 0,
         memoryType_of f 1, memoryType_of f 0, isFusionOutput f 0))
    <$> (match replaceOutput 0 1 two_outputs with Ok f => Some f | Err _ => None end)
  = Some ([1], mkAliasInfo InplaceUpdate (Some 7) false, no_alias_info,
          Some Global, Some Local, false).
Proof. vm_compute. reflexivity. Qed.

(** ** C7: whole-graph replacement and the output list *)

Lemma replace_mapped_output_step (p : nat * nat) (g g' : Fusion) :
  replace_mapped_output p g = Ok g' →
  (∀ v, isTensorView g' v = isTensorView g v) ∧
  (∀ v, v ≠ p.1 → v ∈ outputs_ g → v ∈ outputs_ g') ∧
  (∀ v, v ≠ p.2 → v ∉ outputs_ g → v ∉ outputs_ g') ∧
  (∀ v, v ≠ p.2 → isFusionOutput g v = false → isFusionOutput g' v = false) ∧
  (∀ v, v ≠ p.1 → v ≠ p.2 → isFusionOutput g' v = isFusionOutput g v).
Proof.
  unfold replace_mapped_output. destruct p as [o n]; simpl.
  destruct (isFusionOutput g o) eqn:Hflag.
  2:{ intros [= <-]. split_and!; auto. }
  intros (Hin & Hout & _ & _ & _ & Htv & Hfl & _)%replaceOutput_Ok.
  split_and!; [done|..].
  - intros v Hv Hvin. rewrite Hout, replace_val_spec. by right.
  - intros v Hv Hvnin. rewrite Hout, replace_val_spec.
    intros [[? _]|[_ ?]]; done.
  - intros v Hv Hf. rewrite Hfl, Hf.
    rewrite (bool_decide_eq_false_2 (v = n)) by done. simpl.
    by destruct (bool_decide (v = o) && isTensorView g o).
  - intros v Hvo Hvn. rewrite Hfl.
    by rewrite (bool_decide_eq_false_2 (v = n)), (bool_decide_eq_false_2 (v = o)).
Qed.

Lemma replace_outputs_frame (m : list (nat * nat)) (g f' : Fusion) :
  forM replace_mapped_output m g = Ok f' →
  (∀ v, isTensorView f' v = isTensorView g v) ∧
  (∀ v, v ∉ m.*1 → v ∈ outputs_ g → v ∈ outputs_ f') ∧
  (∀ v, v ∉ m.*2 → v ∉ outputs_ g → v ∉ outputs_ f') ∧
  (∀ v, v ∉ m.*2 → isFusionOutput g v = false → isFusionOutput f' v = false).
Proof.
  intros Hrun. split_and!; intros v.
  - revert Hrun.
    apply (forM_invariant (λ t, isTensorView t v = isTensorView g v)); [|done].
    intros p t t' _ Ht (-> & _)%replace_mapped_output_step. done.
  - intros Hv Hin. revert Hrun.
    apply (forM_invariant (λ t, v ∈ outputs_ t)); [|done].
    intros p t t' Hp Ht (_ & H & _)%replace_mapped_output_step.
    apply H; [|done]. intros ->. apply Hv, list_elem_of_fmap. by exists p.
  - intros Hv Hnin. revert Hrun.
    apply (forM_invariant (λ t, v ∉ outputs_ t)); [|done].
    intros p t t' Hp Ht (_ & _ & H & _)%replace_mapped_output_step.
    apply H; [|done]. intros ->. apply Hv, list_elem_of_fmap. by exists p.
  - intros Hv Hfl. revert Hrun.
    apply (forM_invariant (λ t, isFusionOutput t v = false)); [|done].
    intros p t t' Hp Ht (_ & _ & _ & H & _)%replace_mapped_output_step.
    apply H; [|done]. intros ->. apply Hv, list_elem_of_fmap. by exists p.
Qed.

(** What the final loop of the replacement achieves, from the container [g]
    the dispatch leaves to the container [f'] it returns. *)
Definition replaceValue_post (m : list (nat * nat)) (g f' : Fusion) : Prop :=
  ∀ old new, (old, new) ∈ m → isFusionOutput g old = true →
    new ∈ outputs_ f' ∧ (old ∉ outputs_ f') ∧
    (isTensorView g old = true → isFusionOutput f' old = false).

Lemma replace_outputs_loop (m : list (nat * nat)) (g f' : Fusion) :
  NoDup m.*1 →
  (∀ old new, (old, new) ∈ m → new ∉ m.*1) →
  forM replace_mapped_output m g = Ok f' →
  replaceValue_post m g f'.
Proof.
  revert g. induction m as [|[o n] m IH]; intros g Hnd Hdisj Hrun old new Hin Hflag.
  { by apply elem_of_nil in Hin. }
  rewrite forM_cons in Hrun. apply bind_Ok in Hrun as (g1 & Hstep & Hrest).
  rewrite fmap_cons in Hnd. apply NoDup_cons in Hnd as [Ho Hnd]. simpl in Ho.
  assert (Hn : n ∉ o :: m.*1) by (apply (Hdisj o n); left).
  apply not_elem_of_cons in Hn as [Hno Hn].
  assert (Hoval : o ∉ m.*2).
  { intros (p & Hp1 & Hp)%list_elem_of_fmap. destruct p as [o1 n1]; simpl in *; subst.
    apply (Hdisj o1 n1); [by right|]. simpl. left. }
  destruct (replace_outputs_frame m g1 f' Hrest) as (Htv & Hkeep & Hout & Hfl).
  apply elem_of_cons in Hin as [[= -> ->]|Hin].
  - unfold replace_mapped_output in Hstep. simpl in Hstep. rewrite Hflag in Hstep.
    apply replaceOutput_Ok in Hstep as (Hoin & Hout1 & _ & _ & _ & Htv1 & Hfl1 & _).
    split_and!.
    + apply Hkeep; [done|]. rewrite Hout1, replace_val_spec. by left.
    + apply Hout; [done|]. rewrite Hout1, replace_val_spec.
      intros [[? _]|[? _]]; congruence.
    + intros Htvo. apply Hfl; [done|]. rewrite Hfl1, Htvo.
      by rewrite bool_decide_eq_true_2.
  - assert (Hold : old ∈ m.*1) by (apply list_elem_of_fmap; by exists (old, new)).
    assert (old ≠ o) by (intros ->; done).
    assert (old ≠ n) by (intros ->; done).
    destruct (replace_mapped_output_step _ _ _ Hstep) as (Htv1 & _ & _ & _ & Hsame).
    destruct (IH g1) with (old := old) (new := new) as (H1 & H2 & H3); try done.
    + intros o' n' Hin' Hn'. apply (Hdisj o' n'); [by right|]. simpl. by right.
    + by rewrite Hsame.
    + split_and!; try done. rewrite <- Htv1. done.
Qed.

(** A fusion whose only output is a pipeline value, and one whose only
    output is a tensor view, both declared by [addOutput]. *)
Definition pipeline_output : Fusion :=
  match addOutput (λ _, true) 0
          (fusion_of false [(0, a_pipeline_val); (1, a_pipeline_val)]) with
  | Ok f => f
  | Err _ => fusion_of false []
  end.

Definition tensor_output : Fusion :=
  match addOutput (λ _, true) 0
          (fusion_of false [(0, a_tensor); (1, a_tensor)]) with
  | Ok f => f
  | Err _ => fusion_of false []
  end.

Definition tensor_output_replaced : Fusion :=
  match ValReplacementMutator (λ _ g, Ok g) [(0, 1)] tensor_output with
  | Ok f => f
  | Err _ => fusion_of false []
  end.

(** What the final loop does when it succeeds and no replacement is itself
    a key of the mapping: a mapped value whose fusion-output flag is set is
    replaced by its mapped value in the output list, and the flag of a
    mapped tensor view is cleared. *)
Lemma replaceValue_outputs
    (dispatch : list (nat * nat) → Fusion → Result Fusion)
    (m : list (nat * nat)) (f g f' : Fusion) :
  NoDup m.*1 →
  Forall (λ p, p.2 ∉ m.*1) m →
  dispatch m f = Ok g →
  ValReplacementMutator dispatch m f = Ok f' →
  replaceValue_post m g f'.
Proof.
  intros Hnd Hdisj Hg (g' & Hg' & Hloop)%bind_Ok.
  assert (g' = g) as -> by congruence.
  apply replace_outputs_loop; [done| |done].
  intros old new Hin. rewrite Forall_forall in Hdisj. by apply (Hdisj (old, new)).
Qed.

Example replaceValue_tensor_output :
  replaceValue_post [(0, 1)] tensor_output tensor_output_replaced.
Proof.
  apply (replaceValue_outputs (λ _ g, Ok g) [(0, 1)] tensor_output).
  - compute_done.
  - compute_done.
  - reflexivity.
  - vm_compute. reflexivity.
Defined.

(** Two tensor-view outputs, for a mapping that chains [0] to [1] and [1]
    to [2]: the later iteration of the loop replaces the replacement. *)
Definition two_tensor_outputs : Fusion :=
  match addOutput (λ _, true) 0
          (fusion_of false [(0, a_tensor); (1, a_tensor); (2, a_tensor)])
        ≫= addOutput (λ _, true) 1 with
  | Ok f => f
  | Err _ => fusion_of false []
  end.

Example replaceValue_chained_mapping :
  outputs_ two_tensor_outputs = [0; 1] ∧
  outputs_ <$> (match ValReplacementMutator (λ _ g, Ok g) [(0, 1); (1, 2)]
                        two_tensor_outputs with
                | Ok f' => Some f'
                | Err _ => None
                end) = Some [2; 2].
Proof. split; vm_compute; reflexivity. Qed.

(** C7, at an output that is a pipeline value.  [addOutput] declares the
    pipeline value [0] an output and sets its fusion-output flag.  The
    replacement of [0] by the pipeline value [1] puts [1] in the output
    list, but the flag of [0] is still set afterwards and the flag of [1]
    is not: [replaceOutput] writes the two flags under its tensor-view
    guards only, where [addOutput] and [removeOutput] write the flag of any
    value.  The flag that is left then sends a second replacement of [0] to
    [replaceOutput], which fails on a value that is no longer listed. *)
Lemma replaceValue_pipeline_output_keeps_flag :
  (outputs_ pipeline_output = [0] ∧ isFusionOutput pipeline_output 0 = true) ∧
  (∃ f', ValReplacementMutator (λ _ g, Ok g) [(0, 1)] pipeline_output = Ok f' ∧
         outputs_ f' = [1] ∧
         isFusionOutput f' 0 = true ∧ isFusionOutput f' 1 = false ∧
         ValReplacementMutator (λ _ g, Ok g) [(0, 1)] f'
         = Err "Unable to find output in Fusion") ∧
  (outputs_ (removeOutput 0 pipeline_output) = [] ∧
   isFusionOutput (removeOutput 0 pipeline_output) 0 = false).
Proof.
  split_and!; try (vm_compute; reflexivity).
  eexists. split; [vm_compute; reflexivity|].
  split_and!; vm_compute; reflexivity.
Qed.

(** ** What registering and removing expressions never change *)

Definition val_static (x x' : Val) : Prop :=
  vtype x' = vtype x ∧ is_fusion_input_ x' = is_fusion_input_ x ∧
  is_fusion_output_ x' = is_fusion_output_ x.

Definition static_eq (f f' : Fusion) : Prop :=
  isKernel f' = isKernel f ∧ inputs_ f' = inputs_ f ∧
  outputs_ f' = outputs_ f ∧ io_alias_ f' = io_alias_ f ∧
  (all_tv_uses_valid_ f = false → all_tv_uses_valid_ f' = false) ∧
  (∀ v, option_Forall2 val_static (vals_ f !! v) (vals_ f' !! v)).

Lemma val_static_refl (x : Val) : val_static x x.
Proof. done. Qed.

Lemma val_static_trans (x y z : Val) :
  val_static x y → val_static y z → val_static x z.
Proof. unfold val_static. intros (-> & -> & ->) (-> & -> & ->). done. Qed.

Lemma static_eq_refl (f : Fusion) : static_eq f f.
Proof.
  repeat split; try done. intros v. destruct (vals_ f !! v); constructor.
  apply val_static_refl.
Qed.

Lemma static_eq_trans (f g h : Fusion) :
  static_eq f g → static_eq g h → static_eq f h.
Proof.
  intros (? & ? & ? & ? & Hv1 & Hs1) (? & ? & ? & ? & Hv2 & Hs2).
  repeat split; try congruence; [auto|].
  intros v. specialize (Hs1 v). specialize (Hs2 v).
  destruct Hs1 as [x y Hxy|]; inversion Hs2; subst; constructor.
  by eapply val_static_trans.
Qed.

Lemma static_eq_alter (h : Val → Val) (k : nat) (f : Fusion) :
  (∀ x, val_static x (h x)) → static_eq f (with_vals (alter h k) f).
Proof.
  intros Hh. repeat split; try done. intros v. simpl. rewrite lookup_alter.
  case_decide; subst; destruct (vals_ f !! v); simpl; constructor; auto.
  apply val_static_refl.
Qed.

Lemma static_eq_invalidate (f : Fusion) : static_eq f (invalidateTvUses f).
Proof.
  repeat split; try done. intros v. simpl. destruct (vals_ f !! v); constructor.
  apply val_static_refl.
Qed.

Lemma static_eq_with_exprs (h : gmap nat Expr → gmap nat Expr) (f : Fusion) :
  static_eq f (with_exprs h f).
Proof.
  repeat split; try done. intros v. simpl. destruct (vals_ f !! v); constructor.
  apply val_static_refl.
Qed.

Lemma static_eq_isTensorView (f f' : Fusion) (v : nat) :
  static_eq f f' → isTensorView f' v = isTensorView f v.
Proof.
  intros (_ & _ & _ & _ & _ & Hs). specialize (Hs v). unfold isTensorView.
  destruct Hs as [x y (Hv & _)|]; simpl; [by rewrite Hv|done].
Qed.

Lemma static_eq_isFusionInput (f f' : Fusion) (v : nat) :
  static_eq f f' → isFusionInput f' v = isFusionInput f v.
Proof.
  intros (_ & _ & _ & _ & _ & Hs). specialize (Hs v). unfold isFusionInput.
  destruct Hs as [x y (_ & Hv & _)|]; simpl; [by rewrite Hv|done].
Qed.

Lemma static_eq_inContainer_val (f f' : Fusion) (v : nat) :
  static_eq f f' → inContainer_val f' v = inContainer_val f v.
Proof.
  intros (_ & _ & _ & _ & _ & Hs). specialize (Hs v). unfold inContainer_val.
  destruct Hs; apply bool_decide_ext; split; intros [? ?]; done || eauto.
Qed.

Lemma static_eq_is_Some (f f' : Fusion) (v : nat) :
  static_eq f f' → is_Some (vals_ f' !! v) ↔ is_Some (vals_ f !! v).
Proof.
  intros (_ & _ & _ & _ & _ & Hs). specialize (Hs v).
  destruct Hs; split; intros [? ?]; done || eauto.
Qed.

(** The accessor [definition] in terms of the field and the input flag. *)
Lemma definition_eq (f : Fusion) (v : nat) :
  definition f v = if isFusionInput f v then None else definition_field f v.
Proof.
  unfold definition, isFusionInput, definition_field.
  destruct (vals_ f !! v) as [x|]; simpl; [|done]. done.
Qed.

(** ** The primitive writes *)

Lemma removeUse_alter (v e : nat) (f : Fusion) :
  vals_ (removeUse v e f)
  = alter (λ x, val_setUses (erase_first e (uses_ x)) x) v (vals_ f).
Proof.
  unfold removeUse. destruct (vals_ f !! v) as [x|] eqn:Hx.
  - destruct (decide (e ∈ uses_ x)) as [Hin|Hnin].
    + transitivity (<[v:=val_setUses (erase_first e (uses_ x)) x]> (vals_ f)).
      { by destruct (bool_decide (vtype x = TensorView)). }
      apply map_eq. intros k. rewrite lookup_alter, lookup_insert.
      case_decide; subst; by rewrite ?Hx.
    + apply map_eq. intros k. rewrite lookup_alter.
      case_decide; subst; [|done]. rewrite Hx. simpl. f_equal.
      assert (erase_first e (uses_ x) = uses_ x) as ->.
      { clear Hx. induction (uses_ x) as [|y l IH]; simpl; [done|].
        apply not_elem_of_cons in Hnin as [? ?].
        rewrite decide_False by done. by rewrite IH. }
      by destruct x.
  - apply map_eq. intros k. rewrite lookup_alter.
    case_decide; subst; by rewrite ?Hx.
Qed.

Lemma removeUse_other (v e : nat) (f : Fusion) :
  exprs_ (removeUse v e f) = exprs_ f.
Proof.
  unfold removeUse. destruct (vals_ f !! v) as [x|]; [|done].
  by destruct (decide (e ∈ uses_ x)), (bool_decide (vtype x = TensorView)).
Qed.

Lemma removeUse_static (v e : nat) (f : Fusion) : static_eq f (removeUse v e f).
Proof.
  unfold removeUse. destruct (vals_ f !! v) as [x|] eqn:Hx; [|apply static_eq_refl].
  destruct (decide (e ∈ uses_ x)); [|apply static_eq_refl].
  assert (Hst : static_eq f
     (with_vals <[v:=val_setUses (erase_first e (uses_ x)) x]> f)).
  { repeat split; try done. intros k. simpl. rewrite lookup_insert.
    case_decide; subst; rewrite ?Hx; [by constructor|].
    destruct (vals_ f !! k); constructor. apply val_static_refl. }
  destruct (bool_decide (vtype x = TensorView)); [|done].
  eapply static_eq_trans; [done|apply static_eq_invalidate].
Qed.

Lemma erase_first_other (e e' : nat) (l : list nat) :
  e' ≠ e → e' ∈ erase_first e l ↔ e' ∈ l.
Proof.
  intros Hne. induction l as [|y l IH]; simpl; [done|].
  destruct (decide (y = e)) as [->|].
  - rewrite elem_of_cons. split; [auto|]. by intros [?|?].
  - rewrite !elem_of_cons, IH. done.
Qed.

Lemma removeUse_uses (v e : nat) (f : Fusion) (k e' : nat) :
  e' ≠ e → e' ∈ uses_field (removeUse v e f) k ↔ e' ∈ uses_field f k.
Proof.
  intros Hne. unfold uses_field. rewrite removeUse_alter, lookup_alter.
  case_decide; subst; [|done].
  destruct (vals_ f !! k) as [x|]; simpl; [|done].
  by apply erase_first_other.
Qed.

Lemma removeUse_definition_field (v e : nat) (f : Fusion) (k : nat) :
  definition_field (removeUse v e f) k = definition_field f k.
Proof.
  unfold definition_field. rewrite removeUse_alter, lookup_alter.
  case_decide; subst; [|done]. by destruct (vals_ f !! k).
Qed.

Lemma setDefinition_field (o : nat) (d : option nat) (f : Fusion) (k : nat) :
  definition_field (setDefinition o d f) k
  = if decide (k = o) then (if inContainer_val f o then d else None)
    else definition_field f k.
Proof.
  unfold definition_field, setDefinition, inContainer_val; simpl.
  rewrite lookup_alter. destruct (decide (k = o)) as [->|].
  - rewrite decide_True by done. by destruct (vals_ f !! o).
  - by rewrite decide_False.
Qed.

Lemma setDefinition_uses (o : nat) (d : option nat) (f : Fusion) (k : nat) :
  uses_field (setDefinition o d f) k = uses_field f k.
Proof.
  unfold uses_field, setDefinition; simpl. rewrite lookup_alter.
  case_decide; subst; [|done]. by destruct (vals_ f !! k).
Qed.

Lemma setDefinition_static (o : nat) (d : option nat) (f : Fusion) :
  static_eq f (setDefinition o d f).
Proof. apply static_eq_alter. done. Qed.

Lemma addUse_static (v e : nat) (f : Fusion) : static_eq f (addUse v e f).
Proof.
  apply static_eq_alter. intros x. by destruct (decide (e ∈ uses_ x)).
Qed.

Lemma addUse_uses (v e : nat) (f : Fusion) (k e' : nat) :
  e' ∈ uses_field (addUse v e f) k
  ↔ e' ∈ uses_field f k ∨ (e' = e ∧ k = v ∧ inContainer_val f v = true).
Proof.
  unfold uses_field, addUse, inContainer_val; simpl. rewrite lookup_alter.
  destruct (decide (v = k)) as [->|Hne].
  - destruct (vals_ f !! k) as [x|]; simpl.
    + destruct (decide (e ∈ uses_ x)); simpl.
      * split; [auto|]. intros [?|(-> & _)]; done.
      * rewrite elem_of_app, list_elem_of_singleton.
        split; intros [?|?]; auto. right. tauto.
    + split; [auto|]. intros [?|(_ & _ & ?)]; done.
  - split; [auto|]. intros [?|(_ & ? & _)]; [done|]. by subst.
Qed.

Lemma addUse_definition_field (v e : nat) (f : Fusion) (k : nat) :
  definition_field (addUse v e f) k = definition_field f k.
Proof.
  unfold definition_field, addUse; simpl. rewrite lookup_alter.
  case_decide; subst; [|done]. destruct (vals_ f !! k) as [x|]; simpl; [|done].
  by destruct (decide (e ∈ uses_ x)).
Qed.

(** ** [removeExpr] *)

Lemma clear_definitions_spec (l : list nat) (f : Fusion) :
  let f' := foldl (λ g out, setDefinition out None g) f l in
  static_eq f f' ∧ exprs_ f' = exprs_ f ∧
  (∀ k, definition_field f' k
        = if decide (k ∈ l) then None else definition_field f k) ∧
  (∀ k, uses_field f' k = uses_field f k).
Proof.
  revert f. induction l as [|o l IH]; intros f; simpl.
  { split_and!; try done. apply static_eq_refl. }
  destruct (IH (setDefinition o None f)) as (Hst & Hex & Hdef & Huses).
  split_and!.
  - eapply static_eq_trans; [apply setDefinition_static|done].
  - by rewrite Hex.
  - intros k. rewrite Hdef, setDefinition_field.
    destruct (decide (k = o)) as [->|Hne].
    + rewrite (decide_True (P := o ∈ o :: l)) by left.
      by destruct (decide (o ∈ l)), (inContainer_val f o).
    + destruct (decide (k ∈ l)).
      * rewrite decide_True; [done|by right].
      * rewrite decide_False; [done|]. by intros [?|?]%elem_of_cons.
  - intros k. by rewrite Huses, setDefinition_uses.
Qed.

Lemma remove_uses_spec (e : nat) (l : list nat) (f : Fusion) :
  let f' := foldl (λ g inp, removeUse inp e g) f l in
  static_eq f f' ∧ exprs_ f' = exprs_ f ∧
  (∀ k, definition_field f' k = definition_field f k) ∧
  (∀ k e', e' ≠ e → e' ∈ uses_field f' k ↔ e' ∈ uses_field f k).
Proof.
  revert f. induction l as [|i l IH]; intros f; simpl.
  { split_and!; try done. apply static_eq_refl. }
  destruct (IH (removeUse i e f)) as (Hst & Hex & Hdef & Huses).
  split_and!.
  - eapply static_eq_trans; [apply removeUse_static|done].
  - by rewrite Hex, removeUse_other.
  - intros k. by rewrite Hdef, removeUse_definition_field.
  - intros k e' Hne. by rewrite Huses, removeUse_uses.
Qed.

Lemma removeExpr_Ok (d : nat) (f f' : Fusion) :
  removeExpr d f = Ok f' →
  ∃ ex, exprs_ f !! d = Some ex ∧
        exprs_ f' = delete d (exprs_ f) ∧
        static_eq f f' ∧
        (∀ k, definition_field f' k
              = if decide (k ∈ outputs ex) then None else definition_field f k) ∧
        (∀ k e', e' ≠ d → e' ∈ uses_field f' k ↔ e' ∈ uses_field f k).
Proof.
  unfold removeExpr, assertInContainer_expr.
  intros [Hin Hrest]%NVF_CHECK_bind_Ok.
  apply bool_decide_eq_true in Hin as [ex Hex]. exists ex. split; [done|].
  unfold expr_outputs, expr_inputs in Hrest. rewrite Hex in Hrest. simpl in Hrest.
  destruct (clear_definitions_spec (outputs ex) f) as (Hst1 & Hex1 & Hdef1 & Huses1).
  set (f1 := foldl (λ g out, setDefinition out None g) f (outputs ex)) in *.
  destruct (remove_uses_spec d (inputs ex) f1) as (Hst2 & Hex2 & Hdef2 & Huses2).
  set (f2 := foldl (λ g inp, removeUse inp d g) f1 (inputs ex)) in *.
  unfold IrContainer_removeExpr in Hrest.
  apply NVF_CHECK_bind_Ok in Hrest as [_ [= <-]].
  split_and!.
  - simpl. by rewrite Hex2, Hex1.
  - eapply static_eq_trans; [|apply static_eq_with_exprs].
    by eapply static_eq_trans.
  - intros k. transitivity (definition_field f2 k); [done|].
    by rewrite Hdef2, Hdef1.
  - intros k e' Hne. transitivity (e' ∈ uses_field f2 k); [done|].
    by rewrite Huses2, Huses1.
Qed.

Lemma removeExpr_succeeds (d : nat) (f : Fusion) :
  is_Some (exprs_ f !! d) → is_Ok (removeExpr d f) = true.
Proof.
  intros Hin. unfold removeExpr, assertInContainer_expr, inContainer_expr.
  rewrite bool_decide_eq_true_2 by done. simpl.
  unfold IrContainer_removeExpr, inContainer_expr.
  rewrite bool_decide_eq_true_2; [done|].
  destruct (remove_uses_spec d (expr_inputs f d)
              (foldl (λ g out, setDefinition out None g) f (expr_outputs f d)))
    as (_ & -> & _).
  destruct (clear_definitions_spec (expr_outputs f d) f) as (_ & -> & _).
  done.
Qed.

(** ** C2: removing a value *)

Lemma elem_of_exprs_using (f : Fusion) (v e : nat) :
  e ∈ exprs_using f v ↔ ∃ ex, exprs_ f !! e = Some ex ∧ v ∈ inputs ex.
Proof.
  unfold exprs_using. rewrite list_elem_of_fmap. split.
  - intros ([e' ex] & -> & Hin). apply list_elem_of_filter in Hin as [Hv Hin].
    apply elem_of_map_to_list in Hin. by exists ex.
  - intros (ex & Hex & Hv). exists (e, ex). split; [done|].
    apply list_elem_of_filter. split; [done|]. by apply elem_of_map_to_list.
Qed.

Lemma forM_removeExpr_exprs (l : list nat) (t t' : Fusion) :
  forM removeExpr l t = Ok t' →
  ∀ e, exprs_ t' !! e = if decide (e ∈ l) then None else exprs_ t !! e.
Proof.
  revert t. induction l as [|d l IH]; intros t.
  { intros [= <-] e. by rewrite decide_False by apply not_elem_of_nil. }
  rewrite forM_cons. intros (t1 & Hd & Hrest)%bind_Ok e.
  apply removeExpr_Ok in Hd as (ex & _ & Hex & _).
  rewrite (IH _ Hrest), Hex, lookup_delete.
  destruct (decide (e ∈ l)).
  - rewrite decide_True; [done|by right].
  - destruct (decide (d = e)) as [->|Hne].
    + rewrite decide_True; [done|by left].
    + rewrite decide_False; [done|]. intros [?|?]%elem_of_cons; by subst.
Qed.

(** What [removeVal v] does: it refuses a fusion input or output; when it
    succeeds the definition of [v] and every registered expression with [v]
    among its inputs are gone, so that no remaining expression has [v] as
    an input, nor as an output when the definition of [v] was the only
    registered expression with [v] among its outputs. *)
Definition removeVal_post (f : Fusion) (v : nat) : Prop :=
  (isFusionInput f v = true → is_Ok (removeVal v f) = false) ∧
  (isFusionOutput f v = true → is_Ok (removeVal v f) = false) ∧
  ∀ f', removeVal v f = Ok f' →
    (∀ d, definition f v = Some d → exprs_ f' !! d = None) ∧
    (∀ e ex, exprs_ f !! e = Some ex → v ∈ inputs ex → exprs_ f' !! e = None) ∧
    (∀ e ex, exprs_ f' !! e = Some ex → v ∉ inputs ex) ∧
    ((∀ e ex, exprs_ f !! e = Some ex → v ∈ outputs ex → definition f v = Some e) →
     ∀ e ex, exprs_ f' !! e = Some ex → v ∉ outputs ex) ∧
    vals_ f' !! v = None.

(** C2 (as amended).  [removeVal v] fails when [v] is a fusion input or a
    fusion output; when it succeeds it has removed the definition of [v]
    and every registered expression with [v] among its inputs, so that no
    remaining expression has [v] as an input, and none has it as an output
    provided the definition of [v] was the only registered expression with
    [v] among its outputs. *)
Theorem removeVal_detaches (f : Fusion) (v : nat) : removeVal_post f v.
Proof.
  unfold removeVal_post. split_and!.
  - intros Hin. unfold removeVal, assertInContainer_val.
    destruct (inContainer_val f v); simpl; [|done]. by rewrite Hin.
  - intros Hout. unfold removeVal, assertInContainer_val.
    destruct (inContainer_val f v); simpl; [|done].
    destruct (isFusionInput f v); simpl; [done|]. by rewrite Hout.
  - intros f'. unfold removeVal.
    intros (_ & (_ & (_ & Hrun)%NVF_CHECK_bind_Ok)%NVF_CHECK_bind_Ok)%NVF_CHECK_bind_Ok.
    apply bind_Ok in Hrun as (f1 & Hf1 & Hrun).
    apply bind_Ok in Hrun as (f2 & Hf2 & Hrun).
    pose proof (forM_removeExpr_exprs _ _ _ Hf2) as Hex2.
    unfold IrContainer_removeVal in Hrun.
    apply NVF_CHECK_bind_Ok in Hrun as [_ [= <-]]. simpl.
    assert (Hex1 : ∀ e, exprs_ f1 !! e
                        = if decide (definition f v = Some e) then None
                          else exprs_ f !! e).
    { intros e. destruct (definition f v) as [d|].
      - apply removeExpr_Ok in Hf1 as (ex & _ & -> & _). rewrite lookup_delete.
        destruct (decide (d = e)) as [->|].
        + by rewrite decide_True.
        + rewrite decide_False; [done|congruence].
      - injection Hf1 as <-. by rewrite decide_False. }
    split_and!.
    + intros d Hd. rewrite Hex2, Hex1, Hd.
      rewrite (decide_True (P := Some d = Some d)) by done.
      by destruct (decide (d ∈ exprs_using f1 v)).
    + intros e ex Hex Hv. rewrite Hex2.
      destruct (decide (e ∈ exprs_using f1 v)) as [|Hnin]; [done|].
      rewrite Hex1. destruct (decide (definition f v = Some e)); [done|].
      exfalso. apply Hnin, elem_of_exprs_using. exists ex.
      rewrite Hex1. by rewrite decide_False.
    + intros e ex. rewrite Hex2.
      destruct (decide (e ∈ exprs_using f1 v)) as [|Hnin]; [done|].
      intros Hex Hv. apply Hnin, elem_of_exprs_using. by exists ex.
    + intros Hwf e ex. rewrite Hex2.
      destruct (decide (e ∈ exprs_using f1 v)); [done|].
      rewrite Hex1. destruct (decide (definition f v = Some e)) as [|Hne]; [done|].
      intros Hex Hv. apply Hne. by apply (Hwf e ex).
    + apply lookup_delete_eq.
Qed.

(** A kernel container in which two expressions write the tensor [1]: the
    second registration leaves the definition of [1] to the first. *)
Definition two_writers : Fusion :=
  match registerExpr 10 (mkExpr [0] [1] None)
          (fusion_of true [(0, a_scalar); (1, a_tensor)])
        ≫= registerExpr 11 (mkExpr [0] [1] None) with
  | Ok f => f
  | Err _ => fusion_of true []
  end.

(** C2 as it is written: after a successful [removeVal v] no registered
    expression has [v] among its inputs or its outputs. *)
Definition removeVal_leaves_no_reference (f : Fusion) (v : nat) : Prop :=
  ∀ f', removeVal v f = Ok f' →
    ∀ e ex, exprs_ f' !! e = Some ex → (v ∉ inputs ex) ∧ (v ∉ outputs ex).

Lemma removeVal_second_writer_remains :
  definition two_writers 1 = Some 10 ∧
  ¬ removeVal_leaves_no_reference two_writers 1.
Proof.
  split; [by vm_compute|].
  intros H. destruct (removeVal 1 two_writers) as [f'|] eqn:Hrun.
  - destruct (H f' Hrun 11 (mkExpr [0] [1] None)) as [_ Hout].
    + vm_compute in Hrun. injection Hrun as <-. by vm_compute.
    + apply Hout. simpl. left.
  - vm_compute in Hrun. discriminate.
Qed.

(** ** C1: registering an expression *)

Lemma definition_static (t t' : Fusion) (k : nat) :
  static_eq t t' → definition_field t' k = definition_field t k →
  definition t' k = definition t k.
Proof.
  intros Hst Hdef. rewrite !definition_eq, Hdef.
  by rewrite (static_eq_isFusionInput t t').
Qed.

Lemma registerExpr_input_Ok (e i : nat) (t t' : Fusion) :
  registerExpr_input e i t = Ok t' →
  inContainer_val t i = true ∧ static_eq t t' ∧ exprs_ t' = exprs_ t ∧
  (∀ k, definition_field t' k = definition_field t k) ∧
  (∀ k, e ∈ uses_field t k → e ∈ uses_field t' k) ∧
  (isTensorView t i = false → e ∈ uses_field t' i) ∧
  (isTensorView t i = true → all_tv_uses_valid_ t' = false).
Proof.
  unfold registerExpr_input, assertInContainer_val.
  intros [Hin [= <-]]%NVF_CHECK_bind_Ok. split; [done|].
  destruct (isTensorView t i).
  - split_and!; try done. apply static_eq_invalidate.
  - split_and!; try done.
    + apply addUse_static.
    + intros k. apply addUse_definition_field.
    + intros k Hk. apply addUse_uses. by left.
    + intros _. apply addUse_uses. by right.
Qed.

Lemma registerExpr_inputs_Ok (e : nat) (l : list nat) (t t' : Fusion) :
  forM (registerExpr_input e) l t = Ok t' →
  static_eq t t' ∧ exprs_ t' = exprs_ t ∧
  (∀ k, definition_field t' k = definition_field t k) ∧
  (∀ k, e ∈ uses_field t k → e ∈ uses_field t' k) ∧
  (∀ i, i ∈ l → isTensorView t i = false → e ∈ uses_field t' i) ∧
  (∀ i, i ∈ l → isTensorView t i = true → all_tv_uses_valid_ t' = false).
Proof.
  revert t. induction l as [|i l IH]; intros t.
  { intros [= <-]. split_and!; try done; [apply static_eq_refl|..];
      intros i Hi; by apply elem_of_nil in Hi. }
  rewrite forM_cons. intros (t1 & Hi & Hrest)%bind_Ok.
  apply registerExpr_input_Ok in Hi as (_ & Hst & Hex & Hdef & Hkeep & Hadd & Hinv).
  destruct (IH _ Hrest) as (Hst' & Hex' & Hdef' & Hkeep' & Hadd' & Hinv').
  destruct Hst' as (? & ? & ? & ? & Hvalid & ?).
  split_and!.
  - eapply static_eq_trans; [done|]. repeat split; done.
  - congruence.
  - intros k. by rewrite Hdef', Hdef.
  - auto.
  - intros j [->|Hj]%elem_of_cons Htv; [auto|].
    apply Hadd'; [done|]. by rewrite (static_eq_isTensorView t t1).
  - intros j [->|Hj]%elem_of_cons Htv; [auto|].
    apply (Hinv' j); [done|]. by rewrite (static_eq_isTensorView t t1).
Qed.

(** One iteration of the loop over the outputs, in a kernel container: an
    existing definition is left alone. *)
Lemma registerExpr_output_kernel (e o : nat) (t t' : Fusion) :
  registerExpr_output false e o t = Ok t' →
  inContainer_val t o = true ∧ static_eq t t' ∧ exprs_ t' = exprs_ t ∧
  (∀ k, uses_field t' k = uses_field t k) ∧
  (∀ k, definition_field t' k
        = if decide (k = o)
          then (if definition t o is Some _ then definition_field t o else Some e)
          else definition_field t k).
Proof.
  unfold registerExpr_output, assertInContainer_val.
  intros [Hin Hrun]%NVF_CHECK_bind_Ok. split; [done|].
  assert (Hf1 : (match definition t o with Some _ => Ok t | None => Ok t end) = Ok t)
    by (by destruct (definition t o)).
  rewrite Hf1 in Hrun. simpl in Hrun.
  destruct (definition t o) as [d|] eqn:Hd; simpl in Hrun.
  - injection Hrun as <-. split_and!; [apply static_eq_refl|done|done|].
    intros k. by destruct (decide (k = o)) as [->|].
  - set (t2 := setDefinition o (Some e) t) in *.
    assert (Ht' : static_eq t2 t' ∧ vals_ t' = vals_ t2 ∧ exprs_ t' = exprs_ t2).
    { destruct (isTensorView t2 o); injection Hrun as <-;
        split_and!; try done; [apply static_eq_invalidate|apply static_eq_refl]. }
    destruct Ht' as (Hst & Hv & Hex). split_and!.
    + eapply static_eq_trans; [apply setDefinition_static|done].
    + done.
    + intros k. unfold uses_field. rewrite Hv. apply setDefinition_uses.
    + intros k. unfold definition_field. rewrite Hv.
      fold (definition_field t2 k). unfold t2. rewrite setDefinition_field, Hin.
      done.
Qed.

Lemma registerExpr_outputs_kernel (e : nat) (l : list nat) (t t' : Fusion) :
  forM (registerExpr_output false e) l t = Ok t' →
  static_eq t t' ∧ exprs_ t' = exprs_ t ∧
  (∀ k, uses_field t' k = uses_field t k) ∧
  (∀ k, definition_field t' k
        = if decide (k ∈ l)
          then (if definition t k is Some _ then definition_field t k else Some e)
          else definition_field t k).
Proof.
  revert t. induction l as [|o l IH]; intros t.
  { intros [= <-]. split_and!; try apply static_eq_refl; try done.
    all: intros k; by rewrite decide_False by apply not_elem_of_nil. }
  rewrite forM_cons. intros (t1 & Ho & Hrest)%bind_Ok.
  apply registerExpr_output_kernel in Ho as (_ & Hst & Hex & Huses & Hdef).
  destruct (IH _ Hrest) as (Hst' & Hex' & Huses' & Hdef').
  split_and!.
  - by eapply static_eq_trans.
  - congruence.
  - intros k. by rewrite Huses', Huses.
  - intros k. rewrite Hdef'. rewrite !(definition_eq t1), !Hdef.
    rewrite !(static_eq_isFusionInput t t1) by done.
    rewrite !(definition_eq t).
    destruct (decide (k = o)) as [->|Hne].
    + rewrite (decide_True (P := o ∈ o :: l)) by left.
      destruct (decide (o ∈ l)); [|done].
      destruct (isFusionInput t o); [done|].
      by destruct (definition_field t o).
    + destruct (decide (k ∈ l)).
      * rewrite decide_True; [done|by right].
      * rewrite decide_False; [done|]. by intros [?|?]%elem_of_cons.
Qed.

(** One iteration of the loop over the outputs, in single-assignment mode:
    the expression that defined the output is removed, then the output is
    given its new definition. *)
Lemma registerExpr_output_ssa (e o : nat) (t t' : Fusion) :
  registerExpr_output true e o t = Ok t' →
  inContainer_val t o = true ∧ static_eq t t' ∧
  (exprs_ t' = match definition t o with
               | Some d => delete d (exprs_ t)
               | None => exprs_ t
               end) ∧
  (∀ d, definition t o = Some d → is_Some (exprs_ t !! d)) ∧
  (∀ k e', definition t o ≠ Some e' →
           e' ∈ uses_field t' k ↔ e' ∈ uses_field t k) ∧
  (∀ k, definition_field t' k
        = if decide (k = o) then Some e
          else match definition t o with
               | Some d => if decide (k ∈ expr_outputs t d) then None
                           else definition_field t k
               | None => definition_field t k
               end).
Proof.
  unfold registerExpr_output, assertInContainer_val.
  intros [Hin Hrun]%NVF_CHECK_bind_Ok. split; [done|].
  apply bind_Ok in Hrun as (t1 & Ht1 & Hrun). simpl in Hrun.
  set (t2 := setDefinition o (Some e) t1) in *.
  assert (Ht' : static_eq t2 t' ∧ vals_ t' = vals_ t2 ∧ exprs_ t' = exprs_ t2).
  { destruct (isTensorView t2 o); injection Hrun as <-;
      split_and!; try done; [apply static_eq_invalidate|apply static_eq_refl]. }
  destruct Ht' as (Hst2 & Hv & Hex2).
  assert (Hfield : ∀ k, definition_field t' k
                        = if decide (k = o)
                          then (if inContainer_val t1 o then Some e else None)
                          else definition_field t1 k).
  { intros k. unfold definition_field at 1. rewrite Hv.
    fold (definition_field t2 k). apply setDefinition_field. }
  assert (Huses : ∀ k, uses_field t' k = uses_field t1 k).
  { intros k. unfold uses_field at 1. rewrite Hv. apply setDefinition_uses. }
  destruct (definition t o) as [d|] eqn:Hd.
  - apply removeExpr_Ok in Ht1 as (ex & Hex & Hdel & Hst1 & Hdef1 & Huses1).
    split_and!.
    + eapply static_eq_trans; [done|].
      eapply static_eq_trans; [apply setDefinition_static|done].
    + by rewrite Hex2.
    + intros d' [= <-]. eauto.
    + intros k e' Hne. rewrite Huses. apply Huses1. congruence.
    + intros k. rewrite Hfield, (static_eq_inContainer_val t t1), Hin by done.
      destruct (decide (k = o)); [done|].
      unfold expr_outputs. rewrite Hex. simpl. apply Hdef1.
  - injection Ht1 as <-. split_and!.
    + eapply static_eq_trans; [apply setDefinition_static|done].
    + by rewrite Hex2.
    + done.
    + intros k e' _. by rewrite Huses.
    + intros k. by rewrite Hfield, Hin.
Qed.

(** The new expression stays registered through the loop over its outputs
    when the outputs are distinct and none of them is defined by it yet. *)
Lemma registerExpr_outputs_ssa_keeps (e : nat) (ex : Expr) (l : list nat)
    (t t' : Fusion) :
  NoDup l →
  exprs_ t !! e = Some ex →
  (∀ o, o ∈ l → definition t o ≠ Some e) →
  forM (registerExpr_output true e) l t = Ok t' →
  exprs_ t' !! e = Some ex ∧ static_eq t t' ∧
  (∀ k, e ∈ uses_field t k → e ∈ uses_field t' k) ∧
  (∀ d, exprs_ t !! d = None → exprs_ t' !! d = None).
Proof.
  revert t. induction l as [|o l IH]; intros t Hnd He Hfresh.
  { intros [= <-]. split_and!; try done. apply static_eq_refl. }
  rewrite forM_cons. intros (t1 & Ho & Hrest)%bind_Ok.
  apply NoDup_cons in Hnd as [Hol Hnd].
  apply registerExpr_output_ssa in Ho as (_ & Hst & Hex & _ & Huses & Hdef).
  assert (Hoe : definition t o ≠ Some e) by (apply Hfresh; left).
  assert (He1 : exprs_ t1 !! e = Some ex).
  { rewrite Hex. destruct (definition t o) as [d|]; [|done].
    rewrite lookup_delete_ne; [done|congruence]. }
  destruct (IH t1) as (He' & Hst' & Huses' & Hgone'); try done.
  { intros o' Ho'. rewrite definition_eq, Hdef.
    rewrite (static_eq_isFusionInput t t1) by done.
    assert (o' ≠ o) by (intros ->; done). rewrite decide_False by done.
    assert (Ht : definition t o' ≠ Some e) by (apply Hfresh; by right).
    rewrite definition_eq in Ht.
    destruct (isFusionInput t o'); [done|].
    destruct (definition t o) as [d|]; [|done].
    by destruct (decide (o' ∈ expr_outputs t d)). }
  split_and!; try done.
  - by eapply static_eq_trans.
  - intros k Hk. apply Huses', Huses; done.
  - intros d Hd. apply Hgone'. rewrite Hex.
    destruct (definition t o) as [d0|]; [|done].
    rewrite lookup_delete. by case_decide.
Qed.

(** Every output of a registered expression other than [e] has that
    expression as its definition. *)
Definition consistent_except (e : nat) (t : Fusion) : Prop :=
  ∀ d ex_d o, d ≠ e → exprs_ t !! d = Some ex_d → o ∈ outputs ex_d →
              definition t o = Some d.

Lemma registerExpr_outputs_ssa_defines (e : nat) (ex : Expr) (l : list nat)
    (t t' : Fusion) :
  NoDup l →
  exprs_ t !! e = Some ex →
  (∀ o, o ∈ l → definition t o ≠ Some e) →
  consistent_except e t →
  forM (registerExpr_output true e) l t = Ok t' →
  (∀ o, o ∈ l → definition_field t' o = Some e ∧
                ∀ d, definition t o = Some d → exprs_ t' !! d = None) ∧
  (∀ k, k ∉ l → definition_field t k = Some e → definition_field t' k = Some e).
Proof.
  revert t. induction l as [|o l IH]; intros t Hnd He Hfresh Hcons.
  { intros [= <-]. split; [|done]. intros o Ho. by apply elem_of_nil in Ho. }
  rewrite forM_cons. intros (t1 & Ho & Hrest)%bind_Ok.
  pose proof (registerExpr_outputs_ssa_keeps e ex (o :: l) t t' Hnd He Hfresh)
    as Hkeep.
  rewrite forM_cons, Ho in Hkeep. specialize (Hkeep Hrest).
  apply NoDup_cons in Hnd as [Hol Hnd].
  apply registerExpr_output_ssa in Ho as (_ & Hst & Hex & Hreg & _ & Hdef).
  assert (Hoe : definition t o ≠ Some e) by (apply Hfresh; left).
  assert (He1 : exprs_ t1 !! e = Some ex).
  { rewrite Hex. destruct (definition t o) as [d|]; [|done].
    rewrite lookup_delete_ne; [done|congruence]. }
  (* the definitions of the other values: unchanged or cleared *)
  assert (Hother : ∀ k, k ≠ o →
            definition t1 k = definition t k ∨
            (definition t1 k = None ∧ ∃ d, definition t o = Some d ∧
               k ∈ expr_outputs t d)).
  { intros k Hk. rewrite (definition_eq t1 k), (definition_eq t k), Hdef.
    rewrite (static_eq_isFusionInput t t1) by done.
    rewrite decide_False by done.
    destruct (isFusionInput t k); simpl; [by left|].
    destruct (definition t o) as [d|]; [|by left].
    destruct (decide (k ∈ expr_outputs t d)); [right|by left].
    split; [done|]. by exists d. }
  assert (Hfresh1 : ∀ o', o' ∈ l → definition t1 o' ≠ Some e).
  { intros o' Ho'. assert (Hoo : o' ≠ o) by (intros ->; done).
    destruct (Hother o' Hoo) as [->|[-> _]]; [|done]. apply Hfresh. by right. }
  assert (Hcons1 : consistent_except e t1).
  { intros d ex_d k Hde Hd Hk.
    assert (Hd0 : exprs_ t !! d = Some ex_d ∧ definition t o ≠ Some d).
    { rewrite Hex in Hd. destruct (definition t o) as [d0|]; [|done].
      apply lookup_delete_Some in Hd as [? ?]. split; [done|congruence]. }
    destruct Hd0 as [Hd0 Hne].
    pose proof (Hcons d ex_d k Hde Hd0 Hk) as Hk0.
    assert (Hko : k ≠ o).
    { intros ->. rewrite Hk0 in Hne. done. }
    destruct (Hother k Hko) as [->|(_ & d0 & Hd0' & Hk')]; [done|].
    exfalso. destruct (Hreg d0 Hd0') as [ex0 Hex0].
    unfold expr_outputs in Hk'. rewrite Hex0 in Hk'. simpl in Hk'.
    assert (d0 ≠ e) by congruence.
    rewrite (Hcons d0 ex0 k) in Hk0 by done. congruence. }
  destruct (IH t1 Hnd He1 Hfresh1 Hcons1 Hrest) as [Hdone Hpres].
  destruct (registerExpr_outputs_ssa_keeps e ex l t1 t' Hnd He1 Hfresh1 Hrest)
    as (_ & _ & _ & Hgone1).
  assert (Ho1 : definition_field t1 o = Some e) by (by rewrite Hdef, decide_True).
  assert (Hremoved : ∀ d, definition t o = Some d → exprs_ t' !! d = None).
  { intros d Hd. apply Hgone1. rewrite Hex, Hd. apply lookup_delete_eq. }
  split.
  - intros o' [->|Ho']%elem_of_cons.
    + split; [by apply Hpres|done].
    + destruct (Hdone o' Ho') as [Hset Hold]. split; [done|].
      intros d Hd. assert (Hoo : o' ≠ o) by (intros ->; done).
      destruct (Hother o' Hoo) as [Heq|(_ & d0 & Hd0 & Hk)].
      * apply Hold. by rewrite Heq.
      * destruct (Hreg d0 Hd0) as [ex0 Hex0].
        unfold expr_outputs in Hk. rewrite Hex0 in Hk. simpl in Hk.
        assert (d0 ≠ e) by congruence.
        rewrite (Hcons d0 ex0 o') in Hd by done.
        injection Hd as <-. by apply Hremoved.
  - intros k Hk Hke. apply not_elem_of_cons in Hk as [Hko Hkl].
    apply Hpres; [done|]. rewrite Hdef, decide_False by done.
    destruct (definition t o) as [d|] eqn:Hd; [|done].
    destruct (decide (k ∈ expr_outputs t d)) as [Hin|]; [|done].
    exfalso. destruct (Hreg d eq_refl) as [ex0 Hex0].
    unfold expr_outputs in Hin. rewrite Hex0 in Hin. simpl in Hin.
    assert (Hde : d ≠ e) by congruence.
    pose proof (Hcons d ex0 k Hde Hex0 Hin) as Hkd.
    rewrite definition_eq, Hke in Hkd.
    destruct (isFusionInput t k); congruence.
Qed.

Lemma static_eq_operands (f f' : Fusion) (l : list nat) :
  static_eq f f' →
  Forall (λ v, is_Some (vals_ f !! v)) l →
  Forall (λ v, is_Some (vals_ f' !! v)) l.
Proof.
  intros Hst Hl. eapply Forall_impl; [done|].
  intros v Hv. by apply (static_eq_is_Some f f').
Qed.

(** The loop over the inputs adds the expression to the use lists of the
    inputs that are not tensor views, and to no other use list. *)
Lemma registerExpr_inputs_uses (e : nat) (l : list nat) (t t' : Fusion) :
  forM (registerExpr_input e) l t = Ok t' →
  ∀ k, e ∈ uses_field t' k →
       e ∈ uses_field t k ∨ (k ∈ l ∧ isTensorView t k = false).
Proof.
  revert t. induction l as [|i l IH]; intros t.
  { intros [= <-] k Hk. by left. }
  rewrite forM_cons. intros (t1 & Hi & Hrest)%bind_Ok k Hk.
  pose proof (registerExpr_input_Ok _ _ _ _ Hi) as (_ & Hst & _).
  destruct (IH _ Hrest k Hk) as [Hk1|[Hkl Htv]].
  - unfold registerExpr_input, assertInContainer_val in Hi.
    apply NVF_CHECK_bind_Ok in Hi as [_ [= <-]].
    destruct (isTensorView t i) eqn:Hti; [by left|].
    apply addUse_uses in Hk1 as [?|(_ & -> & _)]; [by left|].
    right. split; [left|done].
  - right. split; [by right|]. by rewrite <- (static_eq_isTensorView t t1).
Qed.

Lemma registerExpr_inputs_succeed (e : nat) (l : list nat) (t : Fusion) :
  Forall (λ v, is_Some (vals_ t !! v)) l →
  ∃ t', forM (registerExpr_input e) l t = Ok t'.
Proof.
  revert t. induction l as [|i l IH]; intros t Hl; [by eexists|].
  apply Forall_cons in Hl as [Hi Hl]. rewrite forM_cons.
  destruct (registerExpr_input e i t) as [t1|msg] eqn:H1.
  - simpl. apply IH.
    apply registerExpr_input_Ok in H1 as (_ & Hst & _).
    by apply (static_eq_operands t t1).
  - exfalso. unfold registerExpr_input, assertInContainer_val, inContainer_val in H1.
    by rewrite bool_decide_eq_true_2 in H1.
Qed.

(** In a kernel container the loop over the outputs fails on a value that
    is not in the container only. *)
Lemma registerExpr_outputs_kernel_succeed (e : nat) (l : list nat) (t : Fusion) :
  Forall (λ v, is_Some (vals_ t !! v)) l →
  ∃ t', forM (registerExpr_output false e) l t = Ok t'.
Proof.
  revert t. induction l as [|o l IH]; intros t Hl; [by eexists|].
  apply Forall_cons in Hl as [Ho Hl]. rewrite forM_cons.
  destruct (registerExpr_output false e o t) as [t1|msg] eqn:H1.
  - simpl. apply IH.
    apply registerExpr_output_kernel in H1 as (_ & Hst & _).
    by apply (static_eq_operands t t1).
  - exfalso. unfold registerExpr_output, assertInContainer_val, inContainer_val in H1.
    rewrite bool_decide_eq_true_2 in H1 by done. simpl in H1.
    destruct (definition t o) eqn:Hd; simpl in H1; rewrite Hd in H1;
      simpl in H1; [done|].
    by destruct (isTensorView _ o).
Qed.

(** The definition of the value, when it has one, is a registered
    expression that lists the value among its outputs. *)
Definition defined_by_output (f : Fusion) (o : nat) : Prop :=
  match definition f o with
  | Some d => o ∈ expr_outputs f d
  | None => True
  end.

#[global] Instance defined_by_output_dec f o : Decision (defined_by_output f o).
Proof. unfold defined_by_output. destruct (definition f o); apply _. Defined.

Lemma defined_by_output_registered (f : Fusion) (o d : nat) :
  defined_by_output f o → definition f o = Some d →
  is_Some (exprs_ f !! d) ∧ o ∈ expr_outputs f d.
Proof.
  unfold defined_by_output. intros Ho Hd. rewrite Hd in Ho. split; [|done].
  unfold expr_outputs in Ho. destruct (exprs_ f !! d); [done|].
  by apply elem_of_nil in Ho.
Qed.

(** One iteration of the loop over the outputs, in single-assignment mode,
    fails on a value that is not in the container and on a definition that
    is not registered only. *)
Lemma registerExpr_output_ssa_succeeds (e o : nat) (t : Fusion) :
  is_Some (vals_ t !! o) → defined_by_output t o →
  ∃ t', registerExpr_output true e o t = Ok t'.
Proof.
  intros Hin Hdef. unfold registerExpr_output, assertInContainer_val, inContainer_val.
  rewrite bool_decide_eq_true_2 by done. simpl.
  destruct (definition t o) as [d|] eqn:Hd; simpl.
  - destruct (defined_by_output_registered t o d Hdef Hd) as [Hreg _].
    apply removeExpr_succeeds in Hreg.
    destruct (removeExpr d t) as [t1|]; [|done]. simpl.
    destruct (isTensorView _ o); by eexists.
  - destruct (isTensorView _ o); by eexists.
Qed.

(** The loop over the outputs in single-assignment mode: it succeeds when
    the outputs are distinct values of the container whose definitions are
    registered, and it leaves the new expression in every use list it was
    in and out of every other. *)
Lemma registerExpr_outputs_ssa_run (e : nat) (ex : Expr) (l : list nat)
    (t : Fusion) :
  NoDup l →
  exprs_ t !! e = Some ex →
  Forall (λ o, is_Some (vals_ t !! o)) l →
  Forall (λ o, definition t o ≠ Some e ∧ defined_by_output t o) l →
  ∃ t', forM (registerExpr_output true e) l t = Ok t' ∧
        ∀ k, e ∈ uses_field t' k ↔ e ∈ uses_field t k.
Proof.
  revert t. induction l as [|o l IH]; intros t Hnd He Hin Hdef.
  { by eexists. }
  apply NoDup_cons in Hnd as [Hol Hnd].
  apply Forall_cons in Hin as [Ho Hin].
  apply Forall_cons in Hdef as [[Hoe Hod] Hdef].
  rewrite forM_cons.
  destruct (registerExpr_output_ssa_succeeds e o t Ho Hod) as [t1 H1].
  rewrite H1. simpl.
  apply registerExpr_output_ssa in H1 as (_ & Hst & Hex & Hreg & Huses & Hfield).
  destruct (IH t1) as (t' & Hrun & Huses'); [done| | | |].
  - rewrite Hex. destruct (definition t o) as [d|]; [|done].
    rewrite lookup_delete_ne; [done|congruence].
  - by apply (static_eq_operands t t1).
  - rewrite Forall_forall in Hdef. apply Forall_forall. intros o' Ho'.
    destruct (Hdef o' Ho') as [Hne Hby].
    assert (Hoo : o' ≠ o) by (intros ->; done).
    assert (Hd1 : definition t1 o' = definition t o' ∨
                  (definition t1 o' = None)).
    { rewrite (definition_eq t1), (definition_eq t), Hfield.
      rewrite (static_eq_isFusionInput t t1) by done.
      rewrite decide_False by done.
      destruct (isFusionInput t o'); [by left|].
      destruct (definition t o) as [d|]; [|by left].
      destruct (decide (o' ∈ expr_outputs t d)); [by right|by left]. }
    unfold defined_by_output.
    destruct Hd1 as [Hsame|Hnone]; [|by rewrite Hnone].
    destruct (definition t1 o') as [d'|] eqn:Hd'; [|done].
    split; [congruence|].
    symmetry in Hsame.
    destruct (defined_by_output_registered t o' d' Hby Hsame) as [_ Hout].
    unfold expr_outputs. rewrite Hex.
    destruct (definition t o) as [d|] eqn:Hd; [|done].
    rewrite lookup_delete_ne; [done|]. intros <-.
    (* [o'] is an output of [d]: its definition was cleared *)
    rewrite (definition_eq t1), Hfield in Hd'.
    rewrite decide_False in Hd' by done.
    destruct (isFusionInput t1 o'); [done|].
    by rewrite decide_True in Hd'.
  - exists t'. split; [done|]. intros k. rewrite Huses'. by apply Huses.
Qed.

(** What makes a registration succeed: the expression claims no other
    container, its inputs and outputs are values of the container and, in
    single-assignment mode, its outputs are distinct and the definition of
    each of them is registered. *)
Lemma registerExpr_succeeds (f : Fusion) (e : nat) (ex : Expr) :
  exprs_ f !! e = None →
  fusion ex = None ∨ fusion ex = Some (self f) →
  Forall (λ v, is_Some (vals_ f !! v)) (inputs ex ++ outputs ex) →
  (isKernel f = false →
     NoDup (outputs ex) ∧ Forall (defined_by_output f) (outputs ex)) →
  ∃ f', registerExpr e ex f = Ok f'.
Proof.
  intros Hnew Hfusion [Hins Houts]%Forall_app Hssa.
  unfold registerExpr, inContainer_expr.
  rewrite bool_decide_eq_false_2 by (rewrite Hnew; by intros [? ?]).
  assert (Hchk : match fusion ex with
                 | Some c => bool_decide (c = self f)
                 | None => true
                 end = true).
  { destruct Hfusion as [->| ->]; [done|]. simpl. by rewrite bool_decide_eq_true_2. }
  rewrite Hchk. simpl.
  set (f0 := IrContainer_registerExpr e ex f).
  assert (Hst0 : static_eq f f0) by apply static_eq_with_exprs.
  destruct (registerExpr_inputs_succeed e (inputs ex) f0) as [f1 Hin].
  { by apply (static_eq_operands f f0). }
  rewrite Hin. simpl.
  apply registerExpr_inputs_Ok in Hin as (Hst1 & Hex1 & Hdef1 & _).
  assert (Hst : static_eq f f1)
    by (eapply static_eq_trans; [exact Hst0|exact Hst1]).
  assert (Houts1 : Forall (λ v, is_Some (vals_ f1 !! v)) (outputs ex))
    by (by apply (static_eq_operands f f1)).
  destruct (isKernel f) eqn:Hk; simpl.
  { by apply registerExpr_outputs_kernel_succeed. }
  destruct (Hssa eq_refl) as (Hnd & Hby).
  assert (Hdef : ∀ k, definition f1 k = definition f k).
  { intros k. apply definition_static; [done|]. by rewrite Hdef1. }
  destruct (registerExpr_outputs_ssa_run e ex (outputs ex) f1)
    as (f' & Hout & _); [done| |done| |by exists f'].
  { rewrite Hex1. apply lookup_insert_eq. }
  rewrite Forall_forall in Hby. apply Forall_forall. intros o Ho.
  specialize (Hby o Ho).
  assert (Hoe : definition f o ≠ Some e).
  { intros Hd.
    destruct (defined_by_output_registered f o e Hby Hd) as [[? Hreg] _].
    congruence. }
  split; [by rewrite Hdef|].
  unfold defined_by_output in *. rewrite Hdef.
  destruct (definition f o) as [d|] eqn:Hd; [|done].
  unfold expr_outputs in *. rewrite Hex1. simpl.
  rewrite lookup_insert_ne; [done|]. by intros <-.
Qed.

(** Single assignment: every output of a registered expression has that
    expression as its definition. *)
Definition ssa_consistent (f : Fusion) : Prop :=
  map_Forall (λ d ex_d, Forall (λ o, definition f o = Some d) (outputs ex_d))
             (exprs_ f).

(** What a successful registration of the new expression [ex], with
    identity [e], leaves in the container [f']. *)
Definition registerExpr_post (f : Fusion) (e : nat) (ex : Expr) (f' : Fusion)
    : Prop :=
  exprs_ f' !! e = Some ex ∧
  (∀ i, i ∈ inputs ex → isTensorView f i = false → e ∈ uses_field f' i) ∧
  (∀ i, i ∈ inputs ex → isTensorView f i = true →
        all_tv_uses_valid_ f' = false ∧
        (e ∈ uses_field f' i ↔ e ∈ uses_field f i)) ∧
  (∀ o, o ∈ outputs ex →
     if isKernel f
     then definition_field f' o
          = (if definition f o is Some _ then definition_field f o else Some e)
          ∧ ∀ d, d ≠ e → exprs_ f' !! d = exprs_ f !! d
     else definition_field f' o = Some e
          ∧ ∀ d, definition f o = Some d → exprs_ f' !! d = None).

(** C1 (as amended).  Registering a new expression [e] that claims no
    other container, with inputs and outputs in the container, succeeds.
    It adds [e] to the use list of each input that is not a tensor view; for
    an input that is one it invalidates the use-list cache and leaves [e]
    out of the use list.  In a kernel container an output without
    definition gets [e] as its definition and an existing definition is
    kept, with its expression; in single-assignment mode (distinct outputs,
    consistent definitions) the expression that defined an output is
    removed and the definition of every output is [e]. *)
Theorem registerExpr_spec (f : Fusion) (e : nat) (ex : Expr) :
  exprs_ f !! e = None →
  fusion ex = None ∨ fusion ex = Some (self f) →
  Forall (λ v, is_Some (vals_ f !! v)) (inputs ex ++ outputs ex) →
  (isKernel f = false →
     NoDup (outputs ex) ∧ ssa_consistent f ∧
     Forall (defined_by_output f) (outputs ex)) →
  ∃ f', registerExpr e ex f = Ok f' ∧ registerExpr_post f e ex f'.
Proof.
  intros Hnew Hfusion [Hins Houts]%Forall_app Hssa.
  unfold registerExpr, inContainer_expr.
  rewrite bool_decide_eq_false_2 by (rewrite Hnew; by intros [? ?]).
  assert (Hchk : match fusion ex with
                 | Some c => bool_decide (c = self f)
                 | None => true
                 end = true).
  { destruct Hfusion as [->| ->]; [done|]. simpl. by rewrite bool_decide_eq_true_2. }
  rewrite Hchk. simpl.
  set (f0 := IrContainer_registerExpr e ex f).
  assert (Hst0 : static_eq f f0) by apply static_eq_with_exprs.
  destruct (registerExpr_inputs_succeed e (inputs ex) f0) as [f1 Hin].
  { by apply (static_eq_operands f f0). }
  rewrite Hin. simpl.
  pose proof (registerExpr_inputs_uses _ _ _ _ Hin) as Hback.
  apply registerExpr_inputs_Ok in Hin as (Hst1 & Hex1 & Hdef1 & Hfwd & Hadd & Hinv).
  assert (Hst : static_eq f f1) by (eapply static_eq_trans; [exact Hst0|exact Hst1]).
  assert (Hdef : ∀ k, definition f1 k = definition f k).
  { intros k. apply definition_static; [done|]. by rewrite Hdef1. }
  assert (He1 : exprs_ f1 !! e = Some ex).
  { rewrite Hex1. apply lookup_insert_eq. }
  assert (Htv : ∀ i, isTensorView f0 i = isTensorView f i) by done.
  assert (Huses1 : ∀ i, isTensorView f i = true →
                        e ∈ uses_field f1 i ↔ e ∈ uses_field f i).
  { intros i Hi. split.
    - intros [?|[_ Hi']]%Hback; [done|]. rewrite Htv in Hi'. congruence.
    - apply Hfwd. }
  assert (Houts1 : Forall (λ v, is_Some (vals_ f1 !! v)) (outputs ex))
    by (by apply (static_eq_operands f f1)).
  unfold registerExpr_post.
  destruct (isKernel f) eqn:Hk; simpl.
  - destruct (registerExpr_outputs_kernel_succeed e (outputs ex) f1 Houts1)
      as [f' Hout].
    exists f'. split; [done|].
    apply registerExpr_outputs_kernel in Hout as (Hst2 & Hex2 & Huses2 & Hdef2).
    split_and!.
    + by rewrite Hex2.
    + intros i Hi Hi'. rewrite Huses2. apply Hadd; [done|]. by rewrite Htv.
    + intros i Hi Hi'. split.
      * destruct Hst2 as (_ & _ & _ & _ & Hvalid & _).
        apply Hvalid, (Hinv i); [done|]. by rewrite Htv.
      * rewrite Huses2. by apply Huses1.
    + intros o Ho. split.
      * rewrite Hdef2, decide_True by done. rewrite Hdef.
        unfold definition_field at 2. rewrite Hdef1. done.
      * intros d Hd. rewrite Hex2, Hex1. simpl.
        by rewrite lookup_insert_ne.
  - destruct (Hssa eq_refl) as (Hnd & Hcons & Hby).
    assert (Hfresh : ∀ o, o ∈ outputs ex → definition f o ≠ Some e).
    { intros o Ho Hd. rewrite Forall_forall in Hby.
      destruct (defined_by_output_registered f o e (Hby o Ho) Hd) as [[? Hreg] _].
      congruence. }
    assert (Hfresh1 : ∀ o, o ∈ outputs ex → definition f1 o ≠ Some e).
    { intros o Ho. rewrite Hdef. by apply Hfresh. }
    assert (Hby1 : Forall (λ o, definition f1 o ≠ Some e ∧ defined_by_output f1 o)
                     (outputs ex)).
    { rewrite Forall_forall in Hby. apply Forall_forall. intros o Ho.
      split; [by apply Hfresh1|]. specialize (Hby o Ho).
      unfold defined_by_output in *. rewrite Hdef.
      destruct (definition f o) as [d|] eqn:Hd; [|done].
      unfold expr_outputs in *. rewrite Hex1. simpl.
      rewrite lookup_insert_ne; [done|]. intros <-. by apply (Hfresh o). }
    destruct (registerExpr_outputs_ssa_run e ex _ f1 Hnd He1 Houts1 Hby1)
      as (f' & Hout & Huses2).
    exists f'. split; [done|].
    assert (Hcons1 : consistent_except e f1).
    { intros d ex_d o Hde Hd Ho. rewrite Hdef.
      rewrite Hex1 in Hd. simpl in Hd. rewrite lookup_insert_ne in Hd by done.
      specialize (Hcons d ex_d Hd). simpl in Hcons.
      rewrite Forall_forall in Hcons. by apply Hcons. }
    destruct (registerExpr_outputs_ssa_keeps e ex _ f1 f' Hnd He1 Hfresh1 Hout)
      as (He' & Hst2 & _ & _).
    destruct (registerExpr_outputs_ssa_defines e ex _ f1 f' Hnd He1 Hfresh1
                Hcons1 Hout) as [Hdone _].
    split_and!.
    + done.
    + intros i Hi Hi'. apply Huses2, Hadd; [done|]. by rewrite Htv.
    + intros i Hi Hi'. split.
      * destruct Hst2 as (_ & _ & _ & _ & Hvalid & _).
        apply Hvalid, (Hinv i); [done|]. by rewrite Htv.
      * rewrite Huses2. by apply Huses1.
    + intros o Ho. destruct (Hdone o Ho) as [H1 H2]. split; [done|].
      intros d Hd. apply H2. by rewrite Hdef.
Qed.

(** A fusion in single-assignment mode where [10] defines the tensor [2]
    from the tensor [0] and the scalar [1]. *)
Definition defined_once : Fusion :=
  match registerExpr 10 (mkExpr [0; 1] [2] None)
          (fusion_of false [(0, a_tensor); (1, a_scalar); (2, a_tensor)]) with
  | Ok f => f
  | Err _ => fusion_of false []
  end.

Definition defined_again : Fusion :=
  match registerExpr 11 (mkExpr [1; 0] [2] None) defined_once with
  | Ok f => f
  | Err _ => fusion_of false []
  end.

(** The same container as [defined_once], as a kernel. *)
Definition kernel_defined_once : Fusion :=
  match registerExpr 10 (mkExpr [0; 1] [2] None)
          (fusion_of true [(0, a_tensor); (1, a_scalar); (2, a_tensor)]) with
  | Ok f => f
  | Err _ => fusion_of true []
  end.

Lemma registerExpr_spec_witness :
  (∃ f', registerExpr 11 (mkExpr [1; 0] [2] None) defined_once = Ok f' ∧
         registerExpr_post defined_once 11 (mkExpr [1; 0] [2] None) f') ∧
  (∃ f', registerExpr 11 (mkExpr [1; 0] [2] None) kernel_defined_once = Ok f' ∧
         registerExpr_post kernel_defined_once 11 (mkExpr [1; 0] [2] None) f').
Proof.
  split.
  - apply registerExpr_spec.
    + reflexivity.
    + by left.
    + compute_done.
    + intros _. split_and!; compute_done.
  - apply registerExpr_spec.
    + reflexivity.
    + by left.
    + compute_done.
    + intros Hk. by vm_compute in Hk.
Defined.

(** C1 as it is written, whatever the mode: after a successful
    registration the expression is in the use list of each input that is
    not a tensor view and is the definition of each of its outputs. *)
Definition registers_as_claimed (f : Fusion) (e : nat) (ex : Expr) : Prop :=
  ∀ f', registerExpr e ex f = Ok f' →
    (∀ i, i ∈ inputs ex → isTensorView f i = false → e ∈ uses_field f' i) ∧
    (∀ o, o ∈ outputs ex → definition_field f' o = Some e).

(** Three values without definition, in single-assignment mode, and what
    registering an expression that lists its output twice makes of them. *)
Definition undefined_vals : Fusion :=
  fusion_of false [(0, a_tensor); (1, a_scalar); (2, a_tensor)].

Definition output_listed_twice : Fusion :=
  match registerExpr 12 (mkExpr [1] [2; 2] None) undefined_vals with
  | Ok f => f
  | Err _ => fusion_of false []
  end.

(** In single-assignment mode, [10] defines the tensors [1] and [2] from
    the scalar [0], and [1] is then declared an input: its definition reads
    as null from then on. *)
Definition defined_input : Fusion :=
  match registerExpr 10 (mkExpr [0] [1; 2] None)
          (fusion_of false [(0, a_scalar); (1, a_tensor); (2, a_tensor)])
        ≫= addInput 1 with
  | Ok f => f
  | Err _ => fusion_of false []
  end.

(** C1 as it is written fails in four ways.  In a kernel container the
    definition [10] of the output stays, with its expression.  In
    single-assignment mode the registration does not fail on the defined
    output: it removes [10] and sets the definition.  An expression that
    lists its output twice removes itself at the second occurrence: it ends
    in no use list and out of the container, and the definition it leaves
    behind makes the next registration on that output fail.  And where [10]
    lists an output whose definition reads as null, removing [10] for its
    other output clears the definition that was just set. *)
Lemma registerExpr_kernel_keeps_definition :
  (¬ registers_as_claimed kernel_defined_once 11 (mkExpr [1; 0] [2] None) ∧
   ∃ f', registerExpr 11 (mkExpr [1; 0] [2] None) kernel_defined_once = Ok f' ∧
         definition_field f' 2 = Some 10 ∧ is_Some (exprs_ f' !! 10)) ∧
  (registerExpr 11 (mkExpr [1; 0] [2] None) defined_once = Ok defined_again ∧
   definition_field defined_once 2 = Some 10 ∧
   definition_field defined_again 2 = Some 11 ∧
   exprs_ defined_again !! 10 = None) ∧
  (¬ registers_as_claimed undefined_vals 12 (mkExpr [1] [2; 2] None) ∧
   registerExpr 12 (mkExpr [1] [2; 2] None) undefined_vals
   = Ok output_listed_twice ∧
   uses_field output_listed_twice 1 = [] ∧
   exprs_ output_listed_twice !! 12 = None ∧
   registerExpr 13 (mkExpr [1] [2] None) output_listed_twice
   = Err "Cannot remove expr ") ∧
  (¬ registers_as_claimed defined_input 11 (mkExpr [0] [1; 2] None) ∧
   ∃ f', registerExpr 11 (mkExpr [0] [1; 2] None) defined_input = Ok f' ∧
         definition_field f' 1 = None).
Proof.
  split_and!; try (vm_compute; reflexivity).
  - intros H.
    destruct (registerExpr 11 (mkExpr [1; 0] [2] None) kernel_defined_once)
      as [f'|] eqn:Hrun; [|by vm_compute in Hrun].
    destruct (H f' Hrun) as [_ Hdef]. specialize (Hdef 2).
    vm_compute in Hrun. injection Hrun as <-.
    assert (Hd : 2 ∈ [2]) by left. apply Hdef in Hd. by vm_compute in Hd.
  - eexists. split_and!; [vm_compute; reflexivity|vm_compute; reflexivity|].
    vm_compute. eauto.
  - intros H.
    destruct (H output_listed_twice) as [Huse _]; [vm_compute; reflexivity|].
    assert (Hu : 12 ∈ uses_field output_listed_twice 1).
    { apply Huse; [left|reflexivity]. }
    vm_compute in Hu. by apply elem_of_nil in Hu.
  - intros H.
    destruct (registerExpr 11 (mkExpr [0] [1; 2] None) defined_input)
      as [f'|] eqn:Hrun; [|by vm_compute in Hrun].
    destruct (H f' Hrun) as [_ Hdef]. specialize (Hdef 1).
    vm_compute in Hrun. injection Hrun as <-.
    assert (Hd : 1 ∈ [1; 2]) by left. apply Hdef in Hd. by vm_compute in Hd.
  - eexists. split; vm_compute; reflexivity.
Qed.


(** ** C8: single-value substitution *)

Lemma referenced_exprs_registered (f : Fusion) (e : nat) :
  is_Some (exprs_ f !! e) → e ∈ referenced_exprs f.
Proof.
  intros He. apply elem_of_union_l. by apply elem_of_dom.
Qed.

Lemma referenced_exprs_definition (f : Fusion) (v d : nat) :
  definition f v = Some d → d ∈ referenced_exprs f.
Proof.
  unfold definition. destruct (vals_ f !! v) as [x|] eqn:Hx; [|done].
  intros Hd. apply elem_of_union_r, elem_of_list_to_set, list_elem_of_omap.
  exists (v, x). split; [by apply elem_of_map_to_list|].
  simpl. by destruct (is_fusion_input_ x).
Qed.

(** A new expression with distinct outputs stays registered. *)
Lemma registerExpr_keeps (f : Fusion) (e : nat) (ex : Expr) (f' : Fusion) :
  e ∉ referenced_exprs f →
  (isKernel f = false → NoDup (outputs ex)) →
  registerExpr e ex f = Ok f' →
  exprs_ f' !! e = Some ex.
Proof.
  intros Hnew Hnd. unfold registerExpr, inContainer_expr.
  assert (Hne : exprs_ f !! e = None).
  { destruct (exprs_ f !! e) eqn:He; [|done].
    exfalso. apply Hnew, referenced_exprs_registered. eauto. }
  rewrite bool_decide_eq_false_2 by (rewrite Hne; by intros [? ?]).
  intros [_ Hrun]%NVF_CHECK_bind_Ok.
  apply bind_Ok in Hrun as (f1 & Hin & Hout).
  set (f0 := IrContainer_registerExpr e ex f) in *.
  assert (Hst0 : static_eq f f0) by apply static_eq_with_exprs.
  apply registerExpr_inputs_Ok in Hin as (Hst1 & Hex1 & Hdef1 & _).
  assert (He1 : exprs_ f1 !! e = Some ex).
  { rewrite Hex1. apply lookup_insert_eq. }
  destruct (isKernel f) eqn:Hk; simpl in Hout.
  - apply registerExpr_outputs_kernel in Hout as (_ & Hex2 & _). by rewrite Hex2.
  - eapply registerExpr_outputs_ssa_keeps; [by apply Hnd|done| |done].
    intros o _ Hd. apply Hnew, (referenced_exprs_definition f o).
    rewrite <- Hd. symmetry. apply definition_static.
    + by eapply static_eq_trans.
    + by rewrite Hdef1.
Qed.

Lemma maybeMutated_singleton (r s : nat) (e_ : option nat) (l : list nat) :
  maybeMutated (mkMutator {[ r := s ]} e_) <$> l = replace_val r s l.
Proof.
  unfold replace_val. apply list_fmap_ext. intros _ v _.
  unfold maybeMutated; simpl. rewrite lookup_singleton.
  destruct (decide (v = r)) as [->|].
  - by rewrite decide_True.
  - rewrite decide_False; [done|congruence].
Qed.

(** What the substitution of [s] for [r] in the expression [e] returns. *)
Definition subsitute_post (f : Fusion) (e r s : nat) (ex : Expr) : Prop :=
  (r ∉ inputs ex → subsitute (Some e) (Some r) (Some s) f = Ok (f, e)) ∧
  (r ∈ inputs ex →
   Forall (λ v, is_Some (vals_ f !! v)) (s :: inputs ex ++ outputs ex) →
   (isKernel f = false →
      NoDup (outputs ex) ∧ Forall (defined_by_output f) (outputs ex)) →
   ∃ f' e', subsitute (Some e) (Some r) (Some s) f = Ok (f', e') ∧
     e' ≠ e ∧ exprs_ f !! e' = None ∧
     exprs_ f' !! e'
     = Some (mkExpr (replace_val r s (inputs ex)) (outputs ex)
               (Some (self f)))).

(** C8.  When the reference is not an operand the substitution returns the
    expression it was given and leaves the container as it is.  When it is
    one, and the substitute and the operands of the expression are values
    of the container (with, in single-assignment mode, distinct outputs
    whose definitions are registered), the substitution returns a new
    expression whose operands are those of the old one with the reference
    replaced by the substitute. *)
Theorem subsitute_spec (f : Fusion) (e r s : nat) (ex : Expr) :
  exprs_ f !! e = Some ex →
  subsitute_post f e r s ex.
Proof.
  intros He.
  assert (Hmatch : Exists (λ v, is_Some (({[ r := s ]} : gmap nat nat) !! v))
                     (inputs ex) ↔ r ∈ inputs ex).
  { rewrite Exists_exists. split.
    - intros (v & Hv & [y Hy]). apply lookup_singleton_Some in Hy as [-> _]. done.
    - intros Hr. exists r. split; [done|]. rewrite lookup_singleton_eq. eauto. }
  split.
  - intros Hr. unfold subsitute, OptOutMutator_mutate. rewrite He. simpl.
    rewrite bool_decide_eq_false_2; [done|]. by rewrite Hmatch.
  - intros Hr [Hs [Hins Houts]%Forall_app]%Forall_cons Hssa.
    unfold subsitute, OptOutMutator_mutate. rewrite He. simpl.
    rewrite bool_decide_eq_true_2 by (by rewrite Hmatch). simpl.
    set (n := fresh (referenced_exprs f)).
    assert (Hn : n ∉ referenced_exprs f) by apply is_fresh.
    assert (Hne : exprs_ f !! n = None).
    { destruct (exprs_ f !! n) eqn:Hex; [|done].
      exfalso. apply Hn, referenced_exprs_registered. eauto. }
    rewrite maybeMutated_singleton.
    set (ex' := mkExpr (replace_val r s (inputs ex)) (outputs ex) (Some (self f))).
    destruct (registerExpr_succeeds f n ex') as [f' Hreg]; [done|by right| |done|].
    { apply Forall_app. split; [|done]. unfold ex', replace_val. simpl.
      apply Forall_fmap. eapply Forall_impl; [exact Hins|].
      intros v Hv. simpl. by destruct (decide (v = r)). }
    rewrite Hreg. simpl. exists f', n. split_and!; [done| |done|].
    + intros ->. congruence.
    + eapply registerExpr_keeps; [done| |done]. intros Hk.
      by destruct (Hssa Hk).
Qed.

Definition substituted : Result (Fusion * nat) :=
  subsitute (Some 10) (Some 1) (Some 3)
    (with_vals (<[3 := a_scalar]>) defined_once).

Lemma subsitute_spec_witness :
  subsitute (Some 10) (Some 2) (Some 1) defined_once = Ok (defined_once, 10) ∧
  ∃ f' e', substituted = Ok (f', e') ∧ e' ≠ 10 ∧
    exprs_ (with_vals (<[3 := a_scalar]>) defined_once) !! e' = None ∧
    exprs_ f' !! e'
    = Some (mkExpr (replace_val 1 3 [0; 1]) [2]
              (Some (self (with_vals (<[3 := a_scalar]>) defined_once)))).
Proof.
  split.
  - apply (subsitute_spec defined_once 10 2 1 (mkExpr [0; 1] [2] None));
      [reflexivity|compute_done].
  - apply (subsitute_spec (with_vals (<[3 := a_scalar]>) defined_once) 10 1 3
             (mkExpr [0; 1] [2] None)).
    + reflexivity.
    + compute_done.
    + compute_done.
    + intros _. split; compute_done.
Defined.

Example subsitute_operand :
  (λ p, (p.2, exprs_ p.1 !! p.2, exprs_ p.1 !! 10))
    <$> (match substituted with Ok p => Some p | Err _ => None end)
  = Some (11, Some (mkExpr [0; 3] [2] (Some 0)), None).
Proof. vm_compute. reflexivity. Qed.

Example subsitute_non_operand :
  subsitute (Some 10) (Some 2) (Some 1) defined_once = Ok (defined_once, 10).
Proof. vm_compute. reflexivity. Qed.

(** ** C10: the traversals terminate *)

Lemma checkCycle_push_inr (path : gset Statement) (l q q' : list Statement) :
  checkCycle_push path l q = inr q' →
  q' = rev l ++ q ∧ ∀ s, s ∈ l → s ∉ path.
Proof.
  revert q. induction l as [|s l IH]; intros q; simpl.
  - intros [= <-]. split; [done|]. intros s Hs. by apply elem_of_nil in Hs.
  - destruct (decide (s ∈ path)); [done|].
    intros [-> Hl]%IH. split.
    + by rewrite <- app_assoc.
    + intros s' [->|Hs']%elem_of_cons; auto.
Qed.

Lemma checkCycle_push_inl (path : gset Statement) (l q ret : list Statement) :
  checkCycle_push path l q = inl ret →
  ret = elements path ∧ ∃ s, s ∈ l ∧ s ∈ path.
Proof.
  revert q. induction l as [|s l IH]; intros q; simpl; [done|].
  destruct (decide (s ∈ path)).
  - intros [= <-]. split; [done|]. exists s. split; [left|done].
  - intros (-> & s' & Hs' & Hp)%IH. split; [done|]. exists s'. split; [by right|done].
Qed.

Lemma checkCycle_weight_cons (f : Fusion) (done : gset Statement)
    (s : Statement) (l : list Statement) :
  checkCycle_weight f done (s :: l)
  = (if decide (s ∈ done) then 0 else S (length (next f s)))
    + checkCycle_weight f done l.
Proof. reflexivity. Qed.

Lemma checkCycle_weight_mono (f : Fusion) (done done' : gset Statement)
    (l : list Statement) :
  done ⊆ done' → checkCycle_weight f done' l ≤ checkCycle_weight f done l.
Proof.
  intros Hsub. induction l as [|s l IH]; [done|].
  rewrite !checkCycle_weight_cons.
  destruct (decide (s ∈ done)) as [Hs|Hs].
  - rewrite decide_True by set_solver. lia.
  - destruct (decide (s ∈ done')); lia.
Qed.

Lemma checkCycle_weight_step (f : Fusion) (done : gset Statement)
    (l : list Statement) (s : Statement) :
  s ∈ l → s ∉ done →
  checkCycle_weight f ({[s]} ∪ done) l + S (length (next f s))
  ≤ checkCycle_weight f done l.
Proof.
  intros Hin Hs.
  induction l as [|s' l IH]; [by apply elem_of_nil in Hin|].
  rewrite !checkCycle_weight_cons.
  apply elem_of_cons in Hin as [<-|Hin].
  - rewrite decide_True by set_solver. rewrite decide_False by done.
    pose proof (checkCycle_weight_mono f done ({[s]} ∪ done) l) as Hm.
    specialize (Hm ltac:(set_solver)). lia.
  - specialize (IH Hin).
    destruct (decide (s' ∈ done)) as [Hd|Hd].
    + rewrite decide_True by set_solver. lia.
    + destruct (decide (s' ∈ {[s]} ∪ done)); lia.
Qed.

Lemma next_all_stmts (f : Fusion) (s : Statement) :
  next f s ≠ [] → s ∈ all_stmts f.
Proof.
  unfold all_stmts. destruct s as [v|e]; simpl; intros Hne.
  - apply elem_of_app. left. apply list_elem_of_fmap. exists v. split; [done|].
    unfold definition in Hne. destruct (vals_ f !! v) as [x|] eqn:Hx; [|done].
    apply list_elem_of_fmap. exists (v, x). split; [done|].
    by apply elem_of_map_to_list.
  - apply elem_of_app. right. apply list_elem_of_fmap. exists e. split; [done|].
    unfold expr_inputs in Hne. destruct (exprs_ f !! e) as [x|] eqn:Hx; [|done].
    apply list_elem_of_fmap. exists (e, x). split; [done|].
    by apply elem_of_map_to_list.
Qed.

(** The loop of [checkCycle] returns once the fuel exceeds what is left to
    do. *)
Lemma checkCycle_loop_total (f : Fusion) (from : gset Statement) (fuel : nat)
    (queue : list Statement) (path visited : gset Statement) :
  checkCycle_weight f (path ∪ visited) (all_stmts f) + length queue < fuel →
  is_Some (checkCycle_loop fuel f from queue path visited).
Proof.
  revert queue path visited.
  induction fuel as [|fuel IH]; intros queue path visited Hfuel; [lia|].
  simpl. destruct queue as [|val rest]; [by eexists|]. simpl in Hfuel.
  unfold checkCycle_step.
  destruct (decide (val ∈ from ∨ val ∈ visited)) as [Hskip|Hnew].
  { apply IH. lia. }
  destruct (decide (next f val = [])) as [Hnext|Hnext].
  { apply IH.
    pose proof (checkCycle_weight_mono f (path ∪ visited)
                  (path ∪ ({[val]} ∪ visited)) (all_stmts f)) as Hm.
    specialize (Hm ltac:(set_solver)). lia. }
  destruct (decide (val ∈ path)) as [Hpath|Hpath].
  { apply IH.
    pose proof (checkCycle_weight_mono f (path ∪ visited)
                  (path ∖ {[val]} ∪ ({[val]} ∪ visited)) (all_stmts f)) as Hm.
    assert (Hsub : path ∪ visited ⊆ path ∖ {[val]} ∪ ({[val]} ∪ visited)).
    { intros x Hx. destruct (decide (x = val)); set_solver. }
    specialize (Hm Hsub). lia. }
  destruct (checkCycle_push ({[val]} ∪ path) (next f val) (val :: rest))
    as [ret|queue'] eqn:Hpush; [by eexists|].
  apply checkCycle_push_inr in Hpush as [-> _].
  apply IH.
  pose proof (checkCycle_weight_step f (path ∪ visited) (all_stmts f) val) as Hs.
  assert (Hval : val ∈ all_stmts f) by (by apply next_all_stmts).
  assert (Hfresh : val ∉ path ∪ visited) by set_solver.
  specialize (Hs Hval Hfresh).
  replace ({[val]} ∪ path ∪ visited) with ({[val]} ∪ (path ∪ visited))
    by set_solver.
  rewrite length_app, length_rev. simpl in *. lia.
Qed.

Lemma checkCycle_total (f : Fusion) (from : gset Statement) (to : list nat) :
  is_Some (checkCycle f from to).
Proof.
  unfold checkCycle, checkCycle_fuel. apply checkCycle_loop_total.
  rewrite length_fmap.
  replace (∅ ∪ ∅ : gset Statement) with (∅ : gset Statement) by set_solver.
  lia.
Qed.

Lemma isRecursivelyDefined_inputs_inr (val : nat) (visited : gset nat)
    (inps q q' : list nat) :
  isRecursivelyDefined_inputs val visited inps q = inr q' →
  q' = q ++ filter (λ i, i ∉ visited) inps.
Proof.
  revert q. induction inps as [|i inps IH]; intros q; simpl.
  - intros [= <-]. by rewrite app_nil_r.
  - destruct (decide (i = val)); [done|].
    destruct (decide (i ∈ visited)) as [Hi|Hi].
    + rewrite filter_cons_False by (intros ?; done). apply IH.
    + rewrite filter_cons_True by done. intros ->%IH. by rewrite <- app_assoc.
Qed.

(** The values the check can ever put in its queue. *)
Definition reachable_vals (f : Fusion) (val : nat) : gset nat :=
  {[val]} ∪ list_to_set (mjoin ((λ p, inputs p.2) <$> map_to_list (exprs_ f))).

Lemma expr_inputs_reachable (f : Fusion) (val d i : nat) :
  i ∈ expr_inputs f d → i ∈ reachable_vals f val.
Proof.
  unfold expr_inputs. destruct (exprs_ f !! d) as [ex|] eqn:Hd; simpl.
  - intros Hi. unfold reachable_vals.
    apply elem_of_union_r, elem_of_list_to_set, list_elem_of_join.
    exists (inputs ex). split; [done|]. apply list_elem_of_fmap.
    exists (d, ex). split; [done|]. by apply elem_of_map_to_list.
  - intros Hi. by apply elem_of_nil in Hi.
Qed.

(** The loop returns [b] for every fuel from [fuel0] on. *)
Definition isRecursivelyDefined_returns (f : Fusion) (val : nat)
    (q : list nat) (visited : gset nat) : Prop :=
  ∃ fuel0 b, ∀ fuel, fuel0 ≤ fuel →
    isRecursivelyDefined_loop fuel f val q visited = Some b.

Lemma isRecursivelyDefined_returns_nil (f : Fusion) (val : nat)
    (visited : gset nat) :
  isRecursivelyDefined_returns f val [] visited.
Proof. exists 1, false. intros [|fuel] Hf; [lia|done]. Qed.

Lemma isRecursivelyDefined_returns_cons (f : Fusion) (val v : nat)
    (rest : list nat) (visited : gset nat) :
  (∀ q, isRecursivelyDefined_step f val v rest visited = inr q →
        isRecursivelyDefined_returns f val q ({[v]} ∪ visited)) →
  isRecursivelyDefined_returns f val (v :: rest) visited.
Proof.
  intros Hq. destruct (isRecursivelyDefined_step f val v rest visited)
    as [[]|q] eqn:Hstep.
  - exists 1, true. intros [|fuel] Hf; [lia|]. simpl. by rewrite Hstep.
  - destruct (Hq q eq_refl) as (fuel0 & b & Hb). exists (S fuel0), b.
    intros [|fuel] Hf; [lia|]. simpl. rewrite Hstep. apply Hb. lia.
Qed.

Lemma isRecursivelyDefined_step_inr (f : Fusion) (val v : nat)
    (rest q : list nat) (visited : gset nat) :
  isRecursivelyDefined_step f val v rest visited = inr q →
  ∃ pushed, q = rest ++ pushed ∧
            (∀ i, i ∈ pushed → (i ∉ {[v]} ∪ visited) ∧ i ∈ reachable_vals f val).
Proof.
  unfold isRecursivelyDefined_step. destruct (definition f v) as [d|].
  - intros ->%isRecursivelyDefined_inputs_inr. eexists. split; [done|].
    intros i [Hi Hin]%list_elem_of_filter. split; [done|].
    by eapply expr_inputs_reachable.
  - intros [= <-]. exists []. split; [by rewrite app_nil_r|].
    intros i Hi. by apply elem_of_nil in Hi.
Qed.

(** A queue splits into visited values and a rest that is empty or starts
    with a value not visited yet. *)
Lemma visited_prefix (visited : gset nat) (q : list nat) :
  ∃ pre post, q = pre ++ post ∧ (∀ x, x ∈ pre → x ∈ visited) ∧
              (post = [] ∨ ∃ h t, post = h :: t ∧ h ∉ visited).
Proof.
  induction q as [|x q (pre & post & -> & Hpre & Hpost)].
  - exists [], []. split_and!; [done| |by left]. intros x Hx.
    by apply elem_of_nil in Hx.
  - destruct (decide (x ∈ visited)) as [Hx|Hx].
    + exists (x :: pre), post. split_and!; [done| |done].
      intros y [->|Hy]%elem_of_cons; auto.
    + exists [], (x :: pre ++ post). split_and!; [done| |right; eauto].
      intros y Hy. by apply elem_of_nil in Hy.
Qed.

Lemma isRecursivelyDefined_loop_total (f : Fusion) (val : nat) (n : nat) :
  ∀ (visited : gset nat) (q : list nat),
    size (reachable_vals f val ∖ visited) = n →
    (∀ x, x ∈ q → x ∈ reachable_vals f val) →
    isRecursivelyDefined_returns f val q visited.
Proof.
  induction (lt_wf n) as [n _ IHn]. intros visited q Hsize Hq.
  destruct (visited_prefix visited q) as (pre & post & -> & Hpre & Hpost).
  revert post Hpost Hq. induction pre as [|p pre IHpre]; intros post Hpost Hq.
  - destruct Hpost as [->|(h & t & -> & Hh)];
      [apply isRecursivelyDefined_returns_nil|].
    simpl. apply isRecursivelyDefined_returns_cons. intros q' Hstep.
    apply isRecursivelyDefined_step_inr in Hstep as (pushed & -> & Hpushed).
    assert (HhU : h ∈ reachable_vals f val) by (apply Hq; left).
    eapply (IHn (size (reachable_vals f val ∖ ({[h]} ∪ visited)))); [|done|].
    + rewrite <- Hsize. apply subset_size. set_solver.
    + intros x [Hx|Hx]%elem_of_app; [apply Hq; by right|by apply Hpushed].
  - simpl. apply isRecursivelyDefined_returns_cons. intros q' Hstep.
    apply isRecursivelyDefined_step_inr in Hstep as (pushed & -> & Hpushed).
    assert (Hp : p ∈ visited) by (apply Hpre; left).
    replace ({[p]} ∪ visited) with visited in * by set_solver.
    rewrite <- app_assoc. apply IHpre.
    + intros x Hx. apply Hpre. by right.
    + destruct Hpost as [->|(h & t & -> & Hh)].
      * destruct pushed as [|i pushed]; [by left|]. right. exists i, pushed.
        split; [done|]. apply Hpushed. left.
      * right. exists h, (t ++ pushed). done.
    + intros x Hx. rewrite app_assoc in Hx.
      apply elem_of_app in Hx as [Hx|Hx]; [apply Hq; by right|by apply Hpushed].
Qed.

Lemma isRecursivelyDefined_total (f : Fusion) (val : nat) :
  ∃ fuel0 b, ∀ fuel, fuel0 ≤ fuel → isRecursivelyDefined fuel f val = Some b.
Proof.
  apply (isRecursivelyDefined_loop_total f val _ ∅ [val] eq_refl).
  intros x ->%list_elem_of_singleton. unfold reachable_vals. set_solver.
Qed.

(** Nothing already visited is put in the queue of [isRecursivelyDefined]. *)
Lemma isRecursivelyDefined_pushes_unvisited (f : Fusion) (val v : nat)
    (rest q : list nat) (visited : gset nat) :
  isRecursivelyDefined_step f val v rest visited = inr q →
  ∃ pushed, q = rest ++ pushed ∧ ∀ i, i ∈ pushed → i ∉ {[v]} ∪ visited.
Proof.
  intros (pushed & -> & Hp)%isRecursivelyDefined_step_inr.
  exists pushed. split; [done|]. intros i Hi. by apply Hp.
Qed.

Lemma checkCycle_push_cycle (path : gset Statement) (l q : list Statement) :
  (∃ s, s ∈ l ∧ s ∈ path) → checkCycle_push path l q = inl (elements path).
Proof.
  intros (s & Hs & Hp).
  destruct (checkCycle_push path l q) as [ret|q'] eqn:Hpush.
  - by apply checkCycle_push_inl in Hpush as [-> _].
  - apply checkCycle_push_inr in Hpush as [_ Hnone]. by destruct (Hnone s Hs).
Qed.

(** A graph with a cycle between the values [0] and [1], and two values
    beside it: [2] has no definition and [3] is defined from [2]. *)
Definition scalar_defined_by (d : option nat) : Val :=
  mkVal Others false false false d [] Local Iteration.

Definition cyclic_graph : Fusion :=
  mkFusion 0 false
    (list_to_map [(0, scalar_defined_by (Some 10)); (1, scalar_defined_by (Some 11));
                  (2, scalar_defined_by None); (3, scalar_defined_by (Some 12));
                  (4, scalar_defined_by (Some 13))])
    (list_to_map [(10, mkExpr [1] [0] None); (11, mkExpr [0; 2] [1] None);
                  (12, mkExpr [2; 2] [3] None); (13, mkExpr [0; 3] [4] None)])
    [] [] ∅ true.

(** C10.  On every container (a finite graph, with or without cycles)
    [checkCycle] returns with the fuel it is given and
    [isRecursivelyDefined] returns the same answer for every fuel from some
    point on.  [checkCycle] returns the path as soon as a dependency of the
    statement it puts on the path is on the path, and takes a boundary or
    visited statement off the queue without expanding it;
    [isRecursivelyDefined] only pushes values that are not visited. *)
Theorem traversals_terminate (f : Fusion) :
  (∀ from to, is_Some (checkCycle f from to)) ∧
  (∀ val, ∃ fuel0 b, ∀ fuel, fuel0 ≤ fuel →
            isRecursivelyDefined fuel f val = Some b) ∧
  (∀ from val rest path visited,
     ¬ (val ∈ from ∨ val ∈ visited) → val ∉ path →
     (∃ s, s ∈ next f val ∧ s ∈ {[val]} ∪ path) →
     checkCycle_step f from val rest path visited
     = CycleFound (elements ({[val]} ∪ path))) ∧
  (∀ from val rest path visited,
     val ∈ from ∨ val ∈ visited →
     checkCycle_step f from val rest path visited
     = CycleNext rest path visited) ∧
  (∀ val v rest q visited,
     isRecursivelyDefined_step f val v rest visited = inr q →
     ∃ pushed, q = rest ++ pushed ∧ ∀ i, i ∈ pushed → i ∉ {[v]} ∪ visited).
Proof.
  split_and!.
  - apply checkCycle_total.
  - apply isRecursivelyDefined_total.
  - intros from val rest path visited Hnew Hpath (s & Hs & Hp).
    unfold checkCycle_step. rewrite decide_False by done.
    rewrite decide_False by (intros Hnil; rewrite Hnil in Hs; by apply elem_of_nil in Hs).
    rewrite decide_False by done.
    rewrite checkCycle_push_cycle; [done|]. by exists s.
  - intros from val rest path visited Hskip. unfold checkCycle_step.
    by rewrite decide_True.
  - apply isRecursivelyDefined_pushes_unvisited.
Qed.

Example checkCycle_on_cycle :
  checkCycle cyclic_graph ∅ [4]
  = Some [StmtExpr 10; StmtExpr 13; StmtExpr 11; StmtVal 4; StmtVal 1; StmtVal 0].
Proof. vm_compute. reflexivity. Qed.

Example isRecursivelyDefined_beside_cycle :
  isRecursivelyDefined 10 cyclic_graph 4 = Some false ∧
  isRecursivelyDefined 10 cyclic_graph 0 = Some true.
Proof. split; vm_compute; reflexivity. Qed.

(** ** C5: what the cycle detector finds *)

(** [depends f x y]: the statement [y] is a dependency of [x]; a value whose
    definition takes it as an input, directly or through a chain, lies on a
    cycle of this relation.  [followed f from] are the dependencies the
    detector follows, those of statements outside the boundary. *)
Definition depends (f : Fusion) (x y : Statement) : Prop := y ∈ next f x.

Definition followed (f : Fusion) (from : gset Statement) (x y : Statement)
    : Prop :=
  (x ∉ from) ∧ y ∈ next f x.

(** The part of the queue in front of the first occurrence of [p]. *)
Fixpoint before (p : Statement) (q : list Statement) : list Statement :=
  match q with
  | [] => []
  | x :: q' => if decide (x = p) then [] else x :: before p q'
  end.

Lemma before_app (p : Statement) (l q : list Statement) :
  p ∉ l → before p (l ++ q) = l ++ before p q.
Proof.
  induction l as [|x l IH]; simpl; [done|].
  intros [Hx Hl]%not_elem_of_cons. rewrite decide_False by done.
  by rewrite IH.
Qed.

Lemma elem_of_rev (x : Statement) (l : list Statement) : x ∈ rev l ↔ x ∈ l.
Proof. rewrite !list_elem_of_In. symmetry. apply in_rev. Qed.

Section invariant.
Context (f : Fusion) (from : gset Statement).

(** The state of the loop: the statements on the path are in the queue
    and have dependencies; what lies in front of one of them in the queue
    depends on it, and each of its dependencies is visited, on the
    boundary or in front of it; the visited statements are closed under
    the followed dependencies and on no cycle. *)
Record cycle_inv (queue : list Statement) (path visited : gset Statement)
    : Prop := mkCycleInv {
  inv_queued : ∀ p, p ∈ path → p ∈ queue;
  inv_above : ∀ p x, p ∈ path → x ∈ before p queue → tc (depends f) p x;
  inv_fresh : ∀ p, p ∈ path → (p ∉ from) ∧ (p ∉ visited);
  inv_inner : ∀ p, p ∈ path → next f p ≠ [];
  inv_pending : ∀ p c, p ∈ path → c ∈ next f p →
                       c ∈ visited ∨ c ∈ from ∨ c ∈ before p queue;
  inv_closed : ∀ x c, x ∈ visited → c ∈ next f x → c ∈ visited ∨ c ∈ from;
  inv_acyclic : ∀ x, x ∈ visited → ¬ tc (followed f from) x x;
  inv_inside : ∀ x, x ∈ visited → x ∉ from;
}.

Lemma followed_closed (visited : gset Statement) (x y : Statement) :
  (∀ x c, x ∈ visited → c ∈ next f x → c ∈ visited ∨ c ∈ from) →
  rtc (followed f from) x y → x ∈ visited ∨ x ∈ from → y ∈ visited ∨ y ∈ from.
Proof.
  intros Hclosed Hrtc. induction Hrtc as [x|x y z [Hx Hy] _ IH]; [done|].
  intros [Hv|Hf]; [|done]. apply IH. by eapply Hclosed.
Qed.

Lemma tc_first_step {A} (R : relation A) (x z : A) :
  tc R x z → ∃ y, R x y ∧ rtc R y z.
Proof.
  intros [x' z' Hxz|x' y z' Hxy Hyz].
  - exists z'. split; [done|apply rtc_refl].
  - exists y. split; [done|by apply tc_rtc].
Qed.

Lemma cycle_inv_initial (to : list Statement) : cycle_inv to ∅ ∅.
Proof. split; try done; intros; set_solver. Qed.

(** What an iteration that goes on leaves. *)
Lemma cycle_inv_step (val : Statement) (rest : list Statement)
    (path visited : gset Statement) (queue' : list Statement)
    (path' visited' : gset Statement) :
  cycle_inv (val :: rest) path visited →
  checkCycle_step f from val rest path visited
  = CycleNext queue' path' visited' →
  cycle_inv queue' path' visited' ∧ visited ⊆ visited' ∧
  (∀ x, x ∈ val :: rest → x ∈ queue' ∨ x ∈ visited' ∨ x ∈ from).
Proof.
  intros [Hq Ha Hf Hi Hp Hc Hacyc Hin]. unfold checkCycle_step.
  assert (Hpop : ∀ p, p ∈ path → p ≠ val → p ∈ rest).
  { intros p Hpp Hne. specialize (Hq p Hpp).
    by apply elem_of_cons in Hq as [->|?]. }
  assert (Hbefore : ∀ p, p ≠ val →
            before p (val :: rest) = val :: before p rest).
  { intros p Hne. simpl. by rewrite decide_False. }
  destruct (decide (val ∈ from ∨ val ∈ visited)) as [Hskip|Hnew].
  { intros [= <- <- <-].
    assert (Hne : ∀ p, p ∈ path → p ≠ val).
    { intros p Hpp ->. destruct (Hf val Hpp). tauto. }
    split_and!; [split; try done| done|].
    - intros p Hpp. apply Hpop; auto.
    - intros p x Hpp Hx. apply Ha; [done|]. rewrite Hbefore by auto. by right.
    - intros p c Hpp Hcn. destruct (Hp p c Hpp Hcn) as [?|[?|Hb]]; auto.
      rewrite Hbefore in Hb by auto.
      apply elem_of_cons in Hb as [->|?]; auto. tauto.
    - intros x [->|?]%elem_of_cons; [tauto|auto]. }
  destruct (decide (next f val = [])) as [Hleaf|Hinner].
  { intros [= <- <- <-].
    assert (Hne : ∀ p, p ∈ path → p ≠ val).
    { intros p Hpp ->. by apply (Hi val Hpp). }
    split_and!; [split| set_solver|].
    - intros p Hpp. apply Hpop; auto.
    - intros p x Hpp Hx. apply Ha; [done|]. rewrite Hbefore by auto. by right.
    - intros p Hpp. destruct (Hf p Hpp). split; [done|].
      specialize (Hne p Hpp). set_solver.
    - done.
    - intros p c Hpp Hcn. destruct (Hp p c Hpp Hcn) as [?|[?|Hb]];
        [left; set_solver|auto|].
      rewrite Hbefore in Hb by auto.
      apply elem_of_cons in Hb as [->|?]; [left; set_solver|auto].
    - intros x c [->%elem_of_singleton|Hx]%elem_of_union Hcn.
      + rewrite Hleaf in Hcn. by apply elem_of_nil in Hcn.
      + destruct (Hc x c Hx Hcn); [left; set_solver|auto].
    - intros x [->%elem_of_singleton|Hx]%elem_of_union; [|auto].
      intros (y & [_ Hy] & _)%tc_first_step.
      rewrite Hleaf in Hy. by apply elem_of_nil in Hy.
    - intros x [->%elem_of_singleton|Hx]%elem_of_union; [tauto|auto].
    - intros x [->|?]%elem_of_cons; [right; left; set_solver|auto]. }
  destruct (decide (val ∈ path)) as [Hpath|Hpath].
  { intros [= <- <- <-].
    assert (Hval : ∀ c, c ∈ next f val → c ∈ visited ∨ c ∈ from).
    { intros c Hcn. destruct (Hp val c Hpath Hcn) as [?|[?|Hb]]; auto.
      simpl in Hb. rewrite decide_True in Hb by done.
      by apply elem_of_nil in Hb. }
    split_and!; [split| set_solver|].
    - intros p [Hpp Hne]%elem_of_difference. apply Hpop; [done|set_solver].
    - intros p x [Hpp Hne]%elem_of_difference Hx. apply Ha; [done|].
      rewrite Hbefore by set_solver. by right.
    - intros p [Hpp Hne]%elem_of_difference. destruct (Hf p Hpp).
      split; [done|]. set_solver.
    - intros p [Hpp Hne]%elem_of_difference. auto.
    - intros p c [Hpp Hne]%elem_of_difference Hcn.
      destruct (Hp p c Hpp Hcn) as [?|[?|Hb]]; [left; set_solver|auto|].
      rewrite Hbefore in Hb by set_solver.
      apply elem_of_cons in Hb as [->|?]; [left; set_solver|auto].
    - intros x c [->%elem_of_singleton|Hx]%elem_of_union Hcn.
      + destruct (Hval c Hcn); [left; set_solver|auto].
      + destruct (Hc x c Hx Hcn); [left; set_solver|auto].
    - intros x [->%elem_of_singleton|Hx]%elem_of_union; [|auto].
      intros (y & [_ Hy] & Hback)%tc_first_step.
      destruct (followed_closed visited y val Hc Hback (Hval y Hy)); tauto.
    - intros x [->%elem_of_singleton|Hx]%elem_of_union; [tauto|auto].
    - intros x [->|?]%elem_of_cons; [right; left; set_solver|auto]. }
  destruct (checkCycle_push ({[val]} ∪ path) (next f val) (val :: rest))
    as [ret|q] eqn:Hpush; [done|].
  intros [= <- <- <-].
  apply checkCycle_push_inr in Hpush as [-> Hnone].
  assert (Hnext : ∀ p, p ∈ {[val]} ∪ path → p ∉ rev (next f val)).
  { intros p Hpp Hpn. rewrite elem_of_rev in Hpn. exact (Hnone p Hpn Hpp). }
  split_and!; [split| done|].
  - intros p [->%elem_of_singleton|Hpp]%elem_of_union.
    + apply elem_of_app. right. left.
    + apply elem_of_app. right. auto.
  - intros p x Hpp. rewrite before_app by auto.
    intros [Hx|Hx]%elem_of_app.
    + rewrite elem_of_rev in Hx.
      apply elem_of_union in Hpp as [->%elem_of_singleton|Hpp];
        [by apply tc_once|].
      eapply tc_r; [|exact Hx]. apply Ha; [done|].
      rewrite Hbefore by (intros ->; done). left.
    + apply elem_of_union in Hpp as [->%elem_of_singleton|Hpp].
      * simpl in Hx. rewrite decide_True in Hx by done.
        by apply elem_of_nil in Hx.
      * by apply Ha.
  - intros p [->%elem_of_singleton|Hpp]%elem_of_union; [tauto|auto].
  - intros p [->%elem_of_singleton|Hpp]%elem_of_union; auto.
  - intros p c Hpp Hcn. rewrite before_app by auto.
    apply elem_of_union in Hpp as [->%elem_of_singleton|Hpp].
    + right. right. apply elem_of_app. left. by rewrite elem_of_rev.
    + destruct (Hp p c Hpp Hcn) as [?|[?|?]]; auto.
      right. right. apply elem_of_app. by right.
  - done.
  - done.
  - done.
  - intros x Hx. left. apply elem_of_app. by right.
Qed.

(** An iteration that returns has found a cycle. *)
Lemma cycle_inv_found (val : Statement) (rest : list Statement)
    (path visited : gset Statement) (ret : list Statement) :
  cycle_inv (val :: rest) path visited →
  checkCycle_step f from val rest path visited = CycleFound ret →
  ret ≠ [] ∧ ∃ x, tc (depends f) x x.
Proof.
  intros [Hq Ha Hf Hi Hp Hc Hacyc Hin]. unfold checkCycle_step.
  destruct (decide (val ∈ from ∨ val ∈ visited)); [done|].
  destruct (decide (next f val = [])); [done|].
  destruct (decide (val ∈ path)) as [|Hpath]; [done|].
  destruct (checkCycle_push ({[val]} ∪ path) (next f val) (val :: rest))
    as [ret'|q] eqn:Hpush; [|done].
  intros [= <-]. apply checkCycle_push_inl in Hpush as (-> & s & Hs & Hsp).
  split.
  - intros Hnil. apply elements_empty_inv in Hnil.
    assert (val ∈ ({[val]} ∪ path : gset Statement)) by set_solver.
    set_solver.
  - apply elem_of_union in Hsp as [->%elem_of_singleton|Hsp].
    + exists val. by apply tc_once.
    + exists s. eapply tc_r; [|exact Hs]. apply Ha; [done|].
      simpl. rewrite decide_False by (intros ->; done). left.
Qed.
End invariant.

Lemma checkCycle_loop_sound (f : Fusion) (from : gset Statement) (fuel : nat)
    (queue : list Statement) (path visited : gset Statement)
    (ret : list Statement) :
  cycle_inv f from queue path visited →
  checkCycle_loop fuel f from queue path visited = Some ret →
  ret ≠ [] → ∃ x, tc (depends f) x x.
Proof.
  revert queue path visited.
  induction fuel as [|fuel IH]; intros queue path visited Hinv; [done|].
  simpl. destruct queue as [|val rest]; [by intros [= <-]|].
  destruct (checkCycle_step f from val rest path visited)
    as [ret'|queue' path' visited'] eqn:Hstep.
  - intros [= <-] _. by destruct (cycle_inv_found f from _ _ _ _ _ Hinv Hstep).
  - apply IH. by destruct (cycle_inv_step f from _ _ _ _ _ _ _ Hinv Hstep).
Qed.

Lemma checkCycle_loop_drained (f : Fusion) (from : gset Statement) (fuel : nat)
    (queue : list Statement) (path visited : gset Statement) :
  cycle_inv f from queue path visited →
  checkCycle_loop fuel f from queue path visited = Some [] →
  ∃ V : gset Statement,
    (∀ x, x ∈ queue → x ∈ V ∨ x ∈ from) ∧ visited ⊆ V ∧
    (∀ x c, x ∈ V → c ∈ next f x → c ∈ V ∨ c ∈ from) ∧
    (∀ x, x ∈ V → ¬ tc (followed f from) x x).
Proof.
  revert queue path visited.
  induction fuel as [|fuel IH]; intros queue path visited Hinv; [done|].
  simpl. destruct queue as [|val rest].
  { intros _. exists visited. destruct Hinv. split_and!; try done.
    intros x Hx. by apply elem_of_nil in Hx. }
  destruct (checkCycle_step f from val rest path visited)
    as [ret'|queue' path' visited'] eqn:Hstep.
  - intros [= ->]. by destruct (cycle_inv_found f from _ _ _ _ _ Hinv Hstep).
  - destruct (cycle_inv_step f from _ _ _ _ _ _ _ Hinv Hstep)
      as (Hinv' & Hsub & Hqueue).
    intros (V & HqV & HvV & Hclosed & Hacyc)%IH; [|done].
    exists V. split_and!; try done; [|set_solver].
    intros x Hx. destruct (Hqueue x Hx) as [?|[?|?]]; auto.
Qed.

(** C5 (as amended).  [checkCycle] returns a path that is not empty when a
    statement on a cycle can be reached from a target value along
    dependencies of statements outside the boundary, the cycle lying
    outside the boundary as well; it returns the empty list when no
    statement depends on itself. *)
Theorem checkCycle_detects (f : Fusion) (from : gset Statement)
    (to : list nat) :
  (∀ t x, t ∈ to →
          rtc (followed f from) (StmtVal t) x → tc (followed f from) x x →
          ∃ ret, checkCycle f from to = Some ret ∧ ret ≠ []) ∧
  ((∀ x, ¬ tc (depends f) x x) → checkCycle f from to = Some []).
Proof.
  destruct (checkCycle_total f from to) as [ret Hret].
  pose proof (cycle_inv_initial f from (StmtVal <$> to)) as Hinv.
  split.
  - intros t x Ht Hreach Hcycle. exists ret. split; [done|]. intros ->.
    apply checkCycle_loop_drained in Hret as (V & HqV & _ & Hclosed & Hacyc);
      [|done].
    assert (Hx : x ∉ from).
    { apply tc_first_step in Hcycle as (y & [Hx _] & _). done. }
    assert (Ht' : StmtVal t ∈ V ∨ StmtVal t ∈ from).
    { apply HqV, list_elem_of_fmap. by exists t. }
    destruct (followed_closed f from V _ _ Hclosed Hreach Ht') as [HxV|?];
      [|done].
    by apply (Hacyc x).
  - intros Hacyclic. destruct ret as [|s ret]; [done|].
    destruct (checkCycle_loop_sound f from _ _ _ _ _ Hinv Hret) as [x Hx];
      [done|].
    by destruct (Hacyclic x).
Qed.

(** C5 as it is written: whenever some value depends on itself, the
    detector returns a path that is not empty, whatever it starts from. *)
Definition detects_every_cycle (f : Fusion) : Prop :=
  (∃ v, tc (depends f) (StmtVal v) (StmtVal v)) →
  ∀ from to, ∃ ret, checkCycle f from to = Some ret ∧ ret ≠ [].

Lemma cyclic_graph_cycle : tc (depends cyclic_graph) (StmtVal 0) (StmtVal 0).
Proof.
  apply (tc_l _ _ (StmtExpr 10)); [unfold depends; compute_done|].
  apply (tc_l _ _ (StmtVal 1)); [unfold depends; compute_done|].
  apply (tc_l _ _ (StmtExpr 11)); [unfold depends; compute_done|].
  apply tc_once. unfold depends. compute_done.
Qed.

Lemma checkCycle_misses_unreached_cycle : ¬ detects_every_cycle cyclic_graph.
Proof.
  intros H. destruct (H (ex_intro _ 0 cyclic_graph_cycle) ∅ [3]) as (ret & Hret & Hne).
  vm_compute in Hret. by injection Hret as <-.
Qed.

Example checkCycle_acyclic_part :
  checkCycle cyclic_graph ∅ [3; 2] = Some [] ∧
  checkCycle cyclic_graph {[StmtExpr 11]} [4] = Some [].
Proof. split; vm_compute; reflexivity. Qed.

(** ** C4: the frontier during the traversal of [compareDomains] *)

Lemma insert_to_eq (add : gset nat) (v : nat) (fr : gset nat) :
  insert_to add v fr
  = if decide (v ∈ add) then Ok fr
    else if decide (v ∈ fr) then Err msg_output_twice else Ok ({[v]} ∪ fr).
Proof.
  unfold insert_to. destruct (decide (v ∈ add)); [done|].
  destruct (decide (v ∈ fr)).
  - by rewrite bool_decide_eq_false_2 by (intros ?; done).
  - by rewrite bool_decide_eq_true_2.
Qed.

Lemma erase_from_eq (f : Fusion) (ib : bool) (add : gset nat) (v : nat)
    (fr : gset nat) :
  erase_from f ib add v fr
  = if bool_decide (v ∈ fr) || ignorable f ib add v
    then Ok (fr ∖ {[v]}) else Err msg_input_unseen.
Proof.
  unfold erase_from.
  by destruct (bool_decide (v ∈ fr) || ignorable f ib add v).
Qed.

Lemma insert_to_loop_Ok (add : gset nat) (to : list nat) (fr fr1 : gset nat) :
  forM (insert_to add) to fr = Ok fr1 →
  fr1 = fr ∪ list_to_set (filter (λ v, v ∉ add) to) ∧
  (∀ v, v ∈ to → v ∉ add → v ∉ fr) ∧
  NoDup (filter (λ v, v ∉ add) to).
Proof.
  revert fr. induction to as [|v to IH]; intros fr.
  { intros [= <-]. split_and!; [set_solver| |constructor].
    intros v Hv. by apply elem_of_nil in Hv. }
  rewrite forM_cons. intros (fr' & Hv & Hrest)%bind_Ok.
  apply IH in Hrest as (-> & Hnew & Hnd). unfold insert_to in Hv.
  destruct (decide (v ∈ add)) as [Hadd|Hadd].
  - injection Hv as <-. rewrite filter_cons_False by (intros ?; done).
    split_and!; [done| |done].
    intros w [->|Hw]%elem_of_cons; [done|auto].
  - apply NVF_CHECK_bind_Ok in Hv as [Hfr%bool_decide_eq_true [= <-]].
    rewrite filter_cons_True by done. split_and!.
    + set_solver.
    + intros w [->|Hw]%elem_of_cons Hwa; [done|].
      specialize (Hnew w Hw Hwa). set_solver.
    + constructor; [|done]. intros [_ Hvto]%list_elem_of_filter.
      apply (Hnew v Hvto Hadd). set_solver.
Qed.

Lemma insert_to_loop_present (add : gset nat) (to : list nat) (fr : gset nat) :
  (∃ v, v ∈ to ∧ (v ∉ add) ∧ v ∈ fr) →
  forM (insert_to add) to fr = Err msg_output_twice.
Proof.
  revert fr. induction to as [|v0 to IH]; intros fr (v & Hv & Hadd & Hfr).
  { by apply elem_of_nil in Hv. }
  rewrite forM_cons, insert_to_eq.
  destruct (decide (v0 ∈ add)) as [Hadd0|Hadd0]; simpl.
  - apply IH. exists v. apply elem_of_cons in Hv as [->|Hv]; done.
  - destruct (decide (v0 ∈ fr)) as [Hin|Hnin]; simpl; [done|].
    apply IH. exists v.
    apply elem_of_cons in Hv as [->|Hv]; [done|]. split_and!; [done..|].
    set_solver.
Qed.

Lemma insert_to_loop_Err (add : gset nat) (to : list nat) (fr : gset nat)
    (msg : string) :
  forM (insert_to add) to fr = Err msg → msg = msg_output_twice.
Proof.
  revert fr. induction to as [|v0 to IH]; intros fr; [done|].
  rewrite forM_cons, insert_to_eq.
  destruct (decide (v0 ∈ add)); simpl; [apply IH|].
  destruct (decide (v0 ∈ fr)); simpl; [|apply IH]. by intros [= <-].
Qed.

Lemma erase_from_loop_Ok (f : Fusion) (ib : bool) (add : gset nat)
    (from : list nat) (fr fr2 : gset nat) :
  forM (erase_from f ib add) from fr = Ok fr2 →
  fr2 = fr ∖ list_to_set from ∧
  (∀ v, v ∈ from → v ∈ fr ∨ ignorable f ib add v = true) ∧
  NoDup (filter (λ v, ignorable f ib add v = false) from).
Proof.
  revert fr. induction from as [|v from IH]; intros fr.
  { intros [= <-]. split_and!; [set_solver| |constructor].
    intros v Hv. by apply elem_of_nil in Hv. }
  rewrite forM_cons. intros (fr' & Hv & Hrest)%bind_Ok.
  apply IH in Hrest as (-> & Hseen & Hnd). unfold erase_from in Hv.
  apply NVF_CHECK_bind_Ok in Hv as [Hchk [= <-]].
  apply orb_true_iff in Hchk as Hchk'.
  split_and!.
  - set_solver.
  - intros w [->|Hw]%elem_of_cons.
    + destruct Hchk' as [?%bool_decide_eq_true|?]; auto.
    + destruct (Hseen w Hw) as [?|?]; [left; set_solver|auto].
  - destruct (ignorable f ib add v) eqn:Hign.
    + by rewrite filter_cons_False by (intros ?; congruence).
    + rewrite filter_cons_True by done. constructor; [|done].
      intros [Hign' Hvf]%list_elem_of_filter.
      destruct (Hseen v Hvf) as [?|?]; [set_solver|congruence].
Qed.

Lemma erase_from_loop_unseen (f : Fusion) (ib : bool) (add : gset nat)
    (from : list nat) (fr : gset nat) :
  (∃ v, v ∈ from ∧ (v ∉ fr) ∧ ignorable f ib add v = false) →
  forM (erase_from f ib add) from fr = Err msg_input_unseen.
Proof.
  revert fr. induction from as [|v0 from IH]; intros fr (v & Hv & Hfr & Hign).
  { by apply elem_of_nil in Hv. }
  rewrite forM_cons, erase_from_eq.
  destruct (bool_decide (v0 ∈ fr) || ignorable f ib add v0) eqn:Hchk; simpl;
    [|done].
  apply IH. exists v. apply elem_of_cons in Hv as [->|Hv].
  - rewrite Hign, bool_decide_eq_false_2 in Hchk by done. done.
  - split_and!; [done| |done]. set_solver.
Qed.

(** The to-nodes outside additional-ids are distinct and none of them is in
    the frontier: each one is newly inserted. *)
Definition inserts_new (additional frontier : gset nat) (to : list nat)
    : Prop :=
  NoDup (filter (λ v, v ∉ additional) to) ∧
  Forall (λ v, v ∉ frontier) (filter (λ v, v ∉ additional) to).

(** Every from-node is in the frontier or ignorable, and a from-node that is
    not ignorable is listed once: each one is erased exactly once. *)
Definition erases_once (f : Fusion) (ignore_broadcast : bool)
    (additional frontier : gset nat) (from : list nat) : Prop :=
  NoDup (filter (λ v, ignorable f ignore_broadcast additional v = false) from) ∧
  Forall (λ v, v ∈ frontier ∨ ignorable f ignore_broadcast additional v = true)
    from.

Lemma insert_to_loop_new (add : gset nat) (to : list nat) (fr : gset nat) :
  inserts_new add fr to →
  forM (insert_to add) to fr
  = Ok (fr ∪ list_to_set (filter (λ v, v ∉ add) to)).
Proof.
  unfold inserts_new. revert fr.
  induction to as [|v to IH]; intros fr [Hnd Hnew].
  { simpl. f_equal. set_solver. }
  rewrite forM_cons, insert_to_eq.
  destruct (decide (v ∈ add)) as [Hadd|Hadd]; simpl.
  - rewrite filter_cons_False in * by (intros ?; done). by apply IH.
  - rewrite filter_cons_True in * by done.
    apply NoDup_cons in Hnd as [Hv Hnd]. apply Forall_cons in Hnew as [Hvfr Hnew].
    rewrite decide_False by done. simpl. rewrite IH.
    + f_equal. set_solver.
    + split; [done|]. rewrite Forall_forall in *. intros w Hw.
      specialize (Hnew w Hw). set_solver.
Qed.

Lemma erase_from_loop_seen (f : Fusion) (ib : bool) (add : gset nat)
    (from : list nat) (fr : gset nat) :
  erases_once f ib add fr from →
  forM (erase_from f ib add) from fr = Ok (fr ∖ list_to_set from).
Proof.
  unfold erases_once. revert fr.
  induction from as [|v from IH]; intros fr [Hnd Hseen].
  { simpl. f_equal. set_solver. }
  rewrite forM_cons, erase_from_eq.
  apply Forall_cons in Hseen as [Hv Hseen].
  assert (Hchk : bool_decide (v ∈ fr) || ignorable f ib add v = true).
  { apply orb_true_iff. destruct Hv; [left|by right]. by apply bool_decide_eq_true. }
  rewrite Hchk. simpl. rewrite IH.
  - f_equal. set_solver.
  - destruct (ignorable f ib add v) eqn:Hign.
    + rewrite filter_cons_False in Hnd by (intros ?; congruence).
      split; [done|]. rewrite Forall_forall in *. intros w Hw.
      destruct (Hseen w Hw) as [?|?]; [|by right].
      destruct (decide (w = v)) as [->|]; [by right|left; set_solver].
    + rewrite filter_cons_True in Hnd by done.
      apply NoDup_cons in Hnd as [Hvf Hnd].
      split; [done|]. rewrite Forall_forall in *. intros w Hw.
      destruct (Hseen w Hw) as [?|?]; [|by right].
      destruct (ignorable f ib add w) eqn:Hw'; [by right|left].
      assert (w ≠ v); [|set_solver].
      intros ->. apply Hvf, list_elem_of_filter. done.
Qed.

#[global] Instance inserts_new_dec add fr to : Decision (inserts_new add fr to).
Proof. unfold inserts_new. apply _. Defined.

#[global] Instance erases_once_dec f ib add fr from :
  Decision (erases_once f ib add fr from).
Proof. unfold erases_once. apply _. Defined.

Lemma erase_from_loop_Err (f : Fusion) (ib : bool) (add : gset nat)
    (from : list nat) (fr : gset nat) (msg : string) :
  forM (erase_from f ib add) from fr = Err msg → msg = msg_input_unseen.
Proof.
  revert fr. induction from as [|v from IH]; intros fr; [done|].
  rewrite forM_cons, erase_from_eq.
  destruct (bool_decide (v ∈ fr) || ignorable f ib add v); simpl; [apply IH|].
  by intros [= <-].
Qed.

(** The two loops of the body, run. *)
Lemma frontier_loops_run (f : Fusion) (ib : bool) (add : gset nat)
    (to from : list nat) (fr : gset nat) :
  let fr1 := fr ∪ list_to_set (filter (λ v, v ∉ add) to) in
  (forM (insert_to add) to fr
   ≫= λ fr1, forM (erase_from f ib add) from fr1 ≫= λ fr2, Ok (fr2, add))
  = if decide (inserts_new add fr to)
    then if decide (erases_once f ib add fr1 from)
         then Ok (fr1 ∖ list_to_set from, add)
         else Err msg_input_unseen
    else Err msg_output_twice.
Proof.
  intros fr1.
  destruct (decide (inserts_new add fr to)) as [Hnew|Hnew].
  - rewrite insert_to_loop_new by done. simpl. fold fr1.
    destruct (decide (erases_once f ib add fr1 from)) as [Hseen|Hseen].
    + by rewrite erase_from_loop_seen.
    + destruct (forM (erase_from f ib add) from fr1) as [fr2|msg] eqn:Hfrom;
        simpl.
      * exfalso. apply Hseen.
        apply erase_from_loop_Ok in Hfrom as (_ & Hin' & Hnd). split; [done|].
        by apply Forall_forall.
      * by apply erase_from_loop_Err in Hfrom as ->.
  - destruct (forM (insert_to add) to fr) as [fr0|msg] eqn:Hto; simpl.
    + exfalso. apply Hnew.
      apply insert_to_loop_Ok in Hto as (_ & Hnew' & Hnd). split; [done|].
      apply Forall_forall. intros v [? ?]%list_elem_of_filter. auto.
    + by apply insert_to_loop_Err in Hto as ->.
Qed.

(** The expression is not skipped: its ids are iteration domains and its
    from-nodes are not all in additional-ids. *)
Definition traversed (f : Fusion) (expr : nat) (direction : Direction)
    (additional : gset nat) : Prop :=
  forallb (isIterDomain f) (expr_inputs f expr) = true ∧
  forallb (isIterDomain f) (expr_outputs f expr) = true ∧
  forallb (λ v, bool_decide (v ∈ additional)) (step_from f expr direction)
  = false.

(** What the loop body does with an expression that is not skipped. *)
Definition frontier_step_post (f : Fusion) (ignore_broadcast : bool)
    (expr : nat) (direction : Direction) (frontier additional : gset nat)
    : Prop :=
  let from := step_from f expr direction in
  let to := step_to f expr direction in
  let frontier1 := frontier ∪ list_to_set (filter (λ v, v ∉ additional) to) in
  let step := compareDomains_step f ignore_broadcast (expr, direction)
                (frontier, additional) in
  ((∃ v, v ∈ to ∧ (v ∉ additional) ∧ v ∈ frontier) →
     step = Err msg_output_twice) ∧
  (inserts_new additional frontier to →
   (∃ v, v ∈ from ∧ (v ∉ frontier1) ∧
         ignorable f ignore_broadcast additional v = false) →
     step = Err msg_input_unseen) ∧
  (∀ st', step = Ok st' ↔
     inserts_new additional frontier to ∧
     erases_once f ignore_broadcast additional frontier1 from ∧
     st' = (frontier1 ∖ list_to_set from, additional)) ∧
  (∀ msg, step = Err msg →
     (msg = msg_output_twice ∧ ¬ inserts_new additional frontier to) ∨
     (msg = msg_input_unseen ∧ inserts_new additional frontier to ∧
      ¬ erases_once f ignore_broadcast additional frontier1 from)) ∧
  (∀ msg before after st0 dom1 bfs dom1_set,
     compareDomains_traverse f ignore_broadcast before st0
     = Ok (frontier, additional) →
     step = Err msg →
     (compareDomains_traverse f ignore_broadcast
        (before ++ (expr, direction) :: after) st0
      ≫= λ st, compareDomains_report bfs f ignore_broadcast dom1 st.1 dom1_set)
     = Err msg).

(** C4.  For a traversed expression whose from-nodes are not all in
    additional-ids, the iteration succeeds exactly when every to-node
    outside additional-ids is newly inserted in the frontier and every
    from-node is erased from it once, a from-node that is ignorable (a
    broadcast axis being ignored, or a member of additional-ids) being
    allowed to be absent; the frontier it leaves is the old one with the
    to-nodes outside additional-ids added and the from-nodes removed.  It
    fails with the invalid-derived-domain error otherwise: on a to-node
    already in the frontier, and on a from-node that is neither in the
    frontier nor ignorable; the error is the error of the call. *)
Theorem frontier_step (f : Fusion) (ignore_broadcast : bool) (expr : nat)
    (direction : Direction) (frontier additional : gset nat) :
  traversed f expr direction additional →
  frontier_step_post f ignore_broadcast expr direction frontier additional.
Proof.
  intros (Hin & Hout & Hskip). unfold frontier_step_post.
  set (to := step_to f expr direction).
  set (from := step_from f expr direction).
  set (frontier1 := frontier ∪ list_to_set (filter (λ v, v ∉ additional) to)).
  assert (Hstep : compareDomains_step f ignore_broadcast (expr, direction)
                    (frontier, additional)
                  = if decide (inserts_new additional frontier to)
                    then if decide (erases_once f ignore_broadcast additional
                                      frontier1 from)
                         then Ok (frontier1 ∖ list_to_set from, additional)
                         else Err msg_input_unseen
                    else Err msg_output_twice).
  { rewrite <- frontier_loops_run.
    unfold compareDomains_step. by rewrite Hin, Hout, Hskip. }
  split_and!.
  - intros (v & Hv & Hadd & Hfr). rewrite Hstep, decide_False; [done|].
    intros [_ Hnew]. rewrite Forall_forall in Hnew.
    apply (Hnew v); [|done]. by apply list_elem_of_filter.
  - intros Hnew (v & Hv & Hfr & Hign). rewrite Hstep, decide_True by done.
    rewrite decide_False; [done|]. intros [_ Hseen].
    rewrite Forall_forall in Hseen. destruct (Hseen v Hv); congruence.
  - intros st'. rewrite Hstep. split.
    + repeat case_decide; try done. by intros [= <-].
    + intros (Hnew & Hseen & ->). by rewrite !decide_True.
  - intros msg. rewrite Hstep. repeat case_decide; try done; intros [= <-]; auto.
  - intros msg before after st0 dom1 bfs dom1_set Hbefore Herr.
    unfold compareDomains_traverse in *. rewrite forM_app, Hbefore.
    change (Ok (frontier, additional)
            ≫= forM (compareDomains_step f ignore_broadcast)
                 ((expr, direction) :: after))
      with (forM (compareDomains_step f ignore_broadcast)
              ((expr, direction) :: after) (frontier, additional)).
    rewrite forM_cons, Herr. done.
Qed.

(** An axis split into two: [10] takes the iteration domain [0] to [1] and
    [2], the second of them symbolic. *)
Definition an_axis (it : IterType) : Val :=
  mkVal IterDomain false false false None [] Local it.

Definition split_graph : Fusion :=
  mkFusion 0 false
    (list_to_map [(0, an_axis Iteration); (1, an_axis Iteration);
                  (2, an_axis Symbolic)])
    (list_to_map [(10, mkExpr [0] [1; 2] None)]) [] [] ∅ true.

(** A merge of the iteration domain [3] and the broadcast axis [4] into
    [5]. *)
Definition merge_graph : Fusion :=
  mkFusion 0 false
    (list_to_map [(3, an_axis Iteration); (4, an_axis Broadcast);
                  (5, an_axis Iteration)])
    (list_to_map [(20, mkExpr [3; 4] [5] None)]) [] [] ∅ true.

Lemma frontier_step_witness :
  compareDomains_step merge_graph true (20, Forward) ({[3]}, ∅)
  = Ok ({[5]}, ∅) ∧
  compareDomains_step merge_graph false (20, Forward) ({[3]}, ∅)
  = Err msg_input_unseen ∧
  compareDomains_step merge_graph false (20, Forward) ({[3]}, {[4]})
  = Ok ({[5]}, {[4]}).
Proof.
  split_and!.
  - apply (frontier_step merge_graph true 20 Forward {[3]} ∅);
      [split_and!; reflexivity|].
    split_and!; [compute_done..|]. vm_compute. reflexivity.
  - apply (frontier_step merge_graph false 20 Forward {[3]} ∅);
      [split_and!; reflexivity|compute_done|].
    exists 4. split_and!; [compute_done| |reflexivity].
    vm_compute. set_solver.
  - apply (frontier_step merge_graph false 20 Forward {[3]} {[4]});
      [split_and!; reflexivity|].
    split_and!; [compute_done..|]. vm_compute. reflexivity.
Defined.

Example frontier_step_run :
  compareDomains_step split_graph true (10, Forward) ({[0]}, ∅)
  = Ok ({[1; 2]}, ∅) ∧
  compareDomains_step split_graph true (10, Forward) ({[0; 1]}, ∅)
  = Err msg_output_twice ∧
  compareDomains_step split_graph true (10, Forward) ({[3]}, ∅)
  = Err msg_input_unseen ∧
  compareDomains_step merge_graph true (20, Backward) ({[5]}, ∅)
  = Ok ({[3; 4]}, ∅) ∧
  compareDomains_step merge_graph true (20, Forward) ({[4]}, ∅)
  = Err msg_input_unseen.
Proof. split_and!; vm_compute; reflexivity. Qed.

(** ** C3: domains that are reachable from one another *)

Lemma existsb_false {A} (p : A → bool) (l : list A) :
  (∀ x, x ∈ l → p x = false) → existsb p l = false.
Proof.
  induction l as [|x l IH]; intros Hl; simpl; [done|].
  rewrite (Hl x) by left. simpl. apply IH. intros y Hy. apply Hl. by right.
Qed.

Lemma check_ids_found (bfs : IRBFS) (f : Fusion) (ib : bool) (ids : list nat)
    (target : gset nat) (u : bool) :
  (∀ id, id ∈ ids →
         is_symb f id = true ∨ ib && isBroadcast f id = true ∨ id ∈ target) →
  check_ids bfs f ib ids target u = Ok u.
Proof.
  induction ids as [|id ids IH]; intros Hids; simpl; [done|].
  assert (Hrest : check_ids bfs f ib ids target u = Ok u).
  { apply IH. intros x Hx. apply Hids. by right. }
  destruct (Hids id) as [Hs|[Hb|Ht]]; [left|..].
  - by rewrite Hs.
  - rewrite Hb. by rewrite orb_true_r.
  - destruct (is_symb f id || ib && isBroadcast f id); [done|].
    by rewrite decide_True.
Qed.

(** When the frontier the traversal leaves is the set of [dom1], both
    sides are fully reachable. *)
Lemma compareDomains_report_equal (bfs : IRBFS) (f : Fusion) (ib : bool)
    (dom1 : list nat) :
  compareDomains_report bfs f ib dom1 (list_to_set dom1) (list_to_set dom1)
  = Ok (mkCompareDomainResult false false).
Proof.
  unfold compareDomains_report.
  set (D := (list_to_set dom1 : gset nat)).
  set (R := filter (λ id, is_symb f id = true ∧ id ∈ D) D).
  assert (Hsymb : ∀ x, x ∈ D ∖ R → is_symb f x = false).
  { intros x [Hx HR]%elem_of_difference.
    destruct (is_symb f x) eqn:Hs; [|done].
    exfalso. apply HR, elem_of_filter. done. }
  rewrite existsb_false by (intros x Hx%elem_of_elements; auto). simpl.
  rewrite (check_ids_found bfs f ib dom1); simpl.
  - rewrite check_ids_found; [done|].
    intros id Hid%elem_of_elements. auto.
  - intros id Hid. destruct (is_symb f id) eqn:Hs; [by left|].
    right. right. apply elem_of_difference. split.
    + by apply elem_of_list_to_set.
    + intros [[Hs' _] _]%elem_of_filter. congruence.
Qed.

Lemma compareDomains_checked (bfs : IRBFS) (f : Fusion)
    (dom0 dom1 additional_ids : list nat) (ib : bool) :
  dom0 ≠ [] → NoDup dom0 → NoDup dom1 →
  compareDomains bfs f dom0 dom1 additional_ids ib
  = (compareDomains_traverse f ib
       (getExprsBetween bfs f (dom0 ++ additional_ids) dom1)
       (list_to_set (dom0 ++ additional_ids), list_to_set additional_ids)
     ≫= λ st, compareDomains_report bfs f ib dom1 st.1 (list_to_set dom1)).
Proof.
  intros Hne Hnd0 Hnd1. unfold compareDomains.
  rewrite (bool_decide_eq_false_2 (dom0 = [])) by done. cbn [andb].
  rewrite bool_decide_eq_true_2 by (by rewrite size_list_to_set).
  rewrite bool_decide_eq_true_2 by (by rewrite size_list_to_set).
  done.
Qed.

Definition fully_reachable : Result CompareDomainResult :=
  Ok (mkCompareDomainResult false false).

Lemma compareDomains_same_list (bfs : IRBFS) (f : Fusion) (ids : list nat)
    (ignore_broadcast : bool) :
  NoDup ids →
  getExprsBetween bfs f (ids ++ []) ids = [] →
  compareDomains bfs f ids ids [] ignore_broadcast = fully_reachable.
Proof.
  intros Hnd Hexprs. destruct ids as [|x ids]; [done|].
  rewrite compareDomains_checked, Hexprs by done.
  unfold compareDomains_traverse. simpl forM. rewrite app_nil_r.
  apply compareDomains_report_equal.
Qed.

(** C3.  With the traversal between a list and itself taking no
    expression, two identical duplicate-free lists compare as fully
    reachable in both directions; and with the traversal from an axis to
    the two axes a split makes of it taking the split forward, the one-axis
    list and the two-axes list compare as fully reachable as well. *)
Theorem compareDomains_fully_reachable (bfs : IRBFS) (f : Fusion)
    (ignore_broadcast : bool) :
  (∀ dom, NoDup dom →
          getExprsBetween bfs f (dom ++ []) dom = [] →
          compareDomains bfs f dom dom [] ignore_broadcast = fully_reachable) ∧
  (∀ split a b c,
     NoDup [a; b; c] →
     expr_inputs f split = [a] → expr_outputs f split = [b; c] →
     isIterDomain f a = true → isIterDomain f b = true →
     isIterDomain f c = true →
     getExprsBetween bfs f ([a] ++ []) [b; c] = [(split, Forward)] →
     compareDomains bfs f [a] [b; c] [] ignore_broadcast = fully_reachable).
Proof.
  split.
  - intros dom Hnd Hexprs. by apply compareDomains_same_list.
  - intros s a b c Hnd Hins Houts Ha Hb Hc Hexprs.
    assert (Hnd' := Hnd).
    apply NoDup_cons in Hnd as [Habc Hnd].
    assert (Hbc := Hnd). apply NoDup_cons in Hnd as [Hbc' _].
    apply not_elem_of_cons in Habc as [Hab Hac%not_elem_of_cons].
    destruct Hac as [Hac _]. apply not_elem_of_cons in Hbc' as [Hbc' _].
    rewrite compareDomains_checked, Hexprs;
      [|done|apply NoDup_singleton|done].
    assert (Hstep : compareDomains_traverse f ignore_broadcast [(s, Forward)]
                      (list_to_set ([a] ++ []), list_to_set [])
                    = Ok (list_to_set [b; c], ∅)).
    { unfold compareDomains_traverse. rewrite forM_cons.
      unfold compareDomains_step. simpl. rewrite Hins, Houts. simpl.
      rewrite Ha, Hb, Hc. simpl.
      rewrite bool_decide_eq_false_2 by set_solver. simpl.
      rewrite !insert_to_eq.
      rewrite (decide_False (P := b ∈ (∅ : gset nat))) by set_solver.
      rewrite decide_False by set_solver. simpl. rewrite insert_to_eq.
      rewrite (decide_False (P := c ∈ (∅ : gset nat))) by set_solver.
      rewrite decide_False by set_solver. simpl. rewrite erase_from_eq.
      rewrite bool_decide_eq_true_2 by set_solver. simpl.
      do 2 f_equal. apply set_eq. intros x.
      destruct (decide (x = a)); set_solver. }
    rewrite Hstep. apply compareDomains_report_equal.
Qed.

Example compareDomains_split :
  compareDomains bfs_model split_graph [0] [1; 2] [] true = fully_reachable ∧
  compareDomains bfs_model split_graph [1; 2] [0] [] true = fully_reachable ∧
  compareDomains bfs_model split_graph [1; 0] [1; 0] [] false = fully_reachable.
Proof. split_and!; vm_compute; reflexivity. Qed.

(** The modelled traversal takes no expression between a list and itself. *)
Lemma bfs_model_same_list (f : Fusion) (ids : list nat) :
  getExprsBetween bfs_model f (ids ++ []) ids = [].
Proof.
  simpl. rewrite app_nil_r.
  destruct (size (dom (exprs_ f))) as [|fuel]; simpl; [done|].
  assert (Hall : forallb (λ v, bool_decide (v ∈ (list_to_set ids : gset nat)))
                   ids = true).
  { apply forallb_forall. intros x Hx%list_elem_of_In.
    apply bool_decide_eq_true. by apply elem_of_list_to_set. }
  by rewrite Hall.
Qed.

Corollary compareDomains_identical (f : Fusion) (dom : list nat)
    (ignore_broadcast : bool) :
  NoDup dom →
  compareDomains bfs_model f dom dom [] ignore_broadcast = fully_reachable.
Proof.
  intros Hnd. apply compareDomains_same_list; [done|].
  apply bfs_model_same_list.
Qed.

Lemma compareDomains_fully_reachable_witness :
  compareDomains bfs_model split_graph [1; 0] [1; 0] [] true = fully_reachable ∧
  compareDomains bfs_model split_graph [0] [1; 2] [] true = fully_reachable.
Proof.
  destruct (compareDomains_fully_reachable bfs_model split_graph true)
    as [Hsame Hsplit].
  split.
  - apply Hsame; [compute_done|reflexivity].
  - apply (Hsplit 10); [compute_done|reflexivity..].
Defined.

(** ** Sets of list elements and their size *)

Lemma size_list_to_set_le `{Countable A} (l : list A) :
  size (list_to_set l : gset A) ≤ length l.
Proof.
  induction l as [|x l IH].
  { change (list_to_set [] : gset A) with (∅ : gset A). by rewrite size_empty. }
  change (list_to_set (x :: l) : gset A) with ({[x]} ∪ list_to_set l : gset A).
  rewrite size_union_alt, size_singleton. cbn [length].
  assert (size (list_to_set l ∖ {[x]} : gset A) ≤ size (list_to_set l : gset A))
    by (apply subseteq_size; set_solver).
  lia.
Qed.

(** A list has as many elements as the set made of it exactly when no
    element is repeated: this is how the source detects duplicates. *)
Lemma size_list_to_set_NoDup `{Countable A} (l : list A) :
  size (list_to_set l : gset A) = length l ↔ NoDup l.
Proof.
  split; [|apply size_list_to_set].
  induction l as [|x l IH]; [constructor|].
  change (list_to_set (x :: l) : gset A) with ({[x]} ∪ list_to_set l : gset A).
  cbn [length]. intros Hsize. destruct (decide (x ∈ l)) as [Hx|Hx].
  - exfalso. pose proof (size_list_to_set_le l).
    replace ({[x]} ∪ list_to_set l : gset A) with (list_to_set l : gset A)
      in Hsize by set_solver.
    lia.
  - constructor; [done|]. apply IH.
    rewrite size_union, size_singleton in Hsize by set_solver. lia.
Qed.

Lemma existsb_Forall {A} (p : A → bool) (l : list A) :
  existsb p l = false ↔ Forall (λ x, p x = false) l.
Proof.
  induction l as [|x l IH]; simpl; [by split; [constructor|]|].
  rewrite orb_false_iff, IH, Forall_cons. done.
Qed.

Lemma is_Ok_true {A} (m : Result A) : is_Ok m = true ↔ ∃ a, m = Ok a.
Proof.
  destruct m; simpl; split; eauto; try done. by intros [? ?].
Qed.

Lemma filter_Forall_id {A} (P : A → Prop) `{∀ x, Decision (P x)} (l : list A) :
  Forall P l → filter P l = l.
Proof.
  induction 1 as [|x l Hx Hl IH]; [done|].
  by rewrite filter_cons_True, IH.
Qed.

Lemma NoDup_fmap_congr {A B C} (g : A → B) (h : A → C) (l : list A) :
  (∀ x y, g x = g y → h x = h y) → NoDup (h <$> l) → NoDup (g <$> l).
Proof.
  intros Hgh. induction l as [|x l IH]; simpl; [constructor|].
  intros [Hx Hl]%NoDup_cons. constructor; [|by apply IH].
  intros (y & Hy & Hin)%list_elem_of_fmap. apply Hx.
  apply list_elem_of_fmap. exists y. split; [by apply Hgh|done].
Qed.

Lemma StronglySorted_filter {A} (R : relation A) (P : A → Prop)
    `{∀ x, Decision (P x)} (l : list A) :
  StronglySorted R l → StronglySorted R (filter P l).
Proof.
  induction 1 as [|x l Hl IH Hx]; [constructor|].
  rewrite filter_cons. destruct (decide (P x)); [|done].
  constructor; [done|]. apply Forall_forall. intros y [_ Hy]%list_elem_of_filter.
  rewrite Forall_forall in Hx. by apply Hx.
Qed.

Lemma tc_last_step {A} (R : relation A) (x z : A) :
  tc R x z → ∃ y, rtc R x y ∧ R y z.
Proof.
  induction 1 as [x y Hxy|x y z Hxy Hyz (w & Hw & Hp)].
  - exists x. split; [constructor|done].
  - exists w. split; [by eapply rtc_l|done].
Qed.

(** ** The axis permutations *)

Section axes_properties.
Local Open Scope Z_scope.

(** A list of [n] distinct positions below [n] is a permutation of them all. *)
Lemma in_range_Permutation (r : list Z) (n : Z) :
  Z.of_nat (length r) = n → Forall (λ e, 0 ≤ e < n) r → NoDup r →
  r ≡ₚ seqZ 0 n.
Proof.
  intros Hlen Hrange Hnd. apply submseteq_length_Permutation.
  - apply NoDup_submseteq; [done|]. intros x Hx.
    rewrite Forall_forall in Hrange. apply elem_of_seqZ. specialize (Hrange x Hx). lia.
  - rewrite length_seqZ. lia.
Qed.

(** What a successful [normalizeNew2Old] has checked. *)
Lemma normalizeNew2Old_Ok (l : list Z) (n : Z) (r : list Z) :
  normalizeNew2Old l n = Ok r ↔
  r = wrap_dim n <$> l ∧ Z.of_nat (length l) = n ∧
  Forall (λ e, 0 ≤ e < n) r ∧ NoDup r.
Proof.
  unfold normalizeNew2Old. rewrite !NVF_CHECK_bind_Ok.
  rewrite bool_decide_eq_true, negb_true_iff, existsb_Forall, andb_true_iff.
  rewrite !bool_decide_eq_true, size_list_to_set_NoDup, length_fmap.
  split.
  - intros (Hlen & Hr & [_ Hnd] & [= <-]). split_and!; try done.
    eapply Forall_impl; [done|]. intros e He; simpl in He.
    apply bool_decide_eq_false in He. lia.
  - intros (-> & Hlen & Hr & Hnd). split_and!; try done.
    eapply Forall_impl; [done|]. intros e He; simpl in *.
    apply bool_decide_eq_false. lia.
Qed.


(** An entry of the input map with both positions wrapped. *)
Definition wrap_entry (ndims : Z) (entry : Z * Z) : Z * Z :=
  (wrap_dim ndims entry.1, wrap_dim ndims entry.2).

(** The map [old2new] holds, for each wrapped key, the entry met first. *)
Lemma old2new_fold (n : Z) (l : list (Z * Z)) (m0 : gmap Z Z) :
  foldl (old2new_insert n) m0 l = m0 ∪ list_to_map (wrap_entry n <$> l).
Proof.
  revert m0. induction l as [|e l IH]; intros m0; simpl.
  - apply map_eq. intros k. rewrite lookup_union, lookup_empty.
    by destruct (m0 !! k).
  - rewrite IH. unfold old2new_insert.
    destruct (m0 !! wrap_dim n e.1) as [x|] eqn:Hk.
    + apply map_eq. intros k. rewrite !lookup_union.
      destruct (decide (k = wrap_dim n e.1)) as [->|Hne].
      * rewrite Hk, lookup_insert_eq. by destruct (list_to_map _ !! _).
      * by rewrite lookup_insert_ne.
    + by rewrite <- insert_union_l, insert_union_r.
Qed.

(** The loop [new2old[new_pos] = old_pos] over the entries [ps]. *)
Definition scatter (v : list Z) (ps : list (Z * Z)) : list Z :=
  foldl (λ v (elem : Z * Z), <[Z.to_nat elem.2 := elem.1]> v) v ps.

Definition position (e : Z * Z) : nat := Z.to_nat e.2.

Lemma scatter_lookup (ps : list (Z * Z)) (v : list Z) :
  NoDup (position <$> ps) →
  Forall (λ e, (position e < length v)%nat) ps →
  length (scatter v ps) = length v ∧
  (∀ e, e ∈ ps → scatter v ps !! position e = Some e.1) ∧
  (∀ i, i ∉ position <$> ps → scatter v ps !! i = v !! i).
Proof.
  revert v. induction ps as [|e ps IH]; intros v Hnd Hr; simpl.
  - split_and!; [done| |done]. intros e He. by apply elem_of_nil in He.
  - apply NoDup_cons in Hnd as [He Hnd]. apply Forall_cons in Hr as [Hr1 Hr].
    destruct (IH (<[position e := e.1]> v) Hnd) as (Hlen & Hin & Hout).
    { eapply Forall_impl; [done|]. intros x Hx. by rewrite length_insert. }
    fold (position e). rewrite length_insert in Hlen. split_and!; [done|..].
    + intros e' [->|He']%elem_of_cons; [|by apply Hin].
      rewrite Hout by done. by apply list_lookup_insert_eq.
    + intros i Hi. apply not_elem_of_cons in Hi as [Hi1 Hi2].
      rewrite Hout by done. by apply list_lookup_insert_ne.
Qed.

(** How many positions are still at [-1]. *)
Definition unset (v : list Z) : nat := length (filter (λ x, x = -1) v).

Lemma unset_insert (v : list Z) (i : nat) (o : Z) :
  v !! i = Some (-1) → o ≠ -1 → (unset (<[i := o]> v) + 1 = unset v)%nat.
Proof.
  intros Hi Ho. unfold unset. rewrite insert_take_drop by (by eapply lookup_lt_Some).
  rewrite <- (take_drop_middle v i (-1) Hi) at 3.
  rewrite !filter_app, !length_app, filter_cons_False, filter_cons_True by done.
  simpl. lia.
Qed.

Lemma scatter_unset (ps : list (Z * Z)) (v : list Z) :
  NoDup (position <$> ps) →
  (∀ e, e ∈ ps → v !! position e = Some (-1) ∧ e.1 ≠ -1) →
  (unset (scatter v ps) + length ps = unset v)%nat.
Proof.
  revert v. induction ps as [|e ps IH]; intros v Hnd Hv; simpl; [lia|].
  apply NoDup_cons in Hnd as [He Hnd].
  destruct (Hv e) as [Hv1 Hv2]; [left|].
  fold (position e). rewrite <- (unset_insert v (position e) e.1) by done.
  rewrite <- (IH (<[position e := e.1]> v)); [lia|done|].
  intros e' He'. destruct (Hv e') as [Hv1' Hv2']; [by right|]. split; [|done].
  rewrite list_lookup_insert_ne; [done|]. intros Heq. apply He.
  rewrite Heq. by apply list_elem_of_fmap_2.
Qed.

Lemma unset_replicate (n : nat) : unset (replicate n (-1)) = n.
Proof.
  unfold unset. induction n as [|n IH]; [done|]. cbn [replicate].
  rewrite filter_cons_True by done. cbn [length]. by rewrite IH.
Qed.

Lemma fill_unspecified_succeeds (l it : list Z) :
  (unset l ≤ length it)%nat → ∃ r, fill_unspecified l it = Ok r.
Proof.
  revert it. induction l as [|i l IH]; intros it Hle; simpl; [by eexists|].
  unfold unset in Hle. destruct (decide (i = -1)) as [->|Hi].
  - rewrite filter_cons_True in Hle by done. simpl in Hle.
    destruct it as [|p it]; simpl in Hle; [lia|].
    destruct (IH it) as [r ->]; [unfold unset; lia|]. by eexists.
  - rewrite filter_cons_False in Hle by done.
    destruct (IH it) as [r ->]; [done|]. by eexists.
Qed.

Lemma fill_unspecified_lookup (l it r : list Z) :
  fill_unspecified l it = Ok r →
  length r = length l ∧
  ∀ i x, r !! i = Some x →
    (l !! i = Some x ∧ x ≠ -1) ∨ (l !! i = Some (-1) ∧ x ∈ it).
Proof.
  revert it r. induction l as [|a l IH]; intros it r; simpl.
  - intros [= <-]. split; [done|]. intros i x Hx. by rewrite lookup_nil in Hx.
  - destruct (decide (a = -1)) as [->|Ha].
    + destruct it as [|p it]; [done|].
      intros (r' & Hr' & [= <-])%bind_Ok. destruct (IH _ _ Hr') as [Hlen Hl].
      split; [simpl; by rewrite Hlen|]. intros [|i] x; simpl.
      * intros [= <-]. right. split; [done|left].
      * intros Hx. destruct (Hl i x Hx) as [?|[? ?]]; [by left|right].
        split; [done|by right].
    + intros (r' & Hr' & [= <-])%bind_Ok. destruct (IH _ _ Hr') as [Hlen Hl].
      split; [simpl; by rewrite Hlen|]. intros [|i] x; simpl.
      * intros [= <-]. by left.
      * apply Hl.
Qed.

Lemma fill_unspecified_order (l it r : list Z) :
  StronglySorted Z.lt it → fill_unspecified l it = Ok r →
  ∀ (i j : nat) x y, (i < j)%nat → l !! i = Some (-1) → l !! j = Some (-1) →
    r !! i = Some x → r !! j = Some y → x < y.
Proof.
  revert it r. induction l as [|a l IH]; intros it r Hs; simpl.
  - intros _ i j x y _ Hi. by rewrite lookup_nil in Hi.
  - destruct (decide (a = -1)) as [->|Ha].
    + destruct it as [|p it]; [done|].
      intros (r' & Hr' & [= <-])%bind_Ok.
      apply StronglySorted_inv in Hs as [Hs Hp].
      intros [|i] [|j] x y Hij; simpl; try lia.
      * intros _ Hj [= <-] Hy.
        destruct (fill_unspecified_lookup _ _ _ Hr') as [_ Hl].
        destruct (Hl j y Hy) as [[? ?]|[_ Hin]]; [congruence|].
        rewrite Forall_forall in Hp. by apply Hp.
      * apply (IH it r' Hs Hr'). lia.
    + intros (r' & Hr' & [= <-])%bind_Ok.
      intros [|i] [|j] x y Hij; simpl; try lia.
      * intros [= ?]. done.
      * apply (IH it r' Hs Hr'). lia.
Qed.

Lemma StronglySorted_seqZ (m n : Z) : StronglySorted Z.lt (seqZ m n).
Proof.
  destruct (decide (n ≤ 0)) as [Hn|Hn]; [rewrite seqZ_nil by done; constructor|].
  rewrite <- (Z2Nat.id n) by lia. induction (Z.to_nat n) as [|k IH].
  - rewrite seqZ_nil by done. constructor.
  - rewrite seqZ_S. apply StronglySorted_app_2; [|done|repeat constructor].
    intros x y Hx ->%list_elem_of_singleton. apply elem_of_seqZ in Hx. lia.
Qed.


(** The map [old2new] of [normalizeOld2New], what its checks establish,
    the vector after the loop over the map and the positions left. *)
Definition reorder_map (n : Z) (l : list (Z * Z)) : gmap Z Z :=
  list_to_map (wrap_entry n <$> l).

Definition valid_reorder (n : Z) (M : gmap Z Z) : Prop :=
  0 ≤ n ≤ vector_max_size ∧ (∀ o nw, M !! o = Some nw → 0 ≤ o < n ∧ 0 ≤ nw < n) ∧
  NoDup (map_to_list M).*2.

Definition scattered (n : Z) (M : gmap Z Z) : list Z :=
  scatter (replicate (Z.to_nat n) (-1)) (map_to_list M).

Definition positions_left (n : Z) (v : list Z) : list Z :=
  filter (λ p, p ∉ (list_to_set v ∖ {[-1]} : gset Z)) (seqZ 0 n).

(** [normalizeOld2New] succeeds when its checks pass and the fill does. *)
Lemma normalizeOld2New_eq (l : list (Z * Z)) (n : Z) (r : list Z) :
  normalizeOld2New l n = Ok r ↔
  valid_reorder n (reorder_map n l) ∧
  fill_unspecified (scattered n (reorder_map n l))
    (positions_left n (scattered n (reorder_map n l))) = Ok r.
Proof.
  unfold normalizeOld2New. rewrite old2new_fold, (left_id_L ∅ (∪)).
  fold (reorder_map n l). set (M := reorder_map n l).
  rewrite !NVF_CHECK_bind_Ok, negb_true_iff, existsb_Forall, andb_true_iff.
  rewrite !bool_decide_eq_true, bind_Ok. unfold vector_of_size, valid_reorder.
  rewrite <- (length_map_to_list M) at 2.
  rewrite <- (length_fmap snd (map_to_list M)), size_list_to_set_NoDup.
  rewrite Forall_forall. split.
  - intros (Hr & [_ Hnd] & v & Hv & Hfill).
    destruct (decide (n < 0 ∨ vector_max_size < n)); [done|]. injection Hv as <-.
    split; [|done]. split; [lia|]. split; [|done].
    intros o nw Ho. apply elem_of_map_to_list in Ho. apply Hr in Ho.
    simpl in Ho. apply bool_decide_eq_false in Ho. lia.
  - intros [(Hn & Hr & Hnd) Hfill]. split_and!; [| |done|].
    + intros [o nw] Ho%elem_of_map_to_list. apply Hr in Ho. simpl.
      apply bool_decide_eq_false. lia.
    + rewrite size_list_to_set by apply NoDup_fst_map_to_list.
      by rewrite length_fmap, length_map_to_list.
    + exists (replicate (Z.to_nat n) (-1)). split; [|done].
      by rewrite decide_False by lia.
Qed.

Lemma position_NoDup (n : Z) (M : gmap Z Z) :
  valid_reorder n M → NoDup (position <$> map_to_list M).
Proof.
  intros (Hn & Hr & Hnd).
  replace (position <$> map_to_list M) with (Z.to_nat <$> (map_to_list M).*2)
    by (by rewrite <- list_fmap_compose).
  apply NoDup_fmap_2_strong; [|done].
  intros x y ([ox nx] & -> & Hx)%list_elem_of_fmap
    ([oy ny] & -> & Hy)%list_elem_of_fmap.
  apply elem_of_map_to_list, Hr in Hx. apply elem_of_map_to_list, Hr in Hy.
  simpl. lia.
Qed.

Lemma scattered_spec (n : Z) (M : gmap Z Z) :
  valid_reorder n M →
  length (scattered n M) = Z.to_nat n ∧
  (∀ o nw, M !! o = Some nw → scattered n M !! Z.to_nat nw = Some o) ∧
  (∀ i x, scattered n M !! i = Some x → x ≠ -1 → M !! x = Some (Z.of_nat i)) ∧
  (∀ i, (i < Z.to_nat n)%nat → M !! (scattered n M !!! i) ≠ Some (Z.of_nat i) →
        scattered n M !! i = Some (-1)) ∧
  (unset (scattered n M) + size M = Z.to_nat n)%nat.
Proof.
  intros Hvalid. pose proof (position_NoDup n M Hvalid) as Hpos.
  destruct Hvalid as (Hn & Hr & Hnd).
  destruct (scatter_lookup (map_to_list M) (replicate (Z.to_nat n) (-1)) Hpos)
    as (Hlen & Hin & Hout).
  { apply Forall_forall. intros [o nw] Ho%elem_of_map_to_list.
    apply Hr in Ho. rewrite length_replicate. unfold position. simpl. lia. }
  rewrite length_replicate in Hlen. fold (scattered n M) in *.
  assert (Hset : ∀ i x, scattered n M !! i = Some x → x ≠ -1 →
                        M !! x = Some (Z.of_nat i)).
  { intros i x Hx Hne.
    destruct (decide (i ∈ position <$> map_to_list M)) as [Hi|Hi].
    - apply list_elem_of_fmap in Hi as ([o nw] & -> & Ho).
      rewrite (Hin _ Ho) in Hx. injection Hx as <-.
      apply elem_of_map_to_list in Ho. rewrite Ho. f_equal.
      apply Hr in Ho. unfold position. simpl. lia.
    - rewrite Hout in Hx by done. apply lookup_replicate in Hx as [-> _]. done. }
  split_and!; [done| |done| | ].
  - intros o nw Ho. by apply (Hin (o, nw)), elem_of_map_to_list.
  - intros i Hi Hne.
    destruct (lookup_lt_is_Some_2 (scattered n M) i) as [x Hx]; [lia|].
    rewrite (list_lookup_total_correct _ _ _ Hx) in Hne.
    destruct (decide (x = -1)) as [->|Hx1]; [done|].
    by specialize (Hset i x Hx Hx1).
  - rewrite <- (length_map_to_list M). unfold scattered.
    rewrite (scatter_unset (map_to_list M) (replicate (Z.to_nat n) (-1)) Hpos).
    + apply unset_replicate.
    + intros [o nw] Ho%elem_of_map_to_list. apply Hr in Ho. split.
      * apply lookup_replicate. unfold position. simpl. split; [done|lia].
      * simpl. lia.
Qed.

Lemma elem_of_positions_left (n : Z) (M : gmap Z Z) (p : Z) :
  valid_reorder n M →
  p ∈ positions_left n (scattered n M) ↔ 0 ≤ p < n ∧ M !! p = None.
Proof.
  intros Hvalid. destruct (scattered_spec n M Hvalid) as (Hlen & Hin & Hset & _).
  destruct Hvalid as (Hn & Hr & Hnd).
  unfold positions_left. rewrite list_elem_of_filter, elem_of_seqZ.
  rewrite elem_of_difference, elem_of_list_to_set, not_elem_of_singleton.
  split.
  - intros [Hp Hrange]. split; [lia|].
    destruct (M !! p) as [nw|] eqn:HM; [|done]. exfalso. apply Hp. split.
    + eapply list_elem_of_lookup_2. by apply Hin.
    + apply Hr in HM. lia.
  - intros [Hrange HM]. split; [|lia].
    intros [[i Hi]%list_elem_of_lookup Hne].
    specialize (Hset i p Hi Hne). congruence.
Qed.

Lemma length_positions_left (n : Z) (M : gmap Z Z) :
  valid_reorder n M →
  (length (positions_left n (scattered n M)) + size M = Z.to_nat n)%nat.
Proof.
  intros Hvalid.
  pose proof (λ p, elem_of_positions_left n M p Hvalid) as Hel.
  pose proof Hvalid as (Hn & Hr & Hnd).
  pose proof (filter_app_complement
    (λ p, p ∉ (list_to_set (scattered n M) ∖ {[-1]} : gset Z)) (seqZ 0 n)) as HP.
  apply Permutation_length in HP. rewrite length_app, length_seqZ in HP.
  fold (positions_left n (scattered n M)) in HP.
  assert (Hk : filter (λ p, ¬ (p ∉ (list_to_set (scattered n M) ∖ {[-1]} : gset Z)))
                 (seqZ 0 n) ≡ₚ (map_to_list M).*1).
  { apply NoDup_Permutation.
    - apply NoDup_filter, NoDup_seqZ.
    - apply NoDup_fst_map_to_list.
    - intros p. rewrite list_elem_of_filter. split.
      + intros [Hp Hrange]. apply elem_of_seqZ in Hrange.
        destruct (M !! p) as [nw|] eqn:HM.
        * apply list_elem_of_fmap. exists (p, nw). split; [done|].
          by apply elem_of_map_to_list.
        * exfalso. apply Hp.
          assert (Hin : p ∈ positions_left n (scattered n M))
            by (apply Hel; split; [lia|done]).
          unfold positions_left in Hin.
          by apply list_elem_of_filter in Hin as [Hin _].
      + intros ([o nw] & -> & Ho%elem_of_map_to_list)%list_elem_of_fmap. simpl.
        pose proof (Hr _ _ Ho). split; [|apply elem_of_seqZ; lia].
        intros Hp. assert (Hin : o ∈ positions_left n (scattered n M)).
        { apply list_elem_of_filter. split; [done|apply elem_of_seqZ; lia]. }
        apply Hel in Hin as [_ Hin]. congruence. }
  apply Permutation_length in Hk. rewrite length_fmap, length_map_to_list in Hk.
  lia.
Qed.

(** There are as many positions left as positions still at [-1]. *)
Lemma valid_reorder_fills (n : Z) (M : gmap Z Z) :
  valid_reorder n M →
  ∃ r, fill_unspecified (scattered n M) (positions_left n (scattered n M)) = Ok r.
Proof.
  intros Hvalid. apply fill_unspecified_succeeds.
  destruct (scattered_spec n M Hvalid) as (_ & _ & _ & _ & Hunset).
  pose proof (length_positions_left n M Hvalid). lia.
Qed.

(** What the result is, position by position. *)
Lemma normalizeOld2New_lookup (n : Z) (M : gmap Z Z) (r : list Z) :
  valid_reorder n M →
  fill_unspecified (scattered n M) (positions_left n (scattered n M)) = Ok r →
  length r = Z.to_nat n ∧
  (∀ o nw, M !! o = Some nw → r !! Z.to_nat nw = Some o) ∧
  (∀ i x, r !! i = Some x →
     M !! x = Some (Z.of_nat i) ∨
     (scattered n M !! i = Some (-1) ∧ 0 ≤ x < n ∧ M !! x = None)) ∧
  (∀ (i j : nat) x y, (i < j)%nat →
     r !! i = Some x → r !! j = Some y →
     M !! x ≠ Some (Z.of_nat i) → M !! y ≠ Some (Z.of_nat j) → x < y).
Proof.
  intros Hvalid Hfill.
  destruct (scattered_spec n M Hvalid) as (Hlen & Hin & Hset & Hun & _).
  destruct (fill_unspecified_lookup _ _ _ Hfill) as [Hrlen Hr].
  assert (Hcases : ∀ i x, r !! i = Some x →
     M !! x = Some (Z.of_nat i) ∨
     (scattered n M !! i = Some (-1) ∧ 0 ≤ x < n ∧ M !! x = None)).
  { intros i x Hx. destruct (Hr i x Hx) as [[Hs Hne]|[Hs Hp]].
    - left. by apply Hset.
    - right. split; [done|]. by apply elem_of_positions_left in Hp. }
  split_and!; [congruence| |done|].
  - intros o nw Ho. specialize (Hin o nw Ho).
    destruct (lookup_lt_is_Some_2 r (Z.to_nat nw)) as [x Hx].
    { rewrite Hrlen. by eapply lookup_lt_Some. }
    destruct (Hr _ _ Hx) as [[Hs _]|[Hs _]]; [congruence|].
    rewrite Hin in Hs. injection Hs as ->. destruct Hvalid as (_ & HM & _).
    apply HM in Ho. lia.
  - intros i j x y Hij Hx Hy Hnx Hny.
    eapply (fill_unspecified_order _ _ _ (StronglySorted_filter _ _ _
              (StronglySorted_seqZ 0 n)) Hfill i j); [done| | |done..].
    + destruct (Hcases i x Hx) as [?|[? _]]; done.
    + destruct (Hcases j y Hy) as [?|[? _]]; done.
Qed.

Lemma normalizeOld2New_perm (n : Z) (M : gmap Z Z) (r : list Z) :
  valid_reorder n M →
  fill_unspecified (scattered n M) (positions_left n (scattered n M)) = Ok r →
  Z.of_nat (length r) = n ∧ Forall (λ e, 0 ≤ e < n) r ∧ NoDup r.
Proof.
  intros Hvalid Hfill.
  destruct (normalizeOld2New_lookup n M r Hvalid Hfill)
    as (Hlen & Hmapped & Hcases & Horder).
  pose proof Hvalid as (Hn & HM & _).
  split_and!; [lia|..].
  - apply Forall_forall. intros x [i Hx]%list_elem_of_lookup.
    destruct (Hcases i x Hx) as [Hx'|(_ & ? & _)]; [|done]. apply HM in Hx'. tauto.
  - apply NoDup_alt. intros i j x Hi Hj.
    destruct (Hcases i x Hi) as [Hxi|(_ & _ & Hxi)],
             (Hcases j x Hj) as [Hxj|(_ & _ & Hxj)]; try congruence.
    + rewrite Hxi in Hxj. injection Hxj. lia.
    + destruct (Nat.lt_total i j) as [Hlt|[->|Hlt]]; [|done|].
      * assert (x < x); [|lia]. apply (Horder i j x x Hlt Hi Hj); congruence.
      * assert (x < x); [|lia]. apply (Horder j i x x Hlt Hj Hi); congruence.
Qed.


Lemma wrap_dim_range (n e : Z) : 0 ≤ wrap_dim n e < n ↔ -n ≤ e < n.
Proof. unfold wrap_dim. destruct (decide (e < 0)); lia. Qed.

Lemma wrap_dim_mod (n e : Z) : -n ≤ e < n → wrap_dim n e = e `mod` n.
Proof.
  intros He. unfold wrap_dim. destruct (decide (e < 0)).
  - rewrite <- (Z.mod_small (e + n) n) by lia.
    rewrite <- (Z.mul_1_l n) at 1. by rewrite Z.mod_add by lia.
  - by rewrite Z.mod_small by lia.
Qed.

Lemma wrap_dim_congr (n a b : Z) :
  wrap_dim n a = wrap_dim n b → a `mod` n = b `mod` n.
Proof.
  destruct (decide (n = 0)) as [->|Hn].
  { unfold wrap_dim. repeat case_decide; intros; f_equal; lia. }
  assert (Hw : ∀ e, wrap_dim n e `mod` n = e `mod` n).
  { intros e. unfold wrap_dim. destruct (decide (e < 0)); [|done].
    rewrite <- (Z.mul_1_l n) at 1. by rewrite Z.mod_add. }
  intros Heq. by rewrite <- (Hw a), <- (Hw b), Heq.
Qed.

Lemma wrap_fmap_mod (n : Z) (l : list Z) :
  Forall (λ e, -n ≤ e < n) l → wrap_dim n <$> l = (λ e, e `mod` n) <$> l.
Proof.
  intros Hl. apply list_fmap_ext. intros i e He.
  apply wrap_dim_mod. rewrite Forall_forall in Hl.
  by eapply Hl, list_elem_of_lookup_2.
Qed.

(** X1.  A successful [normalizeNew2Old] returns a permutation of the
    positions [0], ..., [ndims - 1]; each entry of the result is the entry
    given at that place, taken modulo the number of dimensions. *)
Theorem normalizeNew2Old_permutation (new2old_in : list Z) (ndims : Z)
    (new2old : list Z) :
  normalizeNew2Old new2old_in ndims = Ok new2old →
  new2old ≡ₚ seqZ 0 ndims ∧
  Forall2 (λ entry axis, axis = entry `mod` ndims) new2old_in new2old.
Proof.
  intros (-> & Hlen & Hr & Hnd)%normalizeNew2Old_Ok. split.
  - apply in_range_Permutation; [by rewrite length_fmap|done..].
  - apply Forall2_fmap_r, Forall_Forall2_diag.
    rewrite Forall_fmap in Hr. eapply Forall_impl; [done|].
    intros e He. simpl in He. by apply wrap_dim_mod, wrap_dim_range.
Qed.

Lemma normalizeNew2Old_permutation_witness :
  [2; 0; 1] ≡ₚ seqZ 0 3 ∧
  Forall2 (λ entry axis, axis = entry `mod` 3) [-1; 0; 1] [2; 0; 1].
Proof. by apply (normalizeNew2Old_permutation [-1; 0; 1] 3 [2; 0; 1]). Defined.

(** X2.  [normalizeNew2Old] succeeds exactly when there is one entry for
    each dimension, every entry lies between [-ndims] and [ndims - 1], and
    no two entries denote the same axis. *)
Theorem normalizeNew2Old_succeeds_iff (new2old_in : list Z) (ndims : Z) :
  is_Ok (normalizeNew2Old new2old_in ndims) = true ↔
  Z.of_nat (length new2old_in) = ndims ∧
  Forall (λ entry, -ndims ≤ entry < ndims) new2old_in ∧
  NoDup ((λ entry, entry `mod` ndims) <$> new2old_in).
Proof.
  rewrite is_Ok_true. split.
  - intros [r (-> & Hlen & Hr & Hnd)%normalizeNew2Old_Ok].
    assert (Hin : Forall (λ e, - ndims ≤ e < ndims) new2old_in).
    { rewrite Forall_fmap in Hr. eapply Forall_impl; [done|].
      intros e He. by apply wrap_dim_range. }
    split_and!; [done..|]. by rewrite <- wrap_fmap_mod.
  - intros (Hlen & Hin & Hnd). exists (wrap_dim ndims <$> new2old_in).
    apply normalizeNew2Old_Ok. split_and!; [done..| |].
    + rewrite Forall_fmap. eapply Forall_impl; [done|].
      intros e He. by apply wrap_dim_range.
    + by rewrite wrap_fmap_mod.
Qed.

Lemma wrap_dim_id (n e : Z) : 0 ≤ e → wrap_dim n e = e.
Proof. intros He. unfold wrap_dim. by rewrite decide_False by lia. Qed.

Lemma normalizeNew2Old_canonical (n : Z) (r : list Z) :
  Z.of_nat (length r) = n → Forall (λ e, 0 ≤ e < n) r → NoDup r →
  normalizeNew2Old r n = Ok r.
Proof.
  intros Hlen Hr Hnd. apply normalizeNew2Old_Ok.
  assert (Hid : wrap_dim n <$> r = r).
  { rewrite <- (list_fmap_id r) at 2. apply list_fmap_ext. intros i e He.
    apply wrap_dim_id. rewrite Forall_forall in Hr.
    by eapply Hr, list_elem_of_lookup_2. }
  by rewrite Hid.
Qed.

(** X3.  The vector [normalizeNew2Old] returns is normalized: normalizing
    it again succeeds and returns it unchanged. *)
Theorem normalizeNew2Old_idempotent (new2old_in : list Z) (ndims : Z)
    (new2old : list Z) :
  normalizeNew2Old new2old_in ndims = Ok new2old →
  normalizeNew2Old new2old ndims = Ok new2old.
Proof.
  intros (-> & Hlen & Hr & Hnd)%normalizeNew2Old_Ok.
  apply normalizeNew2Old_canonical; [by rewrite length_fmap|done..].
Qed.

Lemma normalizeNew2Old_idempotent_witness :
  normalizeNew2Old [2; 0; 1] 3 = Ok [2; 0; 1].
Proof. by apply (normalizeNew2Old_idempotent [-1; 0; 1] 3). Defined.

(** X4.  A successful [normalizeOld2New] returns a permutation of the
    positions [0], ..., [ndims - 1], whichever axes the map mentions. *)
Theorem normalizeOld2New_permutation (old2new_in : list (Z * Z)) (ndims : Z)
    (new2old : list Z) :
  normalizeOld2New old2new_in ndims = Ok new2old →
  new2old ≡ₚ seqZ 0 ndims.
Proof.
  intros [Hvalid Hfill]%normalizeOld2New_eq.
  destruct (normalizeOld2New_perm _ _ _ Hvalid Hfill) as (Hlen & Hr & Hnd).
  by apply in_range_Permutation.
Qed.

Lemma normalizeOld2New_permutation_witness : [1; 2; 0] ≡ₚ seqZ 0 3.
Proof. by apply (normalizeOld2New_permutation [(0, -1)] 3). Defined.

(** X5.  The new-to-old vector [normalizeOld2New] returns is accepted by
    [normalizeNew2Old], which returns it unchanged. *)
Theorem normalizeOld2New_valid (old2new_in : list (Z * Z)) (ndims : Z)
    (new2old : list Z) :
  normalizeOld2New old2new_in ndims = Ok new2old →
  normalizeNew2Old new2old ndims = Ok new2old.
Proof.
  intros [Hvalid Hfill]%normalizeOld2New_eq.
  destruct (normalizeOld2New_perm _ _ _ Hvalid Hfill) as (Hlen & Hr & Hnd).
  by apply normalizeNew2Old_canonical.
Qed.

Lemma normalizeOld2New_valid_witness :
  normalizeNew2Old [1; 2; 0] 3 = Ok [1; 2; 0].
Proof. by apply (normalizeOld2New_valid [(0, -1)] 3). Defined.


Lemma wrap_entry_keys (n : Z) (l : list (Z * Z)) :
  NoDup ((λ e, e.1 `mod` n) <$> l) → NoDup (wrap_entry n <$> l).*1.
Proof.
  intros Hnd. rewrite <- list_fmap_compose.
  eapply NoDup_fmap_congr; [|done]. intros x y. apply wrap_dim_congr.
Qed.

Lemma reorder_map_lookup (n : Z) (l : list (Z * Z)) (e : Z * Z) :
  NoDup ((λ e, e.1 `mod` n) <$> l) → e ∈ l →
  reorder_map n l !! wrap_dim n e.1 = Some (wrap_dim n e.2).
Proof.
  intros Hnd He. apply elem_of_list_to_map_1; [by apply wrap_entry_keys|].
  apply list_elem_of_fmap. by exists e.
Qed.

Lemma reorder_map_inv (n : Z) (l : list (Z * Z)) (o nw : Z) :
  reorder_map n l !! o = Some nw →
  ∃ e, e ∈ l ∧ o = wrap_dim n e.1 ∧ nw = wrap_dim n e.2.
Proof.
  intros (e & [= -> ->] & He)%elem_of_list_to_map_2%list_elem_of_fmap. eauto.
Qed.

(** X6.  When the keys of the map denote distinct axes, every entry of the
    map is honoured: the result holds the old position at the new position,
    both taken modulo the number of dimensions. *)
Theorem normalizeOld2New_honours (old2new_in : list (Z * Z)) (ndims : Z)
    (new2old : list Z) :
  NoDup ((λ entry, entry.1 `mod` ndims) <$> old2new_in) →
  normalizeOld2New old2new_in ndims = Ok new2old →
  ∀ old_pos new_pos, (old_pos, new_pos) ∈ old2new_in →
    new2old !! Z.to_nat (new_pos `mod` ndims) = Some (old_pos `mod` ndims).
Proof.
  intros Hkeys [Hvalid Hfill]%normalizeOld2New_eq o nw Hin.
  destruct (normalizeOld2New_lookup _ _ _ Hvalid Hfill) as (_ & Hmapped & _).
  pose proof (reorder_map_lookup _ _ _ Hkeys Hin) as HM. simpl in HM.
  destruct Hvalid as (_ & Hr & _). destruct (Hr _ _ HM) as [Ho Hnw].
  apply wrap_dim_range in Ho, Hnw.
  rewrite <- !wrap_dim_mod by done. by apply Hmapped.
Qed.

Lemma normalizeOld2New_honours_witness :
  [2; 1; 0] !! Z.to_nat ((-1) `mod` 3) = Some (0 `mod` 3).
Proof.
  apply (normalizeOld2New_honours [(0, -1); (-1, 0)] 3 [2; 1; 0]).
  - compute_done.
  - reflexivity.
  - left.
Defined.

(** X7.  The axes the map does not place keep their relative order: at two
    positions no entry of the map targets, the result is increasing. *)
Theorem normalizeOld2New_keeps_order (old2new_in : list (Z * Z)) (ndims : Z)
    (new2old : list Z) :
  normalizeOld2New old2new_in ndims = Ok new2old →
  ∀ (i j : nat) x y,
    (i < j)%nat → new2old !! i = Some x → new2old !! j = Some y →
    (∀ entry, entry ∈ old2new_in → entry.2 `mod` ndims ≠ Z.of_nat i) →
    (∀ entry, entry ∈ old2new_in → entry.2 `mod` ndims ≠ Z.of_nat j) →
    x < y.
Proof.
  intros [Hvalid Hfill]%normalizeOld2New_eq i j x y Hij Hx Hy Hi Hj.
  destruct (normalizeOld2New_lookup _ _ _ Hvalid Hfill) as (_ & _ & _ & Horder).
  destruct Hvalid as (_ & Hr & _).
  assert (Hfree : ∀ (k : nat) z,
            (∀ entry, entry ∈ old2new_in → entry.2 `mod` ndims ≠ Z.of_nat k) →
            reorder_map ndims old2new_in !! z ≠ Some (Z.of_nat k)).
  { intros k z Hk HM. destruct (Hr _ _ HM) as [_ Hrange].
    apply reorder_map_inv in HM as (e & He & _ & Hnw).
    apply (Hk e He). rewrite Hnw in Hrange. apply wrap_dim_range in Hrange.
    by rewrite <- wrap_dim_mod. }
  eapply (Horder i j x y); eauto.
Qed.

Lemma normalizeOld2New_keeps_order_witness :
  [1; 2; 0] !! 0%nat = Some 1 ∧ [1; 2; 0] !! 1%nat = Some 2 ∧ 1 < 2.
Proof.
  split_and!; [reflexivity..|].
  apply (normalizeOld2New_keeps_order [(0, -1)] 3 [1; 2; 0] eq_refl 0 1).
  - lia.
  - reflexivity.
  - reflexivity.
  - intros entry ->%list_elem_of_singleton. done.
  - intros entry ->%list_elem_of_singleton. done.
Defined.

(** X8.  When the keys of the map denote distinct axes, [normalizeOld2New]
    succeeds exactly when the number of dimensions is not negative and not
    above the largest size of a vector, every old and new position lies
    between [-ndims] and [ndims - 1], and no two entries target the same
    position.  In particular the positions left are never exhausted while
    the result is filled. *)
Theorem normalizeOld2New_succeeds_iff (old2new_in : list (Z * Z)) (ndims : Z) :
  NoDup ((λ entry, entry.1 `mod` ndims) <$> old2new_in) →
  is_Ok (normalizeOld2New old2new_in ndims) = true ↔
  0 ≤ ndims ≤ vector_max_size ∧
  Forall (λ entry, (-ndims ≤ entry.1 < ndims) ∧ (-ndims ≤ entry.2 < ndims))
    old2new_in ∧
  NoDup ((λ entry, entry.2 `mod` ndims) <$> old2new_in).
Proof.
  intros Hkeys. rewrite is_Ok_true.
  pose proof (map_to_list_to_map (M := gmap Z) _
                (wrap_entry_keys ndims old2new_in Hkeys)) as Hperm.
  fold (reorder_map ndims old2new_in) in Hperm.
  assert (Hsnd : Forall (λ entry, (-ndims ≤ entry.1 < ndims) ∧
                                  (-ndims ≤ entry.2 < ndims)) old2new_in →
                 (wrap_entry ndims <$> old2new_in).*2
                 = (λ entry, entry.2 `mod` ndims) <$> old2new_in).
  { intros Hr. rewrite <- list_fmap_compose. apply list_fmap_ext.
    intros i e He. simpl. apply wrap_dim_mod. rewrite Forall_forall in Hr.
    by eapply Hr, list_elem_of_lookup_2. }
  split.
  - intros [r [Hvalid Hfill]%normalizeOld2New_eq].
    destruct Hvalid as (Hn & Hr & Hnd).
    assert (Hrange : Forall (λ entry, (-ndims ≤ entry.1 < ndims) ∧
                                      (-ndims ≤ entry.2 < ndims)) old2new_in).
    { apply Forall_forall. intros e He.
      pose proof (reorder_map_lookup _ _ _ Hkeys He) as HM.
      apply Hr in HM. by rewrite !wrap_dim_range in HM. }
    split; [done|]. split; [done|]. by rewrite <- Hsnd, <- Hperm.
  - intros (Hn & Hrange & Hnd).
    assert (Hvalid : valid_reorder ndims (reorder_map ndims old2new_in)).
    { split; [done|]. split.
      - intros o nw (e & He & -> & ->)%reorder_map_inv.
        rewrite Forall_forall in Hrange. rewrite !wrap_dim_range.
        by apply Hrange.
      - by rewrite Hperm, Hsnd. }
    destruct (valid_reorder_fills _ _ Hvalid) as [r Hr]. exists r.
    by apply normalizeOld2New_eq.
Qed.

Lemma normalizeOld2New_succeeds_iff_witness :
  is_Ok (normalizeOld2New [(0, -1); (-1, 0)] 3) = true ↔
  0 ≤ 3 ≤ vector_max_size ∧
  Forall (λ entry : Z * Z, (-3 ≤ entry.1 < 3) ∧ (-3 ≤ entry.2 < 3))
    [(0, -1); (-1, 0)] ∧
  NoDup ((λ entry : Z * Z, entry.2 `mod` 3) <$> [(0, -1); (-1, 0)]).
Proof.
  apply (normalizeOld2New_succeeds_iff [(0, -1); (-1, 0)] 3). compute_done.
Defined.

Lemma fill_unspecified_replicate (it : list Z) :
  fill_unspecified (replicate (length it) (-1)) it = Ok it.
Proof.
  induction it as [|p it IH]; simpl; [done|]. by rewrite IH.
Qed.

(** X9.  The empty map is the identity reordering, for every number of
    dimensions a vector can hold; a negative or larger number of dimensions
    makes the constructor of the result throw. *)
Theorem normalizeOld2New_empty (ndims : Z) :
  (0 ≤ ndims ≤ vector_max_size →
   normalizeOld2New [] ndims = Ok (seqZ 0 ndims)) ∧
  (ndims < 0 ∨ vector_max_size < ndims →
   normalizeOld2New [] ndims = Err "std::length_error").
Proof.
  split.
  2:{ intros Hn. unfold normalizeOld2New, vector_of_size. simpl.
      rewrite map_to_list_empty. simpl. by rewrite decide_True. }
  intros Hn. apply normalizeOld2New_eq.
  assert (HM : reorder_map ndims [] = ∅) by done.
  assert (Hs : scattered ndims ∅ = replicate (Z.to_nat ndims) (-1))
    by (unfold scattered; by rewrite map_to_list_empty).
  rewrite HM, Hs. split.
  - split; [done|]. split; [|rewrite map_to_list_empty; constructor].
    intros o nw. by rewrite lookup_empty.
  - assert (Hleft : positions_left ndims (replicate (Z.to_nat ndims) (-1))
                    = seqZ 0 ndims).
    { unfold positions_left. apply filter_Forall_id. apply Forall_forall.
      intros p _. rewrite elem_of_difference, elem_of_list_to_set.
      intros [[-> _]%elem_of_replicate Hp]. set_solver. }
    rewrite Hleft. rewrite <- (length_seqZ 0 ndims) at 1.
    apply fill_unspecified_replicate.
Qed.

Lemma normalizeOld2New_empty_witness :
  normalizeOld2New [] 4 = Ok (seqZ 0 4) ∧
  normalizeOld2New [] (-1) = Err "std::length_error" ∧
  normalizeOld2New [] (2 ^ 60) = Err "std::length_error".
Proof.
  split_and!.
  - apply (normalizeOld2New_empty 4). compute_done.
  - apply (normalizeOld2New_empty (-1)). left. lia.
  - apply (normalizeOld2New_empty (2 ^ 60)). right. compute_done.
Defined.

Lemma wrap_entry_fst (n : Z) (l : list (Z * Z)) :
  (wrap_entry n <$> l).*1 = wrap_dim n <$> l.*1.
Proof. rewrite <- !list_fmap_compose. by apply list_fmap_ext. Qed.

(** X10.  Two keys that denote the same axis, as a position and the same
    position counted from the end do, are not reported as duplicates: the
    entry met later is dropped, whatever it maps to. *)
Theorem normalizeOld2New_first_wins (old2new_in : list (Z * Z)) (ndims : Z)
    (old_pos new_pos : Z) :
  wrap_dim ndims old_pos ∈ wrap_dim ndims <$> old2new_in.*1 →
  normalizeOld2New (old2new_in ++ [(old_pos, new_pos)]) ndims
  = normalizeOld2New old2new_in ndims.
Proof.
  intros Hin. unfold normalizeOld2New. rewrite foldl_app. simpl.
  set (M := foldl (old2new_insert ndims) ∅ old2new_in).
  assert (HM : old2new_insert ndims M (old_pos, new_pos) = M); [|by rewrite HM].
  unfold old2new_insert. simpl.
  destruct (M !! wrap_dim ndims old_pos) eqn:Hk; [done|]. exfalso.
  unfold M in Hk. rewrite old2new_fold, (left_id_L ∅ (∪)) in Hk.
  apply not_elem_of_list_to_map in Hk. apply Hk.
  by rewrite wrap_entry_fst.
Qed.

Lemma normalizeOld2New_first_wins_witness :
  normalizeOld2New ([(2, 0)] ++ [(-1, 1)]) 3 = normalizeOld2New [(2, 0)] 3.
Proof. apply (normalizeOld2New_first_wins [(2, 0)] 3 (-1) 1). compute_done. Defined.

Example normalizeOld2New_run :
  normalizeOld2New [(0, -1)] 3 = Ok [1; 2; 0] ∧
  normalizeOld2New [(0, 1); (2, 1)] 3
  = Err "Duplicate entries in transformation map sent to TensorView reorder." ∧
  normalizeOld2New [(3, 0)] 3
  = Err "Reorder axes are not within the number of dimensions of the provided domain." ∧
  normalizeNew2Old [0; 0] 2 = Err "Duplicate entries in transformation map.".
Proof. split_and!; vm_compute; reflexivity. Qed.

End axes_properties.


(** ** What [isRecursivelyDefined] answers *)

(** [i] is an input of the definition of [v]. *)
Definition producer (f : Fusion) (v i : nat) : Prop :=
  ∃ d, definition f v = Some d ∧ i ∈ expr_inputs f d.

Lemma isRecursivelyDefined_inputs_val (val : nat) (visited : gset nat)
    (inps q : list nat) :
  match isRecursivelyDefined_inputs val visited inps q with
  | inl _ => val ∈ inps
  | inr _ => val ∉ inps
  end.
Proof.
  revert q. induction inps as [|i inps IH]; intros q; simpl.
  - apply not_elem_of_nil.
  - destruct (decide (i = val)) as [->|Hi]; [left|].
    destruct (decide (i ∈ visited)).
    + specialize (IH q). destruct (isRecursivelyDefined_inputs _ _ _ _).
      * by right.
      * apply not_elem_of_cons. by split.
    + specialize (IH (q ++ [i])). destruct (isRecursivelyDefined_inputs _ _ _ _).
      * by right.
      * apply not_elem_of_cons. by split.
Qed.

Section recursive.
Context (f : Fusion) (val : nat).

(** What holds of the queue and of the visited set at every turn of the
    loop: the queued values are reached from [val]; a visited value has
    no input equal to [val], and its inputs are visited or queued. *)
Record recursive_inv (q : list nat) (visited : gset nat) : Prop := {
  inv_queue : ∀ x, x ∈ q → rtc (producer f) val x;
  inv_visited : ∀ x i, x ∈ visited → producer f x i →
                i ≠ val ∧ (i ∈ visited ∨ i ∈ q);
  inv_val : val ∈ visited ∨ val ∈ q;
}.

Lemma recursive_inv_initial : recursive_inv [val] ∅.
Proof.
  split.
  - intros x ->%list_elem_of_singleton. done.
  - intros x i Hx. by apply elem_of_empty in Hx.
  - right. left.
Qed.

Lemma recursive_inv_step (v : nat) (rest q : list nat) (visited : gset nat) :
  recursive_inv (v :: rest) visited →
  isRecursivelyDefined_step f val v rest visited = inr q →
  recursive_inv q ({[v]} ∪ visited).
Proof.
  intros [Hq Hvis Hval] Hstep. unfold isRecursivelyDefined_step in Hstep.
  destruct (definition f v) as [d|] eqn:Hd.
  - pose proof (isRecursivelyDefined_inputs_val val ({[v]} ∪ visited)
                  (expr_inputs f d) rest) as Hno.
    rewrite Hstep in Hno.
    apply isRecursivelyDefined_inputs_inr in Hstep as ->. split.
    + intros x [Hx|[_ Hx]%list_elem_of_filter]%elem_of_app.
      * apply Hq. by right.
      * eapply rtc_r; [apply Hq; left|]. by exists d.
    + intros x i [->%elem_of_singleton|Hx]%elem_of_union Hp.
      * destruct Hp as (d' & Hd' & Hi). rewrite Hd in Hd'. injection Hd' as <-.
        split; [by intros ->|].
        destruct (decide (i ∈ {[v]} ∪ visited)); [by left|right].
        apply elem_of_app. right. by apply list_elem_of_filter.
      * destruct (Hvis x i Hx Hp) as [Hne [Hi|[->|Hi]%elem_of_cons]].
        -- split; [done|left]. set_solver.
        -- split; [done|left]. set_solver.
        -- split; [done|right]. apply elem_of_app. by left.
    + destruct Hval as [Hv|[->|Hv]%elem_of_cons].
      * left. set_solver.
      * left. set_solver.
      * right. apply elem_of_app. by left.
  - injection Hstep as <-. split.
    + intros x Hx. apply Hq. by right.
    + intros x i [->%elem_of_singleton|Hx]%elem_of_union Hp.
      * destruct Hp as (d' & Hd' & _). congruence.
      * destruct (Hvis x i Hx Hp) as [Hne [Hi|[->|Hi]%elem_of_cons]].
        -- split; [done|left]. set_solver.
        -- split; [done|left]. set_solver.
        -- by split; [|right].
    + destruct Hval as [Hv|[->|Hv]%elem_of_cons].
      * left. set_solver.
      * left. set_solver.
      * by right.
Qed.

Lemma recursive_inv_found (v : nat) (rest : list nat) (visited : gset nat) u :
  recursive_inv (v :: rest) visited →
  isRecursivelyDefined_step f val v rest visited = inl u →
  tc (producer f) val val.
Proof.
  intros [Hq _ _] Hstep. unfold isRecursivelyDefined_step in Hstep.
  destruct (definition f v) as [d|] eqn:Hd; [|done].
  pose proof (isRecursivelyDefined_inputs_val val ({[v]} ∪ visited)
                (expr_inputs f d) rest) as Hin.
  rewrite Hstep in Hin.
  eapply tc_rtc_l; [apply Hq; left|]. apply tc_once. by exists d.
Qed.

Lemma recursive_inv_drained (visited : gset nat) :
  recursive_inv [] visited → ¬ tc (producer f) val val.
Proof.
  intros [_ Hvis Hval] Htc.
  assert (Hv : val ∈ visited).
  { destruct Hval as [?|Hv]; [done|]. by apply elem_of_nil in Hv. }
  assert (Hclosed : ∀ x, rtc (producer f) val x → x ∈ visited).
  { apply rtc_ind_r; [done|]. intros x y _ Hxy Hx.
    destruct (Hvis x y Hx Hxy) as [_ [?|Hy]]; [done|].
    by apply elem_of_nil in Hy. }
  apply tc_last_step in Htc as (y & Hy & Hp).
  destruct (Hvis y val (Hclosed y Hy) Hp) as [Hne _]. done.
Qed.

Lemma isRecursivelyDefined_loop_correct (fuel : nat) (q : list nat)
    (visited : gset nat) (b : bool) :
  recursive_inv q visited →
  isRecursivelyDefined_loop fuel f val q visited = Some b →
  (b = true ↔ tc (producer f) val val).
Proof.
  revert q visited. induction fuel as [|fuel IH]; intros q visited Hinv; [done|].
  simpl. destruct q as [|v rest].
  - intros [= <-]. split; [done|]. intros Htc.
    by destruct (recursive_inv_drained visited Hinv).
  - destruct (isRecursivelyDefined_step f val v rest visited) as [u|q'] eqn:Hstep.
    + intros [= <-]. split; [|done]. intros _.
      by eapply recursive_inv_found.
    + apply IH. by eapply recursive_inv_step.
Qed.

End recursive.

(** X11.  Whenever [isRecursivelyDefined] returns, it returns true exactly
    when the value is reached from itself through one or more steps from a
    value to an input of its definition. *)
Theorem isRecursivelyDefined_correct (fuel : nat) (f : Fusion) (val : nat)
    (b : bool) :
  isRecursivelyDefined fuel f val = Some b →
  (b = true ↔ tc (producer f) val val).
Proof.
  apply isRecursivelyDefined_loop_correct, recursive_inv_initial.
Qed.


Lemma isRecursivelyDefined_correct_witness :
  true = true ↔ tc (producer cyclic_graph) 0 0.
Proof.
  apply (isRecursivelyDefined_correct 10 cyclic_graph 0 true).
  vm_compute. reflexivity.
Defined.

(** ** What [getOperationCount] counts *)

(** The sum of a list of counts. *)
Definition Zsum (l : list Z) : Z := foldr Z.add 0%Z l.

Lemma Zsum_app (l k : list Z) : Zsum (l ++ k) = (Zsum l + Zsum k)%Z.
Proof. induction l as [|x l IH]; simpl; [done|]. rewrite IH. lia. Qed.

(** The operations above a value, counted along every path, when the
    definitions above it are at most [depth] deep. *)
Fixpoint op_tree (depth : nat) (f : Fusion) (v : nat) : option Z :=
  match depth with
  | 0 => None
  | S depth' =>
      match definition f v with
      | None => Some 0%Z
      | Some def =>
          ns ← mapM (op_tree depth' f) (expr_inputs f def);
          Some (1 + Zsum ns)%Z
      end
  end.

Lemma op_tree_S (depth : nat) (f : Fusion) (v : nat) (n : Z) :
  op_tree depth f v = Some n → op_tree (S depth) f v = Some n.
Proof.
  revert v n. induction depth as [|depth IH]; intros v n; [done|].
  intros Hn. cbn [op_tree] in *. destruct (definition f v) as [d|]; [|done].
  apply bind_Some in Hn as (ns & Hns & [= <-]). apply bind_Some.
  exists ns. split; [|done]. apply mapM_Some. apply mapM_Some in Hns.
  eapply Forall2_impl; [done|]. intros x y. apply IH.
Qed.

Lemma op_tree_mono (depth depth' : nat) (f : Fusion) (v : nat) (n : Z) :
  depth ≤ depth' → op_tree depth f v = Some n → op_tree depth' f v = Some n.
Proof. induction 1; [done|]. intros Hn. by apply op_tree_S, IHle. Qed.

Lemma op_tree_nonneg (depth : nat) (f : Fusion) (v : nat) (n : Z) :
  op_tree depth f v = Some n → (0 ≤ n)%Z.
Proof.
  revert v n. induction depth as [|depth IH]; intros v n; [done|].
  simpl. destruct (definition f v) as [d|]; [|by intros [= <-]].
  intros (ns & Hns%mapM_Some & [= <-])%bind_Some.
  assert (0 ≤ Zsum ns)%Z; [|lia].
  induction Hns as [|x y l k Hxy _ IHl]; simpl; [done|].
  apply IH in Hxy. lia.
Qed.

Lemma Zsum_nonneg (depth : nat) (f : Fusion) (q : list nat) (ns : list Z) :
  Forall2 (λ x n, op_tree depth f x = Some n) q ns → (0 ≤ Zsum ns)%Z.
Proof.
  induction 1 as [|x y l k Hxy _ IHl]; simpl; [done|].
  apply op_tree_nonneg in Hxy. lia.
Qed.

Lemma getOperationCount_loop_mono (fuel fuel' : nat) (f : Fusion)
    (q : list nat) (acc n : Z) :
  fuel ≤ fuel' → getOperationCount_loop fuel f q acc = Some n →
  getOperationCount_loop fuel' f q acc = Some n.
Proof.
  revert fuel' q acc. induction fuel as [|fuel IH]; intros fuel' q acc Hle; [done|].
  destruct fuel' as [|fuel']; [lia|]. simpl.
  destruct q as [|v rest]; [done|].
  destruct (definition f v); apply IH; lia.
Qed.

(** The loop adds up the trees of the values in its queue. *)
Lemma getOperationCount_loop_tree (fuel : nat) (f : Fusion) (q : list nat)
    (acc n : Z) :
  getOperationCount_loop fuel f q acc = Some n →
  ∃ depth ns, Forall2 (λ x k, op_tree depth f x = Some k) q ns ∧
              n = (acc + Zsum ns)%Z.
Proof.
  revert q acc. induction fuel as [|fuel IH]; intros q acc; [done|]. simpl.
  destruct q as [|v rest].
  - intros [= <-]. exists 0, []. split; [constructor|simpl; lia].
  - destruct (definition f v) as [d|] eqn:Hd.
    + intros (depth & ns & Hns & ->)%IH.
      apply Forall2_app_inv_l in Hns as (ns1 & ns2 & Hns1 & Hns2 & ->).
      exists (S depth), ((1 + Zsum ns2)%Z :: ns1). split.
      * constructor.
        -- simpl. rewrite Hd. apply bind_Some. exists ns2. split; [|done].
           by apply mapM_Some.
        -- eapply Forall2_impl; [done|]. intros x k. apply op_tree_S.
      * rewrite Zsum_app. simpl. lia.
    + intros (depth & ns & Hns & ->)%IH.
      exists (S depth), (0%Z :: ns). split; [|simpl; lia].
      constructor; [simpl; by rewrite Hd|].
      eapply Forall2_impl; [done|]. intros x k. apply op_tree_S.
Qed.

(** Conversely the loop returns the sum of the trees of its queue, by
    induction on that sum and then on the queue. *)
Lemma tree_getOperationCount_loop (depth : nat) (f : Fusion) (m : nat) :
  ∀ (q : list nat) (ns : list Z) (acc : Z),
    Forall2 (λ x k, op_tree depth f x = Some k) q ns →
    Z.to_nat (Zsum ns) = m →
    ∃ fuel, getOperationCount_loop fuel f q acc = Some (acc + Zsum ns)%Z.
Proof.
  induction (lt_wf m) as [m _ IHm]. intros q.
  induction q as [|v rest IHq]; intros ns acc Hns Hm.
  - apply Forall2_nil_inv_l in Hns as ->. exists 1. simpl. f_equal. lia.
  - apply Forall2_cons_inv_l in Hns as (k & ns' & Hk & Hns' & ->).
    pose proof (Zsum_nonneg _ _ _ _ Hns') as Hnn.
    destruct depth as [|depth]; [done|]. cbn [op_tree] in Hk.
    destruct (definition f v) as [d|] eqn:Hd.
    + apply bind_Some in Hk as (ks & Hks%mapM_Some & [= <-]).
      pose proof (Zsum_nonneg _ _ _ _ Hks) as Hnn'.
      destruct (IHm (Z.to_nat (Zsum (ns' ++ ks)))) with
        (q := rest ++ expr_inputs f d) (ns := ns' ++ ks) (acc := (acc + 1)%Z)
        as [fuel Hfuel].
      * rewrite <- Hm, Zsum_app. simpl. lia.
      * apply Forall2_app; [done|].
        eapply Forall2_impl; [done|]. intros x k. apply op_tree_S.
      * done.
      * exists (S fuel). simpl. rewrite Hd, Hfuel. f_equal.
        rewrite Zsum_app. simpl. lia.
    + injection Hk as <-.
      destruct (IHq ns' acc Hns') as [fuel Hfuel]; [simpl in Hm; lia|].
      exists (S fuel). simpl. rewrite Hd, Hfuel. f_equal; lia.
Qed.

Lemma getOperationCount_tree (f : Fusion) (v : nat) (n : Z) :
  (∃ fuel, getOperationCount fuel f v = Some n) ↔
  (∃ depth, op_tree depth f v = Some n).
Proof.
  split.
  - intros [fuel (depth & ns & Hns & ->)%getOperationCount_loop_tree].
    apply Forall2_cons_inv_l in Hns as (k & ns' & Hk & ->%Forall2_nil_inv_l & ->).
    exists depth. rewrite Hk. f_equal. simpl. lia.
  - intros [depth Hn].
    assert (Hq : Forall2 (λ x k, op_tree depth f x = Some k) [v] [n])
      by (by repeat constructor).
    destruct (tree_getOperationCount_loop depth f _ [v] [n] 0%Z Hq eq_refl)
      as [fuel Hfuel].
    exists fuel. unfold getOperationCount. rewrite Hfuel. f_equal. simpl. lia.
Qed.

Lemma op_tree_common (f : Fusion) (l : list nat) :
  (∀ i, i ∈ l → ∃ depth n, op_tree depth f i = Some n) →
  ∃ depth ns, Forall2 (λ x k, op_tree depth f x = Some k) l ns.
Proof.
  induction l as [|i l IH]; intros Hl.
  - exists 0, []. constructor.
  - destruct (Hl i) as (d1 & n & Hn); [left|].
    destruct IH as (d2 & ns & Hns); [intros j Hj; apply Hl; by right|].
    exists (d1 `max` d2), (n :: ns). constructor.
    + eapply op_tree_mono; [|done]. lia.
    + eapply Forall2_impl; [done|]. intros x k. apply op_tree_mono. lia.
Qed.

Lemma op_tree_def (depth : nat) (f : Fusion) (v d : nat) (n : Z) :
  definition f v = Some d →
  op_tree (S depth) f v = Some n ↔
  ∃ ns, Forall2 (λ x k, op_tree depth f x = Some k) (expr_inputs f d) ns ∧
        n = (1 + Zsum ns)%Z.
Proof.
  intros Hd. cbn [op_tree]. rewrite Hd, bind_Some. split.
  - intros (ns & Hns%mapM_Some & [= <-]). eauto.
  - intros (ns & Hns%mapM_Some & ->). eauto.
Qed.

(** X12.  [getOperationCount] of a value without definition is zero; on a
    value with a definition it returns a count exactly when it returns one
    on every input of the definition, and the count is then one more than
    the sum of the counts of the inputs, an input listed twice being
    counted twice. *)
Theorem getOperationCount_unfold (f : Fusion) (v : nat) :
  (definition f v = None →
   ∀ fuel, 2 ≤ fuel → getOperationCount fuel f v = Some 0%Z) ∧
  (∀ d n, definition f v = Some d →
     (∃ fuel, getOperationCount fuel f v = Some n) ↔
     ∃ ns, Forall2 (λ inp k, ∃ fuel, getOperationCount fuel f inp = Some k)
             (expr_inputs f d) ns ∧
           n = (1 + Zsum ns)%Z).
Proof.
  split.
  - intros Hd [|[|fuel]] Hfuel; [lia..|].
    unfold getOperationCount. simpl. by rewrite Hd.
  - intros d n Hd. rewrite getOperationCount_tree. split.
    + intros [[|depth] Hn]; [done|].
      apply (op_tree_def _ _ _ _ _ Hd) in Hn as (ns & Hns & ->).
      exists ns. split; [|done]. eapply Forall2_impl; [done|].
      intros x k Hk. apply getOperationCount_tree. by exists depth.
    + intros (ns & Hns & ->).
      destruct (op_tree_common f (expr_inputs f d)) as (depth & ks & Hks).
      { intros i Hi. apply list_elem_of_lookup in Hi as [j Hj].
        destruct (Forall2_lookup_l _ _ _ _ _ Hns Hj) as (k & _ & Hk).
        apply getOperationCount_tree in Hk as [depth Hk]. eauto. }
      assert (ks = ns) as ->.
      { apply list_eq_same_length with (length (expr_inputs f d)).
        - symmetry. by eapply Forall2_length.
        - symmetry. by eapply Forall2_length.
        - intros j x y _ Hx Hy.
          destruct (Forall2_lookup_r _ _ _ _ _ Hks Hx) as (i & Hi & Hxi).
          destruct (Forall2_lookup_l _ _ _ _ _ Hns Hi) as (y' & Hy' & Hk).
          rewrite Hy in Hy'. injection Hy' as <-.
          apply getOperationCount_tree in Hk as [depth' Hk].
          pose proof (op_tree_mono _ (depth `max` depth') _ _ _
                        (Nat.le_max_l _ _) Hxi) as H1.
          pose proof (op_tree_mono _ (depth `max` depth') _ _ _
                        (Nat.le_max_r _ _) Hk) as H2.
          congruence. }
      exists (S depth). apply (op_tree_def _ _ _ _ _ Hd). eauto.
Qed.

Lemma op_tree_step (depth : nat) (f : Fusion) (x y : nat) (n : Z) :
  op_tree (S depth) f x = Some n → producer f x y →
  ∃ n', op_tree depth f y = Some n'.
Proof.
  intros Hn (d & Hd & Hy).
  destruct (proj1 (op_tree_def _ _ _ _ _ Hd) Hn) as (ns & Hns & _).
  apply list_elem_of_lookup in Hy as [j Hj].
  destruct (Forall2_lookup_l _ _ _ _ _ Hns Hj) as (k & _ & Hk). eauto.
Qed.

Lemma op_tree_tc (f : Fusion) (x y : nat) :
  tc (producer f) x y →
  ∀ depth n, op_tree (S depth) f x = Some n → ∃ n', op_tree depth f y = Some n'.
Proof.
  induction 1 as [x y Hxy|x y z Hxy _ IH]; intros depth n Hn.
  - by eapply op_tree_step.
  - destruct (op_tree_step _ _ _ _ _ Hn Hxy) as [n' Hn'].
    apply op_tree_S in Hn'. by eapply IH.
Qed.

Lemma op_tree_rtc (f : Fusion) (x y : nat) :
  rtc (producer f) x y →
  ∀ depth n, op_tree depth f x = Some n → ∃ n', op_tree depth f y = Some n'.
Proof.
  intros [->|Htc]%rtc_tc depth n Hn; [eauto|].
  destruct depth as [|depth]; [done|].
  destruct (op_tree_tc _ _ _ Htc _ _ Hn) as [n' Hn'].
  exists n'. by apply op_tree_S.
Qed.

(** A value that depends on itself has no tree of any depth. *)
Lemma op_tree_cycle (f : Fusion) (x : nat) (depth : nat) :
  tc (producer f) x x → op_tree depth f x = None.
Proof.
  intros Htc. induction depth as [|depth IH]; [done|].
  destruct (op_tree (S depth) f x) as [n|] eqn:Hn; [|done].
  destruct (op_tree_tc _ _ _ Htc _ _ Hn) as [n' Hn']. congruence.
Qed.

(** The steps the count follows from [val]. *)
Definition counted (f : Fusion) (val : nat) (x y : nat) : Prop :=
  rtc (producer f) val x ∧ producer f x y.

Lemma counted_tc (f : Fusion) (val x y : nat) :
  tc (counted f val) x y → rtc (producer f) val x ∧ tc (producer f) x y.
Proof.
  induction 1 as [x y [Hx Hxy]|x y z [Hx Hxy] _ [_ IH]].
  - split; [done|by apply tc_once].
  - split; [done|]. by eapply tc_l.
Qed.

(** Without a cycle to reach, the steps from [val] are well founded on the
    finite container, and every value reached has a tree. *)
Lemma op_tree_terminates (f : Fusion) (val : nat) :
  (∀ x, rtc (producer f) val x → ¬ tc (producer f) x x) →
  ∃ depth n, op_tree depth f val = Some n.
Proof.
  intros Hacyclic.
  assert (Hsn : sn (counted f val) val).
  { apply tc_finite_sn.
    - intros x [Hx Hxx]%counted_tc. by apply (Hacyclic x).
    - exists (elements (reachable_vals f val)). intros y Hy.
      apply tc_last_step in Hy as (w & _ & _ & d & _ & Hd).
      apply elem_of_elements. by eapply expr_inputs_reachable. }
  assert (Hall : ∀ x, sn (counted f val) x → rtc (producer f) val x →
                      ∃ depth n, op_tree depth f x = Some n); [|by apply Hall].
  intros x Hsnx. induction Hsnx as [x _ IH]. intros Hx.
  destruct (definition f x) as [d|] eqn:Hd.
  - destruct (op_tree_common f (expr_inputs f d)) as (depth & ns & Hns).
    { intros i Hi. apply IH.
      - split; [done|]. by exists d.
      - eapply rtc_r; [done|]. by exists d. }
    exists (S depth), (1 + Zsum ns)%Z. apply (op_tree_def _ _ _ _ _ Hd). eauto.
  - exists 1, 0%Z. simpl. by rewrite Hd.
Qed.

(** X13.  [getOperationCount] returns (with enough fuel) exactly when no
    value reached from [val] through definitions and their inputs depends
    on itself: on a value that is recursively defined, or leads to one, the
    loop never ends. *)
Theorem getOperationCount_terminates_iff (f : Fusion) (val : nat) :
  (∃ fuel n, getOperationCount fuel f val = Some n) ↔
  ¬ ∃ x, rtc (producer f) val x ∧ tc (producer f) x x.
Proof.
  split.
  - intros (fuel & n & Hn) (x & Hx & Hxx).
    assert (∃ depth, op_tree depth f val = Some n) as [depth Hd]
      by (apply getOperationCount_tree; eauto).
    destruct (op_tree_rtc _ _ _ Hx _ _ Hd) as [n' Hn'].
    by rewrite op_tree_cycle in Hn'.
  - intros Hacyclic. destruct (op_tree_terminates f val) as (depth & n & Hn).
    { intros x Hx Hxx. apply Hacyclic. eauto. }
    assert (∃ fuel, getOperationCount fuel f val = Some n) as [fuel Hf]
      by (apply getOperationCount_tree; eauto).
    eauto.
Qed.

(** In [cyclic_graph] the value [3] is defined by one expression on two
    leaves, and the value [4] is above the values [0] and [1], which
    depend on each other. *)
Example getOperationCount_run :
  getOperationCount 10 cyclic_graph 3 = Some 1%Z ∧
  getOperationCount 1000 cyclic_graph 4 = None.
Proof. split; vm_compute; reflexivity. Qed.

(** ** The terminating outputs *)

Section terminating.
Context (uses : nat → list nat) (f : Fusion).

(** [y] is an output of a use of [x]. *)
Definition consumer (x y : nat) : Prop := y ∈ consumers_of uses f x.

Definition reaches_output (val : nat) : Prop :=
  ∃ o, isFusionOutput f o = true ∧ tc consumer val o.

(** Every value some registered expression has among its outputs. *)
Definition produced_vals : gset nat :=
  list_to_set (mjoin ((λ p, outputs p.2) <$> map_to_list (exprs_ f))).

Lemma consumers_produced (x y : nat) : consumer x y → y ∈ produced_vals.
Proof.
  unfold consumer, consumers_of. intros (l & Hy & Hl)%list_elem_of_join.
  apply list_elem_of_fmap in Hl as (u & -> & _).
  unfold expr_outputs in Hy. destruct (exprs_ f !! u) as [ex|] eqn:Hu; simpl in Hy.
  - apply elem_of_list_to_set, list_elem_of_join. exists (outputs ex).
    split; [done|]. apply list_elem_of_fmap. exists (u, ex). split; [done|].
    by apply elem_of_map_to_list.
  - by apply elem_of_nil in Hy.
Qed.

(** The loop returns [b] for every fuel from [fuel0] on. *)
Definition reach_returns (q : list nat) (visited : gset nat) : Prop :=
  ∃ fuel0 b, ∀ fuel, fuel0 ≤ fuel →
    is_reachable_to_output_loop fuel uses f q visited = Some b.

Lemma reach_returns_total (n : nat) :
  ∀ (visited : gset nat) (q : list nat),
    size (produced_vals ∖ visited) = n →
    (∀ x, x ∈ q → x ∈ produced_vals) →
    reach_returns q visited.
Proof.
  induction (lt_wf n) as [n _ IHn]. intros visited q Hsize.
  induction q as [|c rest IHq]; intros Hq.
  - exists 1, false. intros [|fuel] Hf; [lia|done].
  - destruct (isFusionOutput f c) eqn:Hout.
    { exists 1, true. intros [|fuel] Hf; [lia|]. simpl. by rewrite Hout. }
    destruct (decide (c ∈ visited)) as [Hc|Hc].
    + destruct IHq as (fuel0 & b & Hb); [intros x Hx; apply Hq; by right|].
      exists (S fuel0), b. intros [|fuel] Hf; [lia|]. simpl.
      rewrite Hout, decide_True by done. apply Hb. lia.
    + assert (Hlt : size (produced_vals ∖ ({[c]} ∪ visited)) < n).
      { rewrite <- Hsize. apply subset_size.
        assert (c ∈ produced_vals) by (apply Hq; left). set_solver. }
      assert (Hq' : ∀ x, x ∈ reverse (consumers_of uses f c) ++ rest →
                         x ∈ produced_vals).
      { intros x [Hx|Hx]%elem_of_app.
        - rewrite elem_of_reverse in Hx. by apply (consumers_produced c).
        - apply Hq. by right. }
      destruct (IHn _ Hlt ({[c]} ∪ visited)
                  (reverse (consumers_of uses f c) ++ rest) eq_refl Hq')
        as (fuel0 & b & Hb).
      exists (S fuel0), b. intros [|fuel] Hf; [lia|]. simpl.
      rewrite Hout, decide_False by done. apply Hb. lia.
Qed.

(** What holds of the stack and of the visited set at every turn of the
    loop: the values on the stack are reached from [val]; a visited value
    is no fusion output, and the outputs of its uses are visited or on the
    stack, as are those of the uses of [val]. *)
Record reach_inv (val : nat) (q : list nat) (visited : gset nat) : Prop := {
  reach_queue : ∀ x, x ∈ q → tc consumer val x;
  reach_visited : ∀ x, x ∈ visited →
    isFusionOutput f x = false ∧
    ∀ y, consumer x y → y ∈ visited ∨ y ∈ q;
  reach_first : ∀ y, consumer val y → y ∈ visited ∨ y ∈ q;
}.

Lemma reach_inv_initial (val : nat) :
  reach_inv val (reverse (consumers_of uses f val)) ∅.
Proof.
  split.
  - intros x Hx. rewrite elem_of_reverse in Hx. by apply tc_once.
  - intros x Hx. by apply elem_of_empty in Hx.
  - intros y Hy. right. by apply elem_of_reverse.
Qed.

Lemma reach_inv_drained (val : nat) (visited : gset nat) :
  reach_inv val [] visited → ¬ reaches_output val.
Proof.
  intros [_ Hvis Hfirst] (o & Ho & Hreach).
  assert (Hin : ∀ y, y ∈ visited ∨ y ∈ [] → y ∈ visited).
  { intros y [?|Hy]; [done|]. by apply elem_of_nil in Hy. }
  assert (Hclosed : ∀ x, tc consumer val x → x ∈ visited).
  { assert (Hstep : ∀ y x, (y = val ∨ y ∈ visited) → consumer y x → x ∈ visited).
    { intros y x [->|Hy] Hyx; [by apply Hin, Hfirst|].
      by apply Hin, (Hvis y). }
    assert (Hr : ∀ y, rtc consumer val y → y = val ∨ y ∈ visited).
    { apply rtc_ind_r; [by left|]. intros y z _ Hyz Hy. right. by eapply Hstep. }
    intros x (y & Hy & Hyx)%tc_last_step. eapply Hstep; [|done]. by apply Hr. }
  destruct (Hvis o (Hclosed o Hreach)) as [Hno _]. congruence.
Qed.

Lemma reach_inv_correct (val : nat) (fuel : nat) :
  ∀ (q : list nat) (visited : gset nat) (b : bool),
    reach_inv val q visited →
    is_reachable_to_output_loop fuel uses f q visited = Some b →
    (b = true ↔ reaches_output val).
Proof.
  induction fuel as [|fuel IH]; intros q visited b Hinv; [done|]. simpl.
  destruct q as [|c rest].
  - intros [= <-]. split; [done|]. intros Hr.
    by destruct (reach_inv_drained val visited Hinv).
  - destruct Hinv as [Hq Hvis Hfirst].
    destruct (isFusionOutput f c) eqn:Hout.
    { intros [= <-]. split; [|done]. intros _. exists c. split; [done|].
      apply Hq. left. }
    destruct (decide (c ∈ visited)) as [Hc|Hc].
    + apply IH. split.
      * intros x Hx. apply Hq. by right.
      * intros x Hx. destruct (Hvis x Hx) as [Hno Hy]. split; [done|].
        intros y Hxy. destruct (Hy y Hxy) as [?|[->|?]%elem_of_cons]; auto.
      * intros y Hy. destruct (Hfirst y Hy) as [?|[->|?]%elem_of_cons]; auto.
    + apply IH. split.
      * intros x [Hx|Hx]%elem_of_app.
        -- rewrite elem_of_reverse in Hx. eapply tc_r; [apply Hq; left|done].
        -- apply Hq. by right.
      * intros x [->%elem_of_singleton|Hx]%elem_of_union.
        -- split; [done|]. intros y Hy. right. apply elem_of_app. left.
           by apply elem_of_reverse.
        -- destruct (Hvis x Hx) as [Hno Hy]. split; [done|].
           intros y Hxy. destruct (Hy y Hxy) as [?|[->|?]%elem_of_cons].
           ++ left. set_solver.
           ++ left. set_solver.
           ++ right. apply elem_of_app. by right.
      * intros y Hy. destruct (Hfirst y Hy) as [?|[->|?]%elem_of_cons].
        -- left. set_solver.
        -- left. set_solver.
        -- right. apply elem_of_app. by right.
Qed.

Lemma is_reachable_to_output_total (val : nat) :
  ∃ fuel0 b, ∀ fuel, fuel0 ≤ fuel →
    is_reachable_to_output fuel uses f val = Some b.
Proof.
  apply (reach_returns_total _ ∅ _ eq_refl).
  intros x Hx. rewrite elem_of_reverse in Hx. by apply (consumers_produced val).
Qed.

Lemma is_reachable_to_output_correct (fuel : nat) (val : nat) (b : bool) :
  is_reachable_to_output fuel uses f val = Some b →
  (b = true ↔ reaches_output val).
Proof. apply reach_inv_correct, reach_inv_initial. Qed.

Lemma terminating_outputs_spec (outs : list nat) :
  ∃ fuel0, ∀ fuel, fuel0 ≤ fuel →
    ∃ l, terminating_outputs fuel uses f outs = Some l ∧
         l `sublist_of` outs ∧
         ∀ out, out ∈ l ↔ out ∈ outs ∧ ¬ reaches_output out.
Proof.
  induction outs as [|out outs (fuel1 & IH)].
  - exists 0. intros fuel _. exists []. split_and!; [done..|].
    intros out. split; [by intros ?%elem_of_nil|by intros [?%elem_of_nil _]].
  - destruct (is_reachable_to_output_total out) as (fuel2 & b & Hb).
    exists (fuel1 `max` fuel2). intros fuel Hfuel.
    destruct (IH fuel) as (l & Hl & Hsub & Hin); [lia|].
    simpl. rewrite Hb by lia. simpl. rewrite Hl. simpl.
    pose proof (is_reachable_to_output_correct fuel out b (Hb fuel ltac:(lia)))
      as Hcorrect.
    destruct b.
    + exists l. split_and!; [done|by apply sublist_cons|].
      intros o. rewrite Hin, elem_of_cons. split; [naive_solver|].
      intros [[->|?] Hno]; [|done]. destruct Hno. by apply Hcorrect.
    + exists (out :: l). split_and!; [done|by apply sublist_skip|].
      intros o. rewrite !elem_of_cons, Hin. split; [|naive_solver].
      intros [->|[? ?]]; [|by auto]. split; [by left|].
      intros Hr. apply Hcorrect in Hr. done.
Qed.

End terminating.

(** X14.  [getTerminatingOutputs] returns with enough fuel, cycles among
    the uses or not.  The result keeps the order of the output list, and
    an output is in it exactly when no value flagged as a fusion output is
    reached from it through one or more steps from a value to an output of
    one of its uses. *)
Theorem getTerminatingOutputs_spec (uses : nat → list nat) (f : Fusion) :
  ∃ fuel0, ∀ fuel, fuel0 ≤ fuel →
    ∃ l, getTerminatingOutputs fuel uses f = Some l ∧
         l `sublist_of` outputs_ f ∧
         ∀ out, out ∈ l ↔
           out ∈ outputs_ f ∧
           ¬ ∃ o, isFusionOutput f o = true ∧ tc (consumer uses f) out o.
Proof. apply terminating_outputs_spec. Qed.

(** Two outputs, the second computed from the first: only the second is a
    terminating output. *)
Definition chained_outputs : Fusion :=
  mkFusion 0 false
    (list_to_map
       [(0, mkVal TensorView false false true None [10] Global Iteration);
        (1, mkVal TensorView false false true (Some 10) [] Global Iteration)])
    (list_to_map [(10, mkExpr [0] [1] None)]) [] [0; 1] ∅ true.

Example getTerminatingOutputs_run :
  getTerminatingOutputs 10 (uses_field chained_outputs) chained_outputs
  = Some [1].
Proof. vm_compute. reflexivity. Qed.

(** ** The input list and the input flags *)

(** The input list agrees with the fusion-input flags. *)
Definition inputs_consistent (f : Fusion) : Prop :=
  NoDup (inputs_ f) ∧ ∀ v, v ∈ inputs_ f ↔ isFusionInput f v = true.

Lemma isFusionInput_alter (h : Val → Val) (k : nat) (f : Fusion) (v : nat) :
  (∀ x, is_fusion_input_ (h x) = is_fusion_input_ x) →
  isFusionInput (with_vals (alter h k) f) v = isFusionInput f v.
Proof.
  intros Hh. unfold isFusionInput; simpl. rewrite lookup_alter.
  case_decide; subst; [|done]. destruct (vals_ f !! v); simpl; [|done].
  by rewrite Hh.
Qed.

Lemma inputs_consistent_eq (f f' : Fusion) :
  inputs_ f' = inputs_ f → (∀ v, isFusionInput f' v = isFusionInput f v) →
  inputs_consistent f → inputs_consistent f'.
Proof.
  intros Hin Hflag [Hnd Hiff]. split; [by rewrite Hin|].
  intros v. by rewrite Hin, Hflag.
Qed.

Lemma inputs_consistent_static (f f' : Fusion) :
  static_eq f f' → inputs_consistent f → inputs_consistent f'.
Proof.
  intros Hst. apply inputs_consistent_eq.
  - by destruct Hst as (_ & ? & _).
  - intros v. by apply static_eq_isFusionInput.
Qed.

Lemma erase_first_not_elem (e : nat) (l : list nat) :
  e ∉ l → erase_first e l = l.
Proof.
  induction l as [|y l IH]; simpl; [done|].
  intros [? ?]%not_elem_of_cons. rewrite decide_False by done. by rewrite IH.
Qed.

Lemma erase_first_NoDup (e : nat) (l : list nat) :
  NoDup l → NoDup (erase_first e l) ∧ ∀ x, x ∈ erase_first e l ↔ x ∈ l ∧ x ≠ e.
Proof.
  induction 1 as [|y l Hy Hl [IH1 IH2]]; simpl.
  - split; [constructor|]. intros x. split; [by intros ?%elem_of_nil|].
    by intros [?%elem_of_nil _].
  - destruct (decide (y = e)) as [->|Hne].
    + split; [done|]. intros x. rewrite elem_of_cons. split.
      * intros Hx. split; [by right|]. by intros ->.
      * intros [[->|?] ?]; done.
    + split.
      * constructor; [|done]. rewrite IH2. tauto.
      * intros x. rewrite !elem_of_cons, IH2. split; [|tauto].
        intros [->|[? ?]]; split; auto.
Qed.

Lemma registerExpr_outputs_static (is_ssa : bool) (e : nat) (l : list nat)
    (t t' : Fusion) :
  forM (registerExpr_output is_ssa e) l t = Ok t' → static_eq t t'.
Proof.
  apply (forM_invariant (static_eq t)); [|apply static_eq_refl].
  intros o u u' _ Hu Ho. eapply static_eq_trans; [done|].
  destruct is_ssa.
  - by apply registerExpr_output_ssa in Ho as (_ & ? & _).
  - by apply registerExpr_output_kernel in Ho as (_ & ? & _).
Qed.

Lemma registerExpr_static (e : nat) (ex : Expr) (f f' : Fusion) :
  registerExpr e ex f = Ok f' → static_eq f f'.
Proof.
  unfold registerExpr. destruct (inContainer_expr f e).
  { intros [= <-]. apply static_eq_refl. }
  intros [_ (f1 & Hin & Hout)%bind_Ok]%NVF_CHECK_bind_Ok.
  apply registerExpr_inputs_Ok in Hin as (Hst1 & _).
  apply registerExpr_outputs_static in Hout.
  eapply static_eq_trans; [apply (static_eq_with_exprs (<[e:=ex]>))|].
  by eapply static_eq_trans.
Qed.

Lemma forM_removeExpr_static (l : list nat) (t t' : Fusion) :
  forM removeExpr l t = Ok t' → static_eq t t'.
Proof.
  apply (forM_invariant (static_eq t)); [|apply static_eq_refl].
  intros d u u' _ Hu (ex & _ & _ & Hst & _)%removeExpr_Ok.
  by eapply static_eq_trans.
Qed.

Lemma removeVal_inputs (v : nat) (f f' : Fusion) :
  removeVal v f = Ok f' →
  isFusionInput f v = false ∧ inputs_ f' = inputs_ f ∧
  ∀ k, isFusionInput f' k = if decide (k = v) then false else isFusionInput f k.
Proof.
  unfold removeVal, assertInContainer_val.
  intros [_ Hrun]%NVF_CHECK_bind_Ok.
  apply NVF_CHECK_bind_Ok in Hrun as [Hin%negb_true_iff Hrun].
  apply NVF_CHECK_bind_Ok in Hrun as [_ Hrun].
  apply bind_Ok in Hrun as (f1 & Hf1 & Hrun).
  apply bind_Ok in Hrun as (f2' & Hf2 & Hrm).
  assert (Hst1 : static_eq f f1).
  { destruct (definition f v) as [d|].
    - by apply removeExpr_Ok in Hf1 as (ex & _ & _ & ? & _).
    - injection Hf1 as <-. apply static_eq_refl. }
  apply forM_removeExpr_static in Hf2.
  assert (Hst : static_eq f f2') by (by eapply static_eq_trans).
  unfold IrContainer_removeVal in Hrm.
  apply NVF_CHECK_bind_Ok in Hrm as [_ [= <-]].
  split; [done|]. split; [by destruct Hst as (_ & ? & _)|].
  intros k. unfold isFusionInput at 1. simpl. rewrite lookup_delete.
  destruct (decide (v = k)) as [->|Hne].
  - by rewrite decide_True.
  - rewrite decide_False by done. by apply static_eq_isFusionInput.
Qed.

Lemma addOutput_inputs (w : nat → bool) (v : nat) (f f' : Fusion) :
  addOutput w v f = Ok f' →
  inputs_ f' = inputs_ f ∧ ∀ k, isFusionInput f' k = isFusionInput f k.
Proof.
  unfold addOutput. intros [_ (f1 & Hf1 & [= <-])%bind_Ok]%NVF_CHECK_bind_Ok.
  assert (H1 : inputs_ f1 = inputs_ f ∧
               ∀ k, isFusionInput f1 k = isFusionInput f k).
  { destruct (isTensorView f v).
    - injection Hf1 as <-. split; [done|]. intros k.
      by apply isFusionInput_alter.
    - by apply NVF_CHECK_bind_Ok in Hf1 as [_ [= <-]]. }
  destruct H1 as [Hi Hf]. split; [done|]. intros k. rewrite <- Hf.
  by apply (isFusionInput_alter (val_setIsFusionOutput true) v
              (with_outputs (λ l, l ++ [v]) f1)).
Qed.

Lemma replaceOutput_inputs (o n : nat) (f f' : Fusion) :
  replaceOutput o n f = Ok f' →
  inputs_ f' = inputs_ f ∧ ∀ k, isFusionInput f' k = isFusionInput f k.
Proof.
  unfold replaceOutput. intros [_ Hf]%NVF_CHECK_bind_Ok.
  cbv zeta in Hf. injection Hf as <-.
  set (f1 := with_outputs (replace_val o n) f).
  set (f2 := if isTensorView f1 n
             then setMemoryType n Global (setIsFusionOutput n true f1) else f1).
  set (f3 := if isTensorView f2 o
             then setMemoryType o Local (setIsFusionOutput o false f2) else f2).
  assert (H2 : inputs_ f2 = inputs_ f ∧
               ∀ k, isFusionInput f2 k = isFusionInput f k).
  { unfold f2. destruct (isTensorView f1 n); [|done]. split; [done|].
    intros k. unfold setMemoryType, setIsFusionOutput.
    by rewrite !isFusionInput_alter. }
  assert (H3 : inputs_ f3 = inputs_ f ∧
               ∀ k, isFusionInput f3 k = isFusionInput f k).
  { unfold f3. destruct (isTensorView f2 o); [|done].
    destruct H2 as [Hi Hf]. split; [done|].
    intros k. unfold setMemoryType, setIsFusionOutput.
    by rewrite !isFusionInput_alter. }
  change (io_alias_ (invalidateTvUses f3)) with (io_alias_ f3).
  destruct (io_alias_ f3 !! o); exact H3.
Qed.

(** X15.  The input list has no repeated entry and lists exactly the
    values whose fusion-input flag is set: [addInput], [removeInput],
    [addOutput], [removeOutput], [replaceOutput], [removeVal],
    [registerExpr] and [removeExpr] keep it so. *)
Theorem inputs_consistent_preserved (f : Fusion) :
  inputs_consistent f →
  (∀ v f', addInput v f = Ok f' → inputs_consistent f') ∧
  (∀ v, inputs_consistent (removeInput v f)) ∧
  (∀ wraps_tv v f', addOutput wraps_tv v f = Ok f' → inputs_consistent f') ∧
  (∀ v, inputs_consistent (removeOutput v f)) ∧
  (∀ o n f', replaceOutput o n f = Ok f' → inputs_consistent f') ∧
  (∀ v f', removeVal v f = Ok f' → inputs_consistent f') ∧
  (∀ e ex f', registerExpr e ex f = Ok f' → inputs_consistent f') ∧
  (∀ e f', removeExpr e f = Ok f' → inputs_consistent f').
Proof.
  intros Hc. pose proof Hc as [Hnd Hiff]. split_and!.
  - intros v f' (x & Hx & Hfi & ->)%addInput_Ok.
    assert (Hv : v ∉ inputs_ f).
    { rewrite Hiff. unfold isFusionInput. rewrite Hx. simpl. congruence. }
    assert (Hin : ∀ g : Fusion, inputs_ g = inputs_ f →
              (∀ k, isFusionInput g k = isFusionInput f k) →
              is_Some (vals_ g !! v) →
              inputs_consistent (invalidateTvUses (setIsFusionInput v true
                (with_inputs (λ l, l ++ [v]) g)))).
    { intros g Hgi Hgf [y Hy]. split; simpl.
      - rewrite Hgi. apply NoDup_app. split_and!; [done| |apply NoDup_singleton].
        intros k Hk ->%list_elem_of_singleton. done.
      - intros k. rewrite Hgi, elem_of_app, list_elem_of_singleton.
        unfold isFusionInput at 1. simpl. rewrite lookup_alter.
        case_decide; subst.
        + rewrite Hy. simpl. split; [done|auto].
        + fold (isFusionInput g k). rewrite Hgf, Hiff. split; [|auto].
          intros [?|?]; done. }
    destruct (bool_decide (vtype x = TensorView)).
    + apply Hin; [done| |].
      * intros k. by apply isFusionInput_alter.
      * simpl. rewrite lookup_alter_eq, Hx. by eexists.
    + apply Hin; [done..|by eexists].
  - intros v. destruct (erase_first_NoDup v _ Hnd) as [Hnd' Hel]. split; simpl.
    + done.
    + intros k. rewrite Hel, Hiff. unfold isFusionInput at 2. simpl.
      rewrite lookup_alter. case_decide; subst.
      * destruct (vals_ f !! k); simpl; split; try done; by intros [_ ?].
      * split; [by intros [? _]|auto].
  - intros w v f' [Hi Hf]%addOutput_inputs. by eapply inputs_consistent_eq.
  - intros v. eapply inputs_consistent_eq; [| |done]; [done|].
    intros k. simpl.
    by apply (isFusionInput_alter (val_setIsFusionOutput false) v
                (with_outputs (erase_first v) f)).
  - intros o n f' [Hi Hf]%replaceOutput_inputs. by eapply inputs_consistent_eq.
  - intros v f' (Hv & Hi & Hf)%removeVal_inputs. split; [by rewrite Hi|].
    intros k. rewrite Hi, Hf, Hiff. case_decide; subst; [|done].
    rewrite Hv. done.
  - intros e ex f' Hst%registerExpr_static. by eapply inputs_consistent_static.
  - intros e f' (ex & _ & _ & Hst & _)%removeExpr_Ok.
    by eapply inputs_consistent_static.
Qed.

(** A container without inputs is consistent when no flag is set. *)
Lemma inputs_consistent_fusion_of (kernel : bool) (vals : list (nat * Val)) :
  Forall (λ p, is_fusion_input_ p.2 = false) vals →
  inputs_consistent (fusion_of kernel vals).
Proof.
  intros Hvals. split; [constructor|]. intros v. split; [by intros ?%elem_of_nil|].
  unfold isFusionInput. simpl.
  destruct (list_to_map vals !! v) as [x|] eqn:Hx; simpl; [|done].
  apply elem_of_list_to_map_2 in Hx. rewrite Forall_forall in Hvals.
  apply Hvals in Hx. simpl in Hx. congruence.
Qed.

(** Three values, the tensor view [0] and the scalar [1] declared as inputs
    by [addInput]. *)
Definition three_vals : Fusion :=
  fusion_of false [(0, a_tensor); (1, a_scalar); (2, a_tensor)].

Definition two_inputs : Fusion :=
  match addInput 0 three_vals ≫= addInput 1 with
  | Ok f => f
  | Err _ => three_vals
  end.

Lemma inputs_consistent_preserved_witness :
  (inputs_ two_inputs = [0; 1] ∧ isFusionInput two_inputs 0 = true) ∧
  (inputs_ (removeInput 0 two_inputs) = [1] ∧
   isFusionInput (removeInput 0 two_inputs) 0 = false ∧
   inputs_consistent (removeInput 0 two_inputs)) ∧
  (∃ f', addInput 2 two_inputs = Ok f' ∧ inputs_ f' = [0; 1; 2] ∧
         isFusionInput f' 2 = true ∧ inputs_consistent f').
Proof.
  assert (H0 : inputs_consistent three_vals).
  { apply inputs_consistent_fusion_of. repeat constructor. }
  destruct (addInput 0 three_vals) as [f1|] eqn:H01; [|by vm_compute in H01].
  assert (H1 : inputs_consistent f1).
  { by apply (proj1 (inputs_consistent_preserved three_vals H0) 0). }
  assert (H12 : addInput 1 f1 = Ok two_inputs).
  { vm_compute in H01. injection H01 as <-. vm_compute. reflexivity. }
  assert (H2 : inputs_consistent two_inputs).
  { by apply (proj1 (inputs_consistent_preserved f1 H1) 1). }
  destruct (inputs_consistent_preserved two_inputs H2) as (Hadd & Hrm & _).
  split_and!; [reflexivity..|apply Hrm|].
  destruct (addInput 2 two_inputs) as [f3|] eqn:H23; [|by vm_compute in H23].
  exists f3. split; [done|]. split_and!; [| |by apply (Hadd 2)].
  - vm_compute in H23. by injection H23 as <-.
  - vm_compute in H23. by injection H23 as <-.
Defined.

(** ** Outputs listed twice *)

Lemma addOutput_Ok (w : nat → bool) (v : nat) (f f' : Fusion) :
  addOutput w v f = Ok f' ↔
  ∃ x, vals_ f !! v = Some x ∧
       (vtype x = TensorView ∨ (vtype x = PipelineVal ∧ w v = true)) ∧
       f' = invalidateTvUses (setIsFusionOutput v true
              (with_outputs (λ l, l ++ [v])
                 (if bool_decide (vtype x = TensorView)
                  then setMemoryType v Global f else f))).
Proof.
  unfold addOutput, assertInContainer_val, inContainer_val, isTensorView.
  destruct (vals_ f !! v) as [x|] eqn:Hx; simpl.
  - split.
    + intros Hok. exists x. split; [done|].
      destruct (bool_decide (vtype x = TensorView)) eqn:Htv; simpl in Hok.
      * apply bool_decide_eq_true in Htv. injection Hok as <-. auto.
      * apply bind_Ok in Hok as (f1 & Hf1 & [= <-]).
        apply NVF_CHECK_bind_Ok in Hf1 as [[Hp Hw]%andb_true_iff [= <-]].
        apply bool_decide_eq_true in Hp. injection Hp as Hp. auto.
    + intros (? & [= <-] & Hty & ->).
      destruct (bool_decide (vtype x = TensorView)) eqn:Htv; simpl; [done|].
      apply bool_decide_eq_false in Htv. destruct Hty as [?|[Hp ->]]; [done|].
      rewrite Hp. done.
  - split; [done|]. by intros (? & ? & _).
Qed.

Lemma elem_erase_first_twice (v : nat) (l : list nat) :
  v ∈ erase_first v (l ++ [v; v]).
Proof.
  induction l as [|z l IH]; simpl.
  - rewrite decide_True by done. left.
  - destruct (decide (z = v)) as [->|]; [|by right].
    apply elem_of_app. right. left.
Qed.

Lemma isFusionOutput_removeOutput (v : nat) (g : Fusion) :
  isFusionOutput (removeOutput v g) v = false.
Proof.
  unfold isFusionOutput, removeOutput. simpl. rewrite lookup_alter_eq.
  by destruct (vals_ g !! v).
Qed.

(** X16.  Unlike [addInput], [addOutput] does not refuse a value that is an
    output already: a second call succeeds and lists the value twice, and
    one [removeOutput] then leaves it in the output list with its
    fusion-output flag cleared. *)
Theorem addOutput_accepts_duplicates (wraps_tv : nat → bool) (v : nat)
    (f f1 : Fusion) :
  addOutput wraps_tv v f = Ok f1 →
  ∃ f2, addOutput wraps_tv v f1 = Ok f2 ∧
        outputs_ f2 = outputs_ f ++ [v; v] ∧
        v ∈ outputs_ (removeOutput v f2) ∧
        isFusionOutput (removeOutput v f2) v = false.
Proof.
  intros (x & Hx & Hty & ->)%addOutput_Ok.
  set (g := if bool_decide (vtype x = TensorView)
            then setMemoryType v Global f else f).
  assert (∃ y, vals_ g !! v = Some y ∧ vtype y = vtype x) as (y & Hy & Hyx).
  { unfold g. destruct (bool_decide (vtype x = TensorView)); [|eauto].
    simpl. rewrite lookup_alter_eq, Hx. simpl. eauto. }
  set (f1 := invalidateTvUses (setIsFusionOutput v true
               (with_outputs (λ l, l ++ [v]) g))).
  assert (Hf1 : vals_ f1 !! v = Some (val_setIsFusionOutput true y)).
  { unfold f1. simpl. by rewrite lookup_alter_eq, Hy. }
  eexists. split.
  { apply addOutput_Ok. exists (val_setIsFusionOutput true y).
    split; [done|]. split; [simpl; by rewrite Hyx|done]. }
  assert (Hout : outputs_ g = outputs_ f).
  { unfold g. by destruct (bool_decide (vtype x = TensorView)). }
  match goal with |- context [outputs_ ?h = _] => set (f2 := h) end.
  assert (Hout2 : outputs_ f2 = outputs_ f ++ [v; v]).
  { unfold f2.
    destruct (bool_decide (vtype (val_setIsFusionOutput true y) = TensorView));
      simpl; rewrite Hout, <- app_assoc; done. }
  split_and!; [done| |].
  - change (outputs_ (removeOutput v f2)) with (erase_first v (outputs_ f2)).
    rewrite Hout2. apply elem_erase_first_twice.
  - apply isFusionOutput_removeOutput.
Qed.

Lemma addOutput_accepts_duplicates_witness :
  ∃ f2, addOutput (λ _, false) 0
          (invalidateTvUses (setIsFusionOutput 0 true
             (with_outputs (λ l, l ++ [0])
                (setMemoryType 0 Global (fusion_of false [(0, a_tensor)])))))
        = Ok f2 ∧
        outputs_ f2 = [] ++ [0; 0] ∧
        0 ∈ outputs_ (removeOutput 0 f2) ∧
        isFusionOutput (removeOutput 0 f2) 0 = false.
Proof.
  by apply (addOutput_accepts_duplicates (λ _, false) 0
              (fusion_of false [(0, a_tensor)])).
Defined.

(** ** Adding an input and removing it again *)

(** X17.  [removeInput] after [addInput] restores the input list and clears
    the flag, and leaves every other value alone; the memory type of a
    tensor view stays global and the use-list cache stays invalid. *)
Theorem addInput_removeInput (f f1 : Fusion) (v : nat) :
  v ∉ inputs_ f →
  addInput v f = Ok f1 →
  inputs_ (removeInput v f1) = inputs_ f ∧
  isFusionInput (removeInput v f1) v = false ∧
  (∀ k, k ≠ v → vals_ (removeInput v f1) !! k = vals_ f !! k) ∧
  (isTensorView f v = true → memoryType_of (removeInput v f1) v = Some Global) ∧
  all_tv_uses_valid_ (removeInput v f1) = false.
Proof.
  intros Hv (x & Hx & Hfi & ->)%addInput_Ok.
  set (g := if bool_decide (vtype x = TensorView)
            then setMemoryType v Global f else f).
  assert (Hgi : inputs_ g = inputs_ f).
  { unfold g. by destruct (bool_decide (vtype x = TensorView)). }
  assert (Hgv : ∀ k, k ≠ v → vals_ g !! k = vals_ f !! k).
  { intros k Hk. unfold g. destruct (bool_decide (vtype x = TensorView)); [|done].
    simpl. by rewrite lookup_alter_ne. }
  split_and!.
  - simpl. rewrite Hgi.
    assert (Her : ∀ l, v ∉ l → erase_first v (l ++ [v]) = l); [|by apply Her].
    intros l. induction l as [|z l IH]; simpl; intros Hl.
    + by rewrite decide_True.
    + apply not_elem_of_cons in Hl as [? ?].
      rewrite decide_False by done. by rewrite IH.
  - unfold isFusionInput. simpl. rewrite !lookup_alter_eq.
    by destruct (vals_ g !! v).
  - intros k Hk. simpl. rewrite !lookup_alter_ne by done. by apply Hgv.
  - unfold isTensorView, memoryType_of. rewrite Hx. intros Htv. unfold g.
    rewrite Htv. simpl. by rewrite !lookup_alter_eq, Hx.
  - done.
Qed.

Definition one_input : Fusion :=
  invalidateTvUses (setIsFusionInput 0 true
    (with_inputs (λ l, l ++ [0])
       (setMemoryType 0 Global (fusion_of false [(0, a_tensor)])))).

Lemma addInput_removeInput_witness :
  inputs_ (removeInput 0 one_input) = [] ∧
  isFusionInput (removeInput 0 one_input) 0 = false ∧
  (∀ k, k ≠ 0 → vals_ (removeInput 0 one_input) !! k
                = vals_ (fusion_of false [(0, a_tensor)]) !! k) ∧
  (isTensorView (fusion_of false [(0, a_tensor)]) 0 = true →
   memoryType_of (removeInput 0 one_input) 0 = Some Global) ∧
  all_tv_uses_valid_ (removeInput 0 one_input) = false.
Proof.
  apply (addInput_removeInput (fusion_of false [(0, a_tensor)]) one_input 0);
    [apply not_elem_of_nil|reflexivity].
Defined.

(** ** Registering twice, and what a registration checks *)

(** X18.  Registering is idempotent: after a successful registration of a
    new expression, registering it again succeeds and changes nothing. *)
Theorem registerExpr_idempotent (f : Fusion) (e : nat) (ex : Expr)
    (f' : Fusion) :
  e ∉ referenced_exprs f →
  (isKernel f = false → NoDup (outputs ex)) →
  registerExpr e ex f = Ok f' →
  registerExpr e ex f' = Ok f'.
Proof.
  intros Hnew Hnd Hreg.
  pose proof (registerExpr_keeps f e ex f' Hnew Hnd Hreg) as He.
  unfold registerExpr, inContainer_expr.
  by rewrite bool_decide_eq_true_2 by eauto.
Qed.

(** A loop whose body checks that its operand is in the container and
    changes nothing static has checked every operand. *)
Lemma forM_operands (body : nat → Fusion → Result Fusion) (l : list nat)
    (t t' : Fusion) :
  (∀ a u u', body a u = Ok u' → inContainer_val u a = true ∧ static_eq u u') →
  forM body l t = Ok t' →
  static_eq t t' ∧ Forall (λ v, is_Some (vals_ t !! v)) l.
Proof.
  intros Hbody. revert t. induction l as [|a l IH]; intros t.
  - intros [= <-]. split; [apply static_eq_refl|constructor].
  - rewrite forM_cons. intros (u & Ha & Hrest)%bind_Ok.
    destruct (Hbody _ _ _ Ha) as [Hain Hst].
    destruct (IH _ Hrest) as [Hst' Hall]. split.
    + by eapply static_eq_trans.
    + constructor.
      * by apply bool_decide_eq_true in Hain.
      * eapply Forall_impl; [done|]. intros v Hv. simpl in Hv.
        by apply (static_eq_is_Some t u).
Qed.

(** X19.  A registration of a new expression that succeeds has checked the
    ownership of the expression and of its operands: the expression claims
    no container or this one, and every input and output is a value of the
    container. *)
Theorem registerExpr_checks_operands (f : Fusion) (e : nat) (ex : Expr)
    (f' : Fusion) :
  exprs_ f !! e = None →
  registerExpr e ex f = Ok f' →
  (fusion ex = None ∨ fusion ex = Some (self f)) ∧
  Forall (λ v, is_Some (vals_ f !! v)) (inputs ex ++ outputs ex).
Proof.
  intros Hnew. unfold registerExpr, inContainer_expr.
  rewrite bool_decide_eq_false_2 by (rewrite Hnew; by intros [? ?]).
  intros [Hown (f1 & Hin & Hout)%bind_Ok]%NVF_CHECK_bind_Ok. split.
  { destruct (fusion ex) as [c|]; [|by left].
    apply bool_decide_eq_true in Hown as ->. by right. }
  apply forM_operands in Hin as [Hst1 Hall1].
  2:{ intros a u u' (? & ? & _)%registerExpr_input_Ok. done. }
  apply forM_operands in Hout as [Hst2 Hall2].
  2:{ intros a u u' Ha. destruct (negb (isKernel f)).
      - by apply registerExpr_output_ssa in Ha as (? & ? & _).
      - by apply registerExpr_output_kernel in Ha as (? & ? & _). }
  apply Forall_app. split; [done|].
  eapply Forall_impl; [done|]. intros v Hv. simpl in Hv.
  by apply (static_eq_is_Some (IrContainer_registerExpr e ex f) f1).
Qed.

Lemma registerExpr_idempotent_witness :
  registerExpr 11 (mkExpr [1; 0] [2] None) defined_again = Ok defined_again.
Proof.
  apply (registerExpr_idempotent defined_once 11).
  - compute_done.
  - intros _. compute_done.
  - vm_compute. reflexivity.
Defined.

Lemma registerExpr_checks_operands_witness :
  (fusion (mkExpr [1; 0] [2] None) = None ∨
   fusion (mkExpr [1; 0] [2] None) = Some (self defined_once)) ∧
  Forall (λ v, is_Some (vals_ defined_once !! v)) ([1; 0] ++ [2]).
Proof.
  apply (registerExpr_checks_operands defined_once 11 (mkExpr [1; 0] [2] None)
           defined_again).
  - reflexivity.
  - vm_compute. reflexivity.
Defined.

(** ** What [removeExpr] detaches *)

Lemma removeUse_uses_eq (v e : nat) (f : Fusion) (k : nat) :
  uses_field (removeUse v e f) k
  = if decide (k = v) then erase_first e (uses_field f k) else uses_field f k.
Proof.
  unfold uses_field. rewrite removeUse_alter, lookup_alter.
  destruct (decide (k = v)) as [->|Hne].
  - rewrite decide_True by done. by destruct (vals_ f !! v).
  - by rewrite decide_False by done.
Qed.

Lemma erase_first_absent (e : nat) (l : list nat) :
  NoDup l → e ∉ erase_first e l.
Proof. intros Hnd. destruct (erase_first_NoDup e l Hnd) as [_ Hel]. rewrite Hel. tauto. Qed.

Lemma erase_first_keeps_absent (e : nat) (l : list nat) :
  e ∉ l → e ∉ erase_first e l.
Proof. intros He. by rewrite erase_first_not_elem. Qed.

Lemma remove_uses_absent (e : nat) (l : list nat) (f : Fusion) (k : nat) :
  (k ∈ l ∧ NoDup (uses_field f k)) ∨ e ∉ uses_field f k →
  e ∉ uses_field (foldl (λ g inp, removeUse inp e g) f l) k.
Proof.
  revert f. induction l as [|i l IH]; intros f; simpl.
  - intros [[Hk _]|?]; [by apply elem_of_nil in Hk|done].
  - intros Hcase. apply IH. rewrite removeUse_uses_eq.
    destruct (decide (k = i)) as [->|Hne].
    + right. destruct Hcase as [[_ Hnd]|Hno].
      * by apply erase_first_absent.
      * by apply erase_first_keeps_absent.
    + destruct Hcase as [[[->|Hk]%elem_of_cons Hnd]|Hno]; [done|left|right]; done.
Qed.

(** X20.  [removeExpr] succeeds exactly on a registered expression.  It
    erases the expression, clears the definition of every output, whether
    or not the expression was that definition, leaves the other
    definitions and the other uses alone, and takes the expression off the
    use list of each input whose use list has no repeated entry. *)
Theorem removeExpr_detaches (f : Fusion) (e : nat) :
  (is_Ok (removeExpr e f) = true ↔ is_Some (exprs_ f !! e)) ∧
  ∀ f', removeExpr e f = Ok f' →
    exprs_ f' = delete e (exprs_ f) ∧
    (∀ o, definition_field f' o
          = if decide (o ∈ expr_outputs f e) then None
            else definition_field f o) ∧
    (∀ k e', e' ≠ e → e' ∈ uses_field f' k ↔ e' ∈ uses_field f k) ∧
    (∀ i, i ∈ expr_inputs f e → NoDup (uses_field f i) →
          e ∉ uses_field f' i).
Proof.
  split.
  - split; [|apply removeExpr_succeeds].
    destruct (removeExpr e f) as [f'|] eqn:Hrm; [|done]. intros _.
    apply removeExpr_Ok in Hrm as (ex & -> & _). by eexists.
  - intros f' Hrm. pose proof Hrm as (ex & Hex & Hexs & _ & Hdef & Huses)%removeExpr_Ok.
    unfold expr_outputs, expr_inputs. rewrite Hex. simpl.
    split_and!; [done..|].
    intros i Hi Hnd. unfold removeExpr, assertInContainer_expr in Hrm.
    apply NVF_CHECK_bind_Ok in Hrm as [_ Hrm].
    unfold expr_outputs, expr_inputs in Hrm. rewrite Hex in Hrm. simpl in Hrm.
    unfold IrContainer_removeExpr in Hrm.
    apply NVF_CHECK_bind_Ok in Hrm as [_ [= <-]].
    change (uses_field (with_exprs (delete e) ?g) i) with (uses_field g i).
    apply remove_uses_absent. left. split; [done|].
    destruct (clear_definitions_spec (outputs ex) f) as (_ & _ & _ & Hu).
    by rewrite Hu.
Qed.

(** ** Registering an expression and removing it again *)

(** What [addUse] and [removeUse] do to the value they are called on. *)
Definition val_addUse (e : nat) (x : Val) : Val :=
  if decide (e ∈ uses_ x) then x else val_setUses (uses_ x ++ [e]) x.

Definition val_removeUse (e : nat) (x : Val) : Val :=
  val_setUses (erase_first e (uses_ x)) x.

Lemma erase_first_snoc (e : nat) (l : list nat) :
  e ∉ l → erase_first e (l ++ [e]) = l.
Proof.
  induction l as [|z l IH]; simpl; intros Hl.
  - by rewrite decide_True.
  - apply not_elem_of_cons in Hl as [? ?].
    rewrite decide_False by done. by rewrite IH.
Qed.

Lemma val_removeUse_addUse (e : nat) (x : Val) :
  e ∉ uses_ x → val_removeUse e (val_addUse e x) = x.
Proof.
  intros He. unfold val_removeUse, val_addUse. rewrite decide_False by done.
  destruct x as [vt c fi fo d u m it]; simpl in *. by rewrite erase_first_snoc.
Qed.

Lemma val_removeUse_id (e : nat) (x : Val) :
  e ∉ uses_ x → val_removeUse e x = x.
Proof.
  intros He. unfold val_removeUse. rewrite erase_first_not_elem by done.
  by destruct x.
Qed.

Lemma val_addUse_definition (e : nat) (x : Val) :
  definition_ (val_addUse e x) = definition_ x.
Proof. unfold val_addUse. by destruct (decide (e ∈ uses_ x)). Qed.

Lemma val_clear_set (e : nat) (x : Val) :
  definition_ x = None →
  val_setDefinition None (val_setDefinition (Some e) x) = x.
Proof. destruct x; simpl. by intros ->. Qed.

Lemma val_clear_id (x : Val) :
  definition_ x = None → val_setDefinition None x = x.
Proof. destruct x; simpl. by intros ->. Qed.

(** The values after the loop over the inputs: each is as it was, or is
    an input with the use added. *)
Lemma registerExpr_inputs_vals (e : nat) (l : list nat) (t t' : Fusion) :
  forM (registerExpr_input e) l t = Ok t' →
  ∀ k, vals_ t' !! k = vals_ t !! k ∨
       (k ∈ l ∧ vals_ t' !! k = val_addUse e <$> vals_ t !! k).
Proof.
  revert t. induction l as [|i l IH]; intros t.
  { intros [= <-] k. by left. }
  rewrite forM_cons. intros (t1 & Hi & Hrest)%bind_Ok k.
  unfold registerExpr_input in Hi.
  apply NVF_CHECK_bind_Ok in Hi as [_ [= <-]].
  destruct (IH _ Hrest k) as [Hk|[Hk1 Hk2]].
  - rewrite Hk. destruct (isTensorView t i); [by left|].
    simpl. rewrite lookup_alter. case_decide; subst; [|by left].
    right. split; [left|done].
  - rewrite Hk2. destruct (isTensorView t i).
    + right. split; [by right|done].
    + simpl. rewrite lookup_alter. case_decide; subst.
      * right. split; [left|]. rewrite <- option_fmap_compose.
        apply option_fmap_ext. intros x. unfold compose, val_addUse.
        destruct (decide (e ∈ uses_ x)) as [Hx|Hx]; [by rewrite decide_True|].
        simpl. rewrite decide_True; [done|].
        apply elem_of_app. right. left.
      * right. split; [by right|done].
Qed.

Lemma registerExpr_output_fresh (is_ssa : bool) (e o : nat) (t t' : Fusion) :
  definition_field t o = None →
  registerExpr_output is_ssa e o t = Ok t' →
  vals_ t' = alter (val_setDefinition (Some e)) o (vals_ t) ∧
  exprs_ t' = exprs_ t.
Proof.
  intros Hdef. unfold registerExpr_output.
  intros [_ Hrun]%NVF_CHECK_bind_Ok.
  assert (Hd : definition t o = None).
  { rewrite definition_eq, Hdef. by destruct (isFusionInput t o). }
  rewrite Hd in Hrun. simpl in Hrun. rewrite Hd in Hrun.
  rewrite bool_decide_eq_true_2 in Hrun by done.
  assert (Hc : is_ssa || negb is_ssa && true = true) by (by destruct is_ssa).
  rewrite Hc in Hrun. cbv zeta in Hrun.
  destruct (isTensorView (setDefinition o (Some e) t) o);
    injection Hrun as <-; done.
Qed.

Lemma registerExpr_outputs_vals (is_ssa : bool) (e : nat) (l : list nat)
    (t t' : Fusion) :
  NoDup l → (∀ o, o ∈ l → definition_field t o = None) →
  forM (registerExpr_output is_ssa e) l t = Ok t' →
  exprs_ t' = exprs_ t ∧
  ∀ k, vals_ t' !! k
       = if decide (k ∈ l) then val_setDefinition (Some e) <$> vals_ t !! k
         else vals_ t !! k.
Proof.
  revert t. induction l as [|o l IH]; intros t Hnd Hdef.
  { intros [= <-]. split; [done|]. intros k.
    by rewrite decide_False by apply not_elem_of_nil. }
  apply NoDup_cons in Hnd as [Hol Hnd].
  rewrite forM_cons. intros (t1 & Ho & Hrest)%bind_Ok.
  apply registerExpr_output_fresh in Ho as [Hv Hex]; [|apply Hdef; left].
  destruct (IH t1 Hnd) as [Hex' Hv']; [|done|].
  { intros o' Ho'. unfold definition_field. rewrite Hv, lookup_alter_ne.
    - apply Hdef. by right.
    - intros ->. done. }
  split; [congruence|]. intros k. rewrite Hv', Hv, lookup_alter.
  destruct (decide (k ∈ l)) as [Hk|Hk].
  - rewrite (decide_True (P := k ∈ o :: l)) by (by right).
    rewrite (decide_False (P := o = k)); [done|]. intros ->. done.
  - destruct (decide (o = k)) as [->|Hne].
    + by rewrite (decide_True (P := k ∈ k :: l)) by left.
    + rewrite (decide_False (P := k ∈ o :: l)); [done|].
      intros [?|?]%elem_of_cons; by subst.
Qed.

Lemma vals_clear_definitions (l : list nat) (f : Fusion) :
  vals_ (foldl (λ g out, setDefinition out None g) f l)
  = foldl (λ m out, alter (val_setDefinition None) out m) (vals_ f) l.
Proof. revert f. induction l as [|o l IH]; intros f; simpl; [done|]. by rewrite IH. Qed.

Lemma vals_remove_uses (e : nat) (l : list nat) (f : Fusion) :
  vals_ (foldl (λ g inp, removeUse inp e g) f l)
  = foldl (λ m inp, alter (val_removeUse e) inp m) (vals_ f) l.
Proof.
  revert f. induction l as [|i l IH]; intros f; simpl; [done|].
  by rewrite IH, removeUse_alter.
Qed.

Lemma clear_definitions_lookup (l : list nat) (m : gmap nat Val) (k : nat) :
  foldl (λ m out, alter (val_setDefinition None) out m) m l !! k
  = if decide (k ∈ l) then val_setDefinition None <$> m !! k else m !! k.
Proof.
  revert m. induction l as [|o l IH]; intros m.
  { by rewrite decide_False by apply not_elem_of_nil. }
  cbn [foldl]. rewrite IH, lookup_alter. destruct (decide (k ∈ l)) as [Hk|Hk].
  - rewrite (decide_True (P := k ∈ o :: l)) by (by right).
    case_decide; subst; [|done].
    rewrite <- option_fmap_compose. apply option_fmap_ext. by intros [].
  - destruct (decide (o = k)) as [->|Hne].
    + by rewrite (decide_True (P := k ∈ k :: l)) by left.
    + rewrite (decide_False (P := k ∈ o :: l)); [done|].
      intros [?|?]%elem_of_cons; by subst.
Qed.

Lemma remove_uses_restores (e : nat) (l : list nat) (m orig : gmap nat Val) :
  (∀ k x, k ∈ l → orig !! k = Some x → e ∉ uses_ x) →
  (∀ k, m !! k = orig !! k ∨ (k ∈ l ∧ m !! k = val_addUse e <$> orig !! k)) →
  foldl (λ m inp, alter (val_removeUse e) inp m) m l = orig.
Proof.
  revert m. induction l as [|i l IH]; intros m Hfresh Hm; simpl.
  - apply map_eq. intros k. destruct (Hm k) as [?|[Hk _]]; [done|].
    by apply elem_of_nil in Hk.
  - apply IH; [intros k x Hk; apply Hfresh; by right|].
    intros k. rewrite lookup_alter.
    destruct (decide (i = k)) as [->|Hne].
    + left. destruct (Hm k) as [->|[_ ->]].
      * destruct (orig !! k) as [x|] eqn:Hx; simpl; [|done]. f_equal.
        apply val_removeUse_id. apply (Hfresh k); [left|done].
      * destruct (orig !! k) as [x|] eqn:Hx; simpl; [|done]. f_equal.
        apply val_removeUse_addUse. apply (Hfresh k); [left|done].
    + destruct (Hm k) as [?|[[?|?]%elem_of_cons ?]]; [by left|by subst|by right].
Qed.

(** X21.  Removing a new expression right after registering it restores
    the container: when the outputs are distinct values without
    definition, [removeExpr] succeeds and the values, the expressions, the
    inputs, the outputs and the aliases are what they were (only the
    use-list cache may have been invalidated). *)
Theorem registerExpr_removeExpr (f : Fusion) (e : nat) (ex : Expr)
    (f1 : Fusion) :
  exprs_ f !! e = None →
  NoDup (outputs ex) →
  (∀ i, i ∈ inputs ex → e ∉ uses_field f i) →
  (∀ o, o ∈ outputs ex → definition_field f o = None) →
  registerExpr e ex f = Ok f1 →
  ∃ f2, removeExpr e f1 = Ok f2 ∧
        vals_ f2 = vals_ f ∧ exprs_ f2 = exprs_ f ∧
        inputs_ f2 = inputs_ f ∧ outputs_ f2 = outputs_ f ∧
        io_alias_ f2 = io_alias_ f.
Proof.
  intros Hnew Hnd Huses Hdefs Hreg.
  pose proof (registerExpr_static _ _ _ _ Hreg) as Hst1.
  unfold registerExpr, inContainer_expr in Hreg.
  rewrite bool_decide_eq_false_2 in Hreg by (rewrite Hnew; by intros [? ?]).
  apply NVF_CHECK_bind_Ok in Hreg as [_ (g & Hin & Hout)%bind_Ok].
  set (f0 := IrContainer_registerExpr e ex f) in *.
  pose proof (registerExpr_inputs_vals _ _ _ _ Hin) as Hvin.
  apply registerExpr_inputs_Ok in Hin as (_ & Hexg & Hdefg & _).
  apply registerExpr_outputs_vals in Hout as [Hex1 Hv1]; [|done|].
  2:{ intros o Ho. rewrite Hdefg. by apply Hdefs. }
  assert (He1 : exprs_ f1 !! e = Some ex).
  { rewrite Hex1, Hexg. apply lookup_insert_eq. }
  destruct (removeExpr e f1) as [f2|msg] eqn:Hrm.
  2:{ pose proof (removeExpr_succeeds e f1) as Hs. rewrite Hrm in Hs.
      discriminate Hs. eauto. }
  exists f2. split; [done|].
  pose proof Hrm as (ex' & Hex' & Hexs & Hst2 & _)%removeExpr_Ok.
  assert (Hst : static_eq f f2) by (by eapply static_eq_trans).
  destruct Hst as (_ & Hi & Ho & Ha & _).
  split_and!; [|..|done|done|done].
  - unfold removeExpr, assertInContainer_expr in Hrm.
    apply NVF_CHECK_bind_Ok in Hrm as [_ Hrm].
    unfold expr_outputs, expr_inputs in Hrm. rewrite He1 in Hrm. simpl in Hrm.
    unfold IrContainer_removeExpr in Hrm.
    apply NVF_CHECK_bind_Ok in Hrm as [_ [= <-]].
    change (vals_ (with_exprs (delete e) ?h)) with (vals_ h).
    rewrite vals_remove_uses, vals_clear_definitions.
    apply remove_uses_restores.
    + intros k x Hk Hx. specialize (Huses k Hk). unfold uses_field in Huses.
      by rewrite Hx in Huses.
    + intros k. rewrite clear_definitions_lookup, Hv1.
      match goal with |- ?X = _ ∨ _ => assert (Hclear : X = vals_ g !! k) end.
      { destruct (decide (k ∈ outputs ex)) as [Hk|Hk]; [|done].
        assert (Hgk : definition_field g k = None)
          by (rewrite Hdefg; by apply Hdefs).
        unfold definition_field in Hgk.
        destruct (vals_ g !! k) as [y|]; simpl in *; [|done].
        f_equal. by apply val_clear_set. }
      rewrite Hclear. apply Hvin.
  - rewrite Hexs, Hex1, Hexg. simpl. by rewrite delete_insert_id.
Qed.

Definition three_values : Fusion :=
  fusion_of false [(0, a_tensor); (1, a_scalar); (2, a_tensor)].

Lemma registerExpr_removeExpr_witness :
  ∃ f2, removeExpr 10 defined_once = Ok f2 ∧
        vals_ f2 = vals_ three_values ∧ exprs_ f2 = exprs_ three_values ∧
        inputs_ f2 = inputs_ three_values ∧
        outputs_ f2 = outputs_ three_values ∧
        io_alias_ f2 = io_alias_ three_values.
Proof.
  apply (registerExpr_removeExpr three_values 10 (mkExpr [0; 1] [2] None)
           defined_once).
  - reflexivity.
  - apply NoDup_singleton.
  - intros i Hi. repeat (apply elem_of_cons in Hi as [->|Hi]); [compute_done..|].
    by apply elem_of_nil in Hi.
  - intros o ->%list_elem_of_singleton. reflexivity.
  - vm_compute. reflexivity.
Defined.

(** ** [compareDomains] on empty lists and on lists with a repeated entry *)

(** X22.  Two empty lists compare as fully reachable before any other
    check; otherwise a repeated entry in [dom0], and then one in [dom1], is
    an error, whatever the traversal would find. *)
Theorem compareDomains_rejects_duplicates (bfs : IRBFS) (f : Fusion)
    (dom0 dom1 additional_ids : list nat) (ignore_broadcast : bool) :
  compareDomains bfs f [] [] additional_ids ignore_broadcast
  = Ok (mkCompareDomainResult false false) ∧
  (dom0 ≠ [] ∨ dom1 ≠ [] → ¬ NoDup dom0 →
   compareDomains bfs f dom0 dom1 additional_ids ignore_broadcast
   = Err "Duplicated entry is detected in dom0: ") ∧
  (dom0 ≠ [] ∨ dom1 ≠ [] → NoDup dom0 → ¬ NoDup dom1 →
   compareDomains bfs f dom0 dom1 additional_ids ignore_broadcast
   = Err "Duplicated entry is detected in dom1: ").
Proof.
  split; [done|].
  assert (Hne : dom0 ≠ [] ∨ dom1 ≠ [] →
                bool_decide (dom0 = []) && bool_decide (dom1 = []) = false).
  { intros [?|?]; apply andb_false_iff; [left|right];
      by apply bool_decide_eq_false. }
  split.
  - intros Hd Hnd. unfold compareDomains. rewrite (Hne Hd).
    rewrite (bool_decide_eq_false_2 (length dom0 = _)); [done|].
    intros Heq. by apply Hnd, size_list_to_set_NoDup.
  - intros Hd Hnd0 Hnd1. unfold compareDomains. rewrite (Hne Hd).
    rewrite (bool_decide_eq_true_2 (length dom0 = _))
      by (symmetry; by apply size_list_to_set_NoDup).
    rewrite (bool_decide_eq_false_2 (length dom1 = _)); [done|].
    intros Heq. by apply Hnd1, size_list_to_set_NoDup.
Qed.
